(** * Customer / address service (server/index.js): a shallow embedding

    The Express handlers of [server/index.js] are embedded as functions in a
    small state-and-exception monad over a [World] that holds the relational
    store, the transaction of the dedicated client, the number of clients
    leased from the pool and a schedule of store failures.  SQL statements
    are given their relational meaning on lists of rows.  The handlers
    embedded are the PostgreSQL ones that the file runs; the MySQL variant
    it keeps in comments is not. *)

From Stdlib Require Import ZArith String Ascii Lia.
From stdpp Require Import base decidable option list sorting strings.

Local Open Scope string_scope.
Local Open Scope Z_scope.

(** ** Rows of the two tables *)

Record Customer := mkCustomer {
  c_id : Z;
  c_first_name : string;
  c_last_name : string;
  c_phone_number : string
}.

Record Address := mkAddress {
  a_id : Z;
  a_customer_id : Z;
  a_address_details : string;
  a_city : string;
  a_state : string;
  a_pin_code : string
}.

Record Tables := mkTables {
  customers : list Customer;
  addresses : list Address
}.

#[global] Instance Customer_eq_dec : EqDecision Customer.
Proof. solve_decision. Defined.
#[global] Instance Address_eq_dec : EqDecision Address.
Proof. solve_decision. Defined.
#[global] Instance Tables_eq_dec : EqDecision Tables.
Proof. solve_decision. Defined.

(** ** JavaScript values read from [req.body] and [req.query]

    A field of the JSON body is absent ([undefined] or [null]) or a string;
    [customer_id] of [POST /api/addresses] is absent or a number.  The path
    parameter [req.params.id] is the integer the store reads it as. *)

Definition field := option string.

(** [!!x] for a string-or-absent value: the empty string is falsy. *)
Definition truthy (x : field) : bool :=
  match x with
  | Some s => negb (String.eqb s EmptyString)
  | None => false
  end.

(** [!!x] for a number-or-absent value: [0] is falsy. *)
Definition truthy_num (x : option Z) : bool :=
  match x with
  | Some n => negb (n =? 0)
  | None => false
  end.

(** The string a truthy field holds, as it is passed as a query parameter. *)
Definition text (x : field) : string := default EmptyString x.

Definition is_digit (c : ascii) : bool :=
  ((48 <=? nat_of_ascii c) && (nat_of_ascii c <=? 57))%nat.

Fixpoint all_digits (s : string) : bool :=
  match s with
  | EmptyString => true
  | String c s' => is_digit c && all_digits s'
  end.

(** [/^\d{n}$/.test(x)]: exactly [n] ASCII digits and nothing else.  An
    absent value is converted to the string "undefined" or "null", which
    does not match. *)
Definition test_digits (n : nat) (x : field) : bool :=
  match x with
  | Some s => all_digits s && (String.length s =? n)%nat
  | None => false
  end.

Record Body := mkBody {
  customer_id : option Z;
  first_name : field;
  last_name : field;
  phone_number : field;
  address_details : field;
  city : field;
  state : field;
  pin_code : field
}.

(** ** Responses *)

(** The rows of a list or search response. *)
Record CustomerView := mkView {
  v_id : Z;
  v_first_name : string;
  v_last_name : string;
  v_phone_number : string;
  v_address_count : option Z;
  v_addresses : list Address
}.

Inductive Json :=
  | JError (error : string) (field_name : option string)
  | JMessage (message : string)
  | JCreated (message : string) (customerId : Z)
  | JAddress (address : option Address)
  | JAddressAdded (message : string) (addressId : Z)
  | JCustomer (data : Customer) (nested : list Address)
  | JAddresses (data : list Address)
  | JData (data : list CustomerView)
  | JCount (count : Z).

Record Response := mkResponse { status : Z; json : Json }.

(** [res.status(n).json(b)] and [res.json(b)]. *)
Definition res_status_json (n : Z) (b : Json) : Response := mkResponse n b.
Definition res_json (b : Json) : Response := mkResponse 200 b.

(** ** The world a handler runs in *)

Record World := mkWorld {
  tables : Tables;                (* committed rows *)
  session : option Tables;        (* rows seen inside the client's open transaction *)
  customers_id_seq : Z;           (* next generated customers.id *)
  addresses_id_seq : Z;           (* next generated addresses.id *)
  leased : Z;                     (* clients taken from the pool and not released *)
  faults : list (option string)   (* outcome of the coming store calls: [Some m] fails with message [m] *)
}.

Definition set_tables (t : Tables) (w : World) : World :=
  mkWorld t (session w) (customers_id_seq w) (addresses_id_seq w) (leased w) (faults w).
Definition set_session (s : option Tables) (w : World) : World :=
  mkWorld (tables w) s (customers_id_seq w) (addresses_id_seq w) (leased w) (faults w).
Definition set_customers_id_seq (n : Z) (w : World) : World :=
  mkWorld (tables w) (session w) n (addresses_id_seq w) (leased w) (faults w).
Definition set_addresses_id_seq (n : Z) (w : World) : World :=
  mkWorld (tables w) (session w) (customers_id_seq w) n (leased w) (faults w).
Definition set_leased (n : Z) (w : World) : World :=
  mkWorld (tables w) (session w) (customers_id_seq w) (addresses_id_seq w) n (faults w).
Definition set_faults (f : list (option string)) (w : World) : World :=
  mkWorld (tables w) (session w) (customers_id_seq w) (addresses_id_seq w) (leased w) f.

(** No coming store call fails. *)
Definition calm (w : World) : Prop := Forall (λ f, f = None) (faults w).

(** ** Asynchronous computations: state and exceptions *)

Inductive Outcome (A : Type) :=
  | Returned (a : A)
  | Thrown (err : string).
Arguments Returned {A} a.
Arguments Thrown {A} err.

Definition Async (A : Type) : Type := World → Outcome A * World.

Definition ret {A} (a : A) : Async A := λ w, (Returned a, w).

Definition throw {A} (err : string) : Async A := λ w, (Thrown err, w).

Definition bind {A B} (m : Async A) (k : A → Async B) : Async B :=
  λ w, match m w with
       | (Returned a, w1) => k a w1
       | (Thrown e, w1) => (Thrown e, w1)
       end.

Declare Scope async_scope.
Delimit Scope async_scope with async.
Notation "x <~ m ;; k" := (bind m (λ x, k))
  (at level 100, m at next level, k at level 200,
   right associativity) : async_scope.
Notation "'exec' m ;; k" := (bind m (λ _, k))
  (at level 100, m at next level, k at level 200,
   right associativity) : async_scope.
Local Open Scope async_scope.

(** [try { body } catch (err) { handler }]. *)
Definition try_catch {A} (body : Async A) (handler : string → Async A) : Async A :=
  λ w, match body w with
       | (Returned a, w1) => (Returned a, w1)
       | (Thrown e, w1) => handler e w1
       end.

(** [try { body } catch (err) { handler } finally { finalizer }]: the
    finalizer runs after the body or after the handler, also when the
    handler throws. *)
Definition try_catch_finally {A} (body : Async A) (handler : string → Async A)
    (finalizer : Async unit) : Async A :=
  λ w, let '(r, w1) := try_catch body handler w in
       match finalizer w1 with
       | (Returned _, w2) => (r, w2)
       | (Thrown e, w2) => (Thrown e, w2)
       end.

(** What the HTTP client sees: the response the handler sent, or none when
    the handler's promise was rejected. *)
Definition run (h : Async Response) (w : World) : option Response * World :=
  match h w with
  | (Returned r, w') => (Some r, w')
  | (Thrown _, w') => (None, w')
  end.

(** ** The store interface

    The module [./db] (a pool of PostgreSQL clients that exports [query]
    and [getClient]) is not among the sources; it is modelled as the spec
    describes the store: a transactional relational store with a pool of
    connections.  Every call to the store first consumes one entry of the
    failure schedule.  A statement sent through the pool ([db.query]) is
    committed on its own; a statement sent through the leased client sees
    and changes the rows of the client's open transaction, when there is
    one. *)

Inductive Conn := pool | client.

Definition pop_fault : Async unit :=
  λ w, match faults w with
       | [] => (Returned tt, w)
       | None :: fs => (Returned tt, set_faults fs w)
       | Some m :: fs => (Thrown m, set_faults fs w)
       end.

Definition visible (c : Conn) (w : World) : Tables :=
  match c with
  | pool => tables w
  | client => default (tables w) (session w)
  end.

Definition write_back (c : Conn) (t : Tables) (w : World) : World :=
  match c, session w with
  | client, Some _ => set_session (Some t) w
  | _, _ => set_tables t w
  end.

(** A statement maps the visible rows to a result and new rows, or to an
    error raised by the store. *)
Definition Statement (R : Type) : Type := Tables → Outcome (R * Tables).

Definition apply_statement {R} (c : Conn) (stmt : Statement R) : Async R :=
  λ w, match stmt (visible c w) with
       | Returned (r, t') => (Returned r, write_back c t' w)
       | Thrown e => (Thrown e, w)
       end.

(** Modelled from the spec: [query] of [./db] and of a leased client,
    [c.query(sql, params)]. *)
Definition query {R} (c : Conn) (stmt : Statement R) : Async R :=
  exec pop_fault ;; apply_statement c stmt.

(** Modelled from the spec: [getClient] of [./db]; a client with no open
    transaction leaves the pool. *)
Definition getClient : Async Conn :=
  exec pop_fault ;;
  λ w, (Returned client, set_session None (set_leased (leased w + 1) w)).

(** Modelled from the spec: [client.release()] gives the client back to
    the pool. *)
Definition release : Async unit :=
  λ w, (Returned tt, set_leased (leased w - 1) w).

(** [client.query('BEGIN')] *)
Definition BEGIN : Async unit :=
  exec pop_fault ;;
  λ w, (Returned tt,
        match session w with
        | None => set_session (Some (tables w)) w
        | Some _ => w
        end).

(** [client.query('COMMIT')] *)
Definition COMMIT : Async unit :=
  exec pop_fault ;;
  λ w, (Returned tt,
        match session w with
        | Some t => set_session None (set_tables t w)
        | None => w
        end).

(** [client.query('ROLLBACK')] *)
Definition ROLLBACK : Async unit :=
  exec pop_fault ;;
  λ w, (Returned tt, set_session None w).

(** Generated ids; a sequence is not reset by a rollback. *)
Definition nextval_customers : Async Z :=
  λ w, (Returned (customers_id_seq w),
        set_customers_id_seq (customers_id_seq w + 1) w).

Definition nextval_addresses : Async Z :=
  λ w, (Returned (addresses_id_seq w),
        set_addresses_id_seq (addresses_id_seq w + 1) w).

(** ** Referential integrity *)

Definition customer_exists (id : Z) (t : Tables) : Prop :=
  id ∈ c_id <$> customers t.

Definition has_addresses (id : Z) (t : Tables) : Prop :=
  id ∈ a_customer_id <$> addresses t.

#[global] Instance customer_exists_dec id t : Decision (customer_exists id t).
Proof. unfold customer_exists. apply _. Defined.
#[global] Instance has_addresses_dec id t : Decision (has_addresses id t).
Proof. unfold has_addresses. apply _. Defined.

(** Every address row refers to an existing customer row. *)
Definition referential (t : Tables) : Prop :=
  ∀ a, a ∈ addresses t → customer_exists (a_customer_id a) t.

(** The customer ids are a primary key. *)
Definition primary_key (t : Tables) : Prop := NoDup (c_id <$> customers t).

Section Writes.

(** Whether the schema declares [addresses.customer_id] as a foreign key
    of [customers.id]: the schema is not among the sources and the
    constraint is a parameter of the statements. *)
Variable foreign_key : bool.

(** ** The SQL statements of the write handlers *)

(** [UPDATE customers SET first_name = $1, last_name = $2, phone_number = $3
     WHERE id = $4 RETURNING *] *)
Definition sql_update_customer (fn ln ph : string) (id : Z) : Statement (list Customer) :=
  λ t, let upd c := if decide (c_id c = id) then mkCustomer (c_id c) fn ln ph else c in
       let cs := upd <$> customers t in
       Returned (filter (λ c, c_id c = id) cs, mkTables cs (addresses t)).

(** [INSERT INTO addresses (customer_id, address_details, city, state,
     pin_code) VALUES ($1, $2, $3, $4, $5) RETURNING *] with generated id
    [new_id]. *)
Definition sql_insert_address (new_id cid : Z) (ad ci st pin : string) : Statement (list Address) :=
  λ t, if foreign_key && negb (bool_decide (customer_exists cid t))
       then Thrown "insert or update on table addresses violates foreign key constraint"
       else let row := mkAddress new_id cid ad ci st pin in
            Returned ([row], mkTables (customers t) (addresses t ++ [row])).

(** [UPDATE addresses SET address_details = $1, city = $2, state = $3,
     pin_code = $4 WHERE id = $5 RETURNING *] *)
Definition sql_update_address (ad ci st pin : string) (id : Z) : Statement (list Address) :=
  λ t, let upd a := if decide (a_id a = id)
                    then mkAddress (a_id a) (a_customer_id a) ad ci st pin else a in
       let rows := upd <$> addresses t in
       Returned (filter (λ a, a_id a = id) rows, mkTables (customers t) rows).

(** [DELETE FROM addresses WHERE id = $1 RETURNING *] *)
Definition sql_delete_address (id : Z) : Statement (list Address) :=
  λ t, Returned (filter (λ a, a_id a = id) (addresses t),
                 mkTables (customers t) (filter (λ a, a_id a ≠ id) (addresses t))).

(** [DELETE FROM addresses WHERE customer_id = $1] *)
Definition sql_delete_addresses_of (cid : Z) : Statement unit :=
  λ t, Returned (tt, mkTables (customers t)
                       (filter (λ a, a_customer_id a ≠ cid) (addresses t))).

(** [DELETE FROM customers WHERE id = $1 RETURNING *] *)
Definition sql_delete_customer (id : Z) : Statement (list Customer) :=
  λ t, if foreign_key && bool_decide (customer_exists id t)
            && bool_decide (has_addresses id t)
       then Thrown "update or delete on table customers violates foreign key constraint"
       else Returned (filter (λ c, c_id c = id) (customers t),
                      mkTables (filter (λ c, c_id c ≠ id) (customers t)) (addresses t)).

(** [SELECT id FROM customers WHERE first_name = $1 AND last_name = $2
     AND phone_number = $3] *)
Definition same_triple (fn ln ph : string) (c : Customer) : Prop :=
  c_first_name c = fn ∧ c_last_name c = ln ∧ c_phone_number c = ph.

#[global] Instance same_triple_dec fn ln ph c : Decision (same_triple fn ln ph c).
Proof. unfold same_triple. apply _. Defined.

Definition sql_select_duplicate (fn ln ph : string) : Statement (list Z) :=
  λ t, Returned (c_id <$> filter (same_triple fn ln ph) (customers t), t).

(** [INSERT INTO customers (first_name, last_name, phone_number)
     VALUES ($1, $2, $3) RETURNING id] with generated id [new_id]. *)
Definition sql_insert_customer (new_id : Z) (fn ln ph : string) : Statement (list Z) :=
  λ t, Returned ([new_id],
                 mkTables (customers t ++ [mkCustomer new_id fn ln ph]) (addresses t)).

(** [SELECT * FROM customers WHERE id = $1] *)
Definition sql_select_customer (id : Z) : Statement (list Customer) :=
  λ t, Returned (filter (λ c, c_id c = id) (customers t), t).

(** [SELECT * FROM addresses WHERE customer_id = $1] *)
Definition sql_select_addresses_of (cid : Z) : Statement (list Address) :=
  λ t, Returned (filter (λ a, a_customer_id a = cid) (addresses t), t).

(** An [INSERT] takes its id from the table's sequence. *)
Definition insert_address (c : Conn) (cid : Z) (ad ci st pin : string) : Async (list Address) :=
  exec pop_fault ;;
  new_id <~ nextval_addresses ;;
  apply_statement c (sql_insert_address new_id cid ad ci st pin).

Definition insert_customer (c : Conn) (fn ln ph : string) : Async (list Z) :=
  exec pop_fault ;;
  new_id <~ nextval_customers ;;
  apply_statement c (sql_insert_customer new_id fn ln ph).

(** [rows[0].id]: reading a property of [undefined] throws a TypeError. *)
Definition first_row {A} (rows : list A) : Async A :=
  match rows with
  | r :: _ => ret r
  | [] => throw "Cannot read properties of undefined"
  end.

(** [result.rowCount === 0] *)
Definition rowCount {A} (rows : list A) : Z := Z.of_nat (length rows).

(** ** The handlers that write *)

(** [PUT /api/customers/:id] — update customer + optional address *)
Definition put_customer (customerId : Z) (b : Body) : Async Response :=
  if negb (truthy (first_name b)) || negb (truthy (last_name b))
     || negb (truthy (phone_number b))
  then ret (res_status_json 400
              (JError "First name, last name and phone number are required." None))
  else if negb (test_digits 10 (phone_number b))
  then ret (res_status_json 400 (JError "Phone number must be 10 digits." None))
  else
    client <~ getClient ;;
    try_catch_finally
      (exec BEGIN ;;
       customerResult <~ query client
         (sql_update_customer (text (first_name b)) (text (last_name b))
                              (text (phone_number b)) customerId) ;;
       if rowCount customerResult =? 0
       then exec ROLLBACK ;;
            ret (res_status_json 404 (JError "Customer not found." None))
       else
         exec (if truthy (address_details b) && truthy (city b)
                  && truthy (state b) && truthy (pin_code b)
               then exec insert_address client customerId
                           (text (address_details b)) (text (city b))
                           (text (state b)) (text (pin_code b)) ;;
                    ret tt
               else ret tt) ;;
         exec COMMIT ;;
         ret (res_json (JMessage (if truthy (address_details b)
                                  then "Customer and address updated successfully."
                                  else "Customer updated successfully."))))
      (λ err, exec ROLLBACK ;;
              ret (res_status_json 500 (JError err None)))
      release.

(** [POST /api/addresses] — add new address *)
Definition post_address (b : Body) : Async Response :=
  if negb (truthy_num (customer_id b)) || negb (truthy (address_details b))
     || negb (truthy (city b)) || negb (truthy (state b))
     || negb (truthy (pin_code b))
  then ret (res_status_json 400 (JError "All fields required." None))
  else
    try_catch
      (result <~ insert_address pool (default 0 (customer_id b))
                   (text (address_details b)) (text (city b))
                   (text (state b)) (text (pin_code b)) ;;
       ret (res_status_json 201 (JAddress (head result))))
      (λ err, ret (res_status_json 500 (JError err None))).

(** [PUT /api/addresses/:id] — update address *)
Definition put_address (addressId : Z) (b : Body) : Async Response :=
  if negb (truthy (address_details b)) || negb (truthy (city b))
     || negb (truthy (state b)) || negb (truthy (pin_code b))
  then ret (res_status_json 400 (JError "All fields required." None))
  else
    try_catch
      (result <~ query pool
         (sql_update_address (text (address_details b)) (text (city b))
                             (text (state b)) (text (pin_code b)) addressId) ;;
       if rowCount result =? 0
       then ret (res_status_json 404 (JError "Address not found." None))
       else ret (res_json (JAddress (head result))))
      (λ err, ret (res_status_json 500 (JError err None))).

(** [DELETE /api/addresses/:id] *)
Definition delete_address (addressId : Z) : Async Response :=
  try_catch
    (result <~ query pool (sql_delete_address addressId) ;;
     if rowCount result =? 0
     then ret (res_status_json 404 (JError "Address not found." None))
     else ret (res_json (JMessage "Address deleted successfully.")))
    (λ err, ret (res_status_json 500 (JError err None))).

(** [DELETE /api/customers/:id] *)
Definition delete_customer (customerId : Z) : Async Response :=
  client <~ getClient ;;
  try_catch_finally
    (exec BEGIN ;;
     (* First, delete all addresses for this customer *)
     exec query client (sql_delete_addresses_of customerId) ;;
     (* Then, delete the customer *)
     result <~ query client (sql_delete_customer customerId) ;;
     if rowCount result =? 0
     then exec ROLLBACK ;;
          ret (res_status_json 404 (JError "Customer not found." None))
     else
       exec COMMIT ;;
       ret (res_json
              (JMessage "Customer and all associated addresses deleted successfully.")))
    (λ err, exec ROLLBACK ;;
            ret (res_status_json 500 (JError err None)))
    release.

(** [POST /api/customers] *)
Definition post_customer (b : Body) : Async Response :=
  if negb (truthy (first_name b)) || negb (truthy (last_name b))
     || negb (truthy (phone_number b)) || negb (truthy (address_details b))
     || negb (truthy (city b)) || negb (truthy (state b))
     || negb (truthy (pin_code b))
  then ret (res_status_json 400 (JError "All fields are required." (Some "general")))
  else if negb (test_digits 10 (phone_number b))
  then ret (res_status_json 400
              (JError "Phone number must be 10 digits." (Some "phone_number")))
  else if negb (test_digits 6 (pin_code b))
  then ret (res_status_json 400
              (JError "Pin code must be 6 digits." (Some "pin_code")))
  else
    client <~ getClient ;;
    try_catch_finally
      (exec BEGIN ;;
       (* Check for duplicate customer *)
       checkResult <~ query client
         (sql_select_duplicate (text (first_name b)) (text (last_name b))
                               (text (phone_number b))) ;;
       if 0 <? rowCount checkResult
       then exec ROLLBACK ;;
            ret (res_status_json 409
                   (JError "Customer with this name and phone number already exists."
                           (Some "phone_number")))
       else
         (* Insert customer *)
         customerResult <~ insert_customer client (text (first_name b))
                             (text (last_name b)) (text (phone_number b)) ;;
         customerId <~ first_row customerResult ;;
         (* Insert address *)
         exec insert_address client customerId
                (text (address_details b)) (text (city b))
                (text (state b)) (text (pin_code b)) ;;
         exec COMMIT ;;
         ret (res_status_json 201
                (JCreated "Customer and address created successfully." customerId)))
      (λ err, exec ROLLBACK ;;
              ret (res_status_json 500 (JError err (Some "general"))))
      release.

(** [POST /api/customers/:id/addresses] *)
Definition post_customer_address (id : Z) (b : Body) : Async Response :=
  if negb (truthy (address_details b)) || negb (truthy (city b))
     || negb (truthy (state b)) || negb (truthy (pin_code b))
  then ret (res_status_json 400 (JError "All address fields are required." None))
  else if negb (test_digits 6 (pin_code b))
  then ret (res_status_json 400 (JError "Pin code must be 6 digits." None))
  else
    try_catch
      (result <~ insert_address pool id
                   (text (address_details b)) (text (city b))
                   (text (state b)) (text (pin_code b)) ;;
       row <~ first_row result ;;
       ret (res_status_json 201 (JAddressAdded "Address added" (a_id row))))
      (λ err, ret (res_status_json 500 (JError err None))).

(** [GET /api/customers/:id] *)
Definition get_customer (customerId : Z) : Async Response :=
  try_catch
    (customerResult <~ query pool (sql_select_customer customerId) ;;
     match customerResult with
     | [] => ret (res_status_json 404 (JError "Customer not found" None))
     | row :: _ =>
       addressResult <~ query pool (sql_select_addresses_of customerId) ;;
       ret (res_json (JCustomer row addressResult))
     end)
    (λ err, ret (res_status_json 500 (JError err None))).

(** [GET /api/customers/:id/addresses] *)
Definition get_customer_addresses (id : Z) : Async Response :=
  try_catch
    (result <~ query pool (sql_select_addresses_of id) ;;
     ret (res_json (JAddresses result)))
    (λ err, ret (res_status_json 500 (JError err None))).

End Writes.

(** ** The handlers that read *)

(** A row of [customers c LEFT JOIN addresses a]: the address columns are
    all NULL for a customer without addresses. *)
Definition JoinRow : Type := Customer * option Address.

(** A row of the grouped list query, as the driver returns it. *)
Record ListRow := mkListRow {
  r_id : Z;
  r_first_name : string;
  r_last_name : string;
  r_phone_number : string;
  r_address_count : Z;
  r_addresses : list (option Address)
}.

(** A row of the search query: [c.*] and the aggregated [addresses]
    column, which is NULL for a customer without addresses. *)
Definition SearchRow : Type := Customer * option (list Address).

Inductive Having := NoHaving | HavingCountEq1 | HavingCountGt1.

Section Reads.

(** [value ILIKE pattern] of the store and [String.prototype.trim]. *)
Variable ILIKE : string → string → bool.
Variable trim : string → string.

(** [FROM customers c LEFT JOIN addresses a ON c.id = a.customer_id] *)
Definition left_join (t : Tables) : list JoinRow :=
  c ← customers t;
  match filter (λ a, a_customer_id a = c_id c) (addresses t) with
  | [] => [(c, None)]
  | rows => (λ a, (c, Some a)) <$> rows
  end.

(** [c.first_name ILIKE $1 OR c.last_name ILIKE $1 OR c.phone_number ILIKE $1
     OR a.address_details ILIKE $1 OR a.city ILIKE $1 OR a.state ILIKE $1
     OR a.pin_code ILIKE $1]; a comparison with NULL does not hold. *)
Definition customer_like (term : string) (c : Customer) : bool :=
  ILIKE (c_first_name c) term || ILIKE (c_last_name c) term
  || ILIKE (c_phone_number c) term.

Definition address_like (term : string) (a : Address) : bool :=
  ILIKE (a_address_details a) term || ILIKE (a_city a) term
  || ILIKE (a_state a) term || ILIKE (a_pin_code a) term.

Definition search_condition (term : string) (r : JoinRow) : bool :=
  customer_like term r.1
  || match r.2 with
     | Some a => address_like term a
     | None => false
     end.

(** [json_agg]: NULL over no rows. *)
Definition json_agg {A} (rows : list A) : option (list A) :=
  match rows with
  | [] => None
  | _ => Some rows
  end.

(** [COUNT(a.id)]: the rows of the group whose address is not NULL. *)
Definition count_a_id (g : list JoinRow) : Z :=
  Z.of_nat (length (filter (λ r : JoinRow, is_Some r.2) g)).

(** [GROUP BY c.id] *)
Definition group_by_id (rows : list JoinRow) : list (Z * list JoinRow) :=
  (λ k, (k, filter (λ r : JoinRow, c_id r.1 = k) rows))
    <$> remove_dups ((λ r : JoinRow, c_id r.1) <$> rows).

Definition having_holds (h : Having) (g : Z * list JoinRow) : bool :=
  match h with
  | NoHaving => true
  | HavingCountEq1 => count_a_id g.2 =? 1
  | HavingCountGt1 => 1 <? count_a_id g.2
  end.

(** The select list of [GET /api/customers]: the customer columns of the
    group, [COUNT(a.id) AS address_count] and
    [COALESCE(json_agg(CASE WHEN a.id IS NOT NULL THEN row_to_json(a) END),
     '[]'::json) AS addresses]. *)
Definition select_list_row (g : Z * list JoinRow) : option ListRow :=
  match g.2 with
  | (c, _) :: _ =>
    Some (mkListRow g.1 (c_first_name c) (c_last_name c) (c_phone_number c)
            (count_a_id g.2) (default [] (json_agg (snd <$> g.2))))
  | [] => None
  end.

(** [ORDER BY c.id DESC] *)
Definition id_desc {A} (key : A → Z) : relation A := λ x y, key y ≤ key x.

#[global] Instance id_desc_dec {A} (key : A → Z) x y : Decision (id_desc key x y).
Proof. unfold id_desc. apply _. Defined.

Definition order_by_id_desc {A} (key : A → Z) (rows : list A) : list A :=
  merge_sort (id_desc key) rows.

(** [searchTerm && searchTerm.trim()] *)
Definition has_search (searchTerm : option string) : bool :=
  truthy searchTerm && truthy (trim <$> searchTerm).

(** [`%${s}%`] *)
Definition pattern_of (s : string) : string := "%" ++ s ++ "%".

(** The query text of [GET /api/customers]. *)
Definition list_query (addressCount searchTerm : option string) (t : Tables) : list ListRow :=
  let joined := left_join t in
  let filtered :=
    if has_search searchTerm
    then filter (search_condition (pattern_of (trim (text searchTerm)))) joined
    else joined in
  let havingClause :=
    if decide (addressCount = Some "single") then HavingCountEq1
    else if decide (addressCount = Some "multiple") then HavingCountGt1
    else NoHaving in
  let groups := filter (having_holds havingClause) (group_by_id filtered) in
  order_by_id_desc r_id (omap select_list_row groups).

Definition sql_list_customers (addressCount searchTerm : option string) : Statement (list ListRow) :=
  λ t, Returned (list_query addressCount searchTerm t, t).

(** [row => ({ id: row.id, ..., address_count: parseInt(row.address_count) || 0,
     addresses: row.addresses.filter(addr => addr !== null) })] *)
Definition list_view (row : ListRow) : CustomerView :=
  mkView (r_id row) (r_first_name row) (r_last_name row) (r_phone_number row)
         (Some (r_address_count row)) (omap id (r_addresses row)).

(** [GET /api/customers] — with filtering by address count + search *)
Definition get_customers (addressCount searchTerm : option string) : Async Response :=
  try_catch
    (result <~ query pool (sql_list_customers addressCount searchTerm) ;;
     let customers := list_view <$> result in
     ret (res_json (JData customers)))
    (λ err, ret (res_status_json 500 (JError err None))).

(** The query text of [GET /api/customers/count]: the subquery selects
    [c.id] from the join; the address-count condition carries its own
    [a.id IS NOT NULL GROUP BY c.id HAVING ...]; [GROUP BY c.id] is added
    when [addressCount] is falsy. *)
Definition count_query (addressCount searchTerm : option string) (t : Tables) : Z :=
  let joined := left_join t in
  let searched :=
    if has_search searchTerm
    then filter (search_condition (pattern_of (trim (text searchTerm)))) joined
    else joined in
  let not_null := filter (λ r : JoinRow, is_Some r.2) searched in
  let filtered_customers : list Z :=
    if decide (addressCount = Some "single")
    then fst <$> filter (having_holds HavingCountEq1) (group_by_id not_null)
    else if decide (addressCount = Some "multiple")
    then fst <$> filter (having_holds HavingCountGt1) (group_by_id not_null)
    else if negb (truthy addressCount)
    then fst <$> group_by_id searched
    else (λ r : JoinRow, c_id r.1) <$> searched in
  Z.of_nat (length filtered_customers).

Definition sql_count_customers (addressCount searchTerm : option string) : Statement (list Z) :=
  λ t, Returned ([count_query addressCount searchTerm t], t).

(** [GET /api/customers/count] *)
Definition get_customers_count (addressCount searchTerm : option string) : Async Response :=
  try_catch
    (result <~ query pool (sql_count_customers addressCount searchTerm) ;;
     ret (res_json (JCount (default 0 (head result)))))
    (λ err, ret (res_status_json 500 (JError err None))).

(** The subquery [(SELECT json_agg(row_to_json(a)) FROM addresses a
     WHERE a.customer_id = c.id) as addresses]. *)
Definition addresses_of (t : Tables) (c : Customer) : option (list Address) :=
  json_agg (filter (λ a, a_customer_id a = c_id c) (addresses t)).

(** The query text of [GET /api/customers/search] without a search term:
    [SELECT c.*, (...) as addresses FROM customers c ORDER BY c.id DESC]. *)
Definition search_all (t : Tables) : list SearchRow :=
  order_by_id_desc (λ r : SearchRow, c_id r.1)
    ((λ c, (c, addresses_of t c)) <$> customers t).

(** The two query texts of [GET /api/customers/search].  The text for a
    search term is [SELECT DISTINCT c.*, (...) as addresses FROM customers c
    LEFT JOIN addresses a ... WHERE ... ILIKE $1 ... ORDER BY c.id DESC]:
    [DISTINCT] compares every selected column, the [addresses] column is
    the [json] value of [json_agg], and PostgreSQL has no equality
    operator for [json], so the store refuses the statement, whatever the
    pattern and the rows are. *)
Definition search_query (searchTerm : string) (t : Tables) : Outcome (list SearchRow) :=
  if negb (truthy (Some (trim searchTerm)))
  then Returned (search_all t)
  else Thrown "could not identify an equality operator for type json".

Definition sql_search_customers (searchTerm : string) : Statement (list SearchRow) :=
  λ t, match search_query searchTerm t with
       | Returned rows => Returned (rows, t)
       | Thrown e => Thrown e
       end.

(** [row => ({ ...row, addresses: row.addresses || [] })] *)
Definition search_view (row : SearchRow) : CustomerView :=
  mkView (c_id row.1) (c_first_name row.1) (c_last_name row.1)
         (c_phone_number row.1) None (default [] row.2).

(** [GET /api/customers/search?q=term] *)
Definition get_customers_search (q : option string) : Async Response :=
  let searchTerm := if truthy q then text q else EmptyString in
  try_catch
    (result <~ query pool (sql_search_customers searchTerm) ;;
     let customers := search_view <$> result in
     ret (res_json (JData customers)))
    (λ err, ret (res_status_json 500 (JError err None))).

End Reads.

(** ** A concrete store operator and string method, to run the handlers

    [ilike] is PostgreSQL's [ILIKE] on ASCII text: [%] matches any run of
    characters, [_] one character, a backslash takes the next character
    literally, letters match without regard to case.  [js_trim] removes
    ASCII white space at both ends. *)

Definition lower (c : ascii) : ascii :=
  let n := nat_of_ascii c in
  if ((65 <=? n) && (n <=? 90))%nat then ascii_of_nat (n + 32) else c.

Definition same_letter (c d : ascii) : bool :=
  bool_decide (lower c = lower d).

Fixpoint like (pattern : string) : string → bool :=
  match pattern with
  | EmptyString => λ s, bool_decide (s = EmptyString)
  | String "%" rest =>
    fix any (s : string) : bool :=
      like rest s || match s with
                     | EmptyString => false
                     | String _ s' => any s'
                     end
  | String "_" rest =>
    λ s, match s with
         | EmptyString => false
         | String _ s' => like rest s'
         end
  | String "\" (String c rest) =>
    λ s, match s with
         | EmptyString => false
         | String d s' => same_letter c d && like rest s'
         end
  | String c rest =>
    λ s, match s with
         | EmptyString => false
         | String d s' => same_letter c d && like rest s'
         end
  end.

Definition ilike (value pattern : string) : bool := like pattern value.

Definition is_space (c : ascii) : bool :=
  let n := nat_of_ascii c in
  ((n =? 32) || ((9 <=? n) && (n <=? 13)))%nat.

Fixpoint trim_start (s : string) : string :=
  match s with
  | String c s' => if is_space c then trim_start s' else s
  | EmptyString => EmptyString
  end.

Fixpoint trim_end (s : string) : string :=
  match s with
  | String c s' =>
    match trim_end s' with
    | EmptyString => if is_space c then EmptyString else String c EmptyString
    | t => String c t
    end
  | EmptyString => EmptyString
  end.

Definition js_trim (s : string) : string := trim_end (trim_start s).


(** * Specification vocabulary *)

(** ** Weakest preconditions

    [wp m Q E w]: run from [w], [m] returns a value and a world that
    satisfy [Q], or throws an error and leaves a world that satisfies [E]. *)

Definition wp {A} (m : Async A) (Q : A → World → Prop)
    (E : string → World → Prop) (w : World) : Prop :=
  match m w with
  | (Returned a, w') => Q a w'
  | (Thrown e, w') => E e w'
  end.

Arguments wp : simpl never.
Arguments rowCount : simpl never.

(** A computation that ends with as many leased clients as it started with. *)
Definition keeps_lease {A} (m : Async A) : Prop :=
  ∀ w, leased (m w).2 = leased w.

(** ** Customers *)

(** The payload names an existing customer: same first name, last name
    and phone number. *)
Definition duplicate_of (b : Body) (t : Tables) : Prop :=
  ∃ c, c ∈ customers t ∧ first_name b = Some (c_first_name c)
       ∧ last_name b = Some (c_last_name c)
       ∧ phone_number b = Some (c_phone_number c).

(** The rows and the sequences of the store are what they were. *)
Definition unchanged (w w' : World) : Prop :=
  tables w' = tables w ∧ customers_id_seq w' = customers_id_seq w
  ∧ addresses_id_seq w' = addresses_id_seq w.

(** The checks of [POST /api/customers] and of [PUT /api/customers/:id]
    that come before the client is leased. *)
Definition create_valid (b : Body) : bool :=
  truthy (first_name b) && truthy (last_name b) && truthy (phone_number b)
  && truthy (address_details b) && truthy (city b) && truthy (state b)
  && truthy (pin_code b)
  && test_digits 10 (phone_number b) && test_digits 6 (pin_code b).

Definition update_valid (b : Body) : bool :=
  truthy (first_name b) && truthy (last_name b) && truthy (phone_number b)
  && test_digits 10 (phone_number b).

Definition conflict_response : Response :=
  res_status_json 409
    (JError "Customer with this name and phone number already exists."
            (Some "phone_number")).

Definition customer_not_found : Response :=
  res_status_json 404 (JError "Customer not found." None).

Definition updated_with_address : Response :=
  res_json (JMessage "Customer and address updated successfully.").

Definition customer_deleted : Response :=
  res_json (JMessage "Customer and all associated addresses deleted successfully.").

(** The rows left when customer [id] and its addresses are removed. *)
Definition cascade (id : Z) (t : Tables) : Tables :=
  mkTables (filter (λ c, c_id c ≠ id) (customers t))
           (filter (λ a, a_customer_id a ≠ id) (addresses t)).

(** The presence checks of the two address endpoints, and the checks of
    [POST /api/customers/:id/addresses]. *)
Definition address_present (b : Body) : bool :=
  truthy (address_details b) && truthy (city b) && truthy (state b)
  && truthy (pin_code b).

(** The customer ids are a primary key and all below the sequence that
    generates them. *)
Definition keyed (w : World) : Prop :=
  primary_key (tables w)
  ∧ ∀ c, c ∈ customers (tables w) → c_id c < customers_id_seq w.

(** The customer rows of [w] come from those of [w0] by an update that
    keeps the ids, by a delete, or by the insert of a row with the next
    generated id. *)
Definition customers_step (w0 w : World) : Prop :=
  c_id <$> customers (tables w) = c_id <$> customers (tables w0)
  ∨ (∃ id, customers (tables w) = filter (λ c, c_id c ≠ id) (customers (tables w0)))
  ∨ (∃ fn ln ph,
       customers (tables w)
         = (customers (tables w0) ++ [mkCustomer (customers_id_seq w0) fn ln ph])%list
       ∧ customers_id_seq w0 < customers_id_seq w).

(** The handler answers 400 and leaves the whole world as it was. *)
Definition rejected (h : Async Response) (w : World) : Prop :=
  ∃ r, run h w = (Some r, w) ∧ status r = 400.

(** ** The requests that write *)

Inductive WriteRequest :=
  | PutCustomer (id : Z) (b : Body)
  | PostAddress (b : Body)
  | PutAddress (id : Z) (b : Body)
  | DeleteAddress (id : Z)
  | DeleteCustomer (id : Z)
  | PostCustomer (b : Body)
  | PostCustomerAddress (id : Z) (b : Body).

Definition handle_write (foreign_key : bool) (r : WriteRequest) : Async Response :=
  match r with
  | PutCustomer id b => put_customer foreign_key id b
  | PostAddress b => post_address foreign_key b
  | PutAddress id b => put_address id b
  | DeleteAddress id => delete_address id
  | DeleteCustomer id => delete_customer foreign_key id
  | PostCustomer b => post_customer foreign_key b
  | PostCustomerAddress id b => post_customer_address foreign_key id b
  end.

(** The two endpoints that only insert an address row. *)
Definition address_only (r : WriteRequest) : bool :=
  match r with
  | PostAddress _ | PostCustomerAddress _ _ => true
  | _ => false
  end.

(** ** Lists and searches *)

(** The address-count values the list and the count handlers treat alike:
    [single], [multiple], and an omitted or empty parameter. *)
Definition recognised (addressCount : option string) : Prop :=
  addressCount = Some "single" ∨ addressCount = Some "multiple"
  ∨ truthy addressCount = false.

(** What one row of a list or search response must look like: it shows an
    existing customer, its nested addresses are rows of that customer, and
    the nested sequence is empty for a customer without addresses. *)
Definition shows_customer (t : Tables) (v : CustomerView) : Prop :=
  (∃ c, c ∈ customers t ∧ v_id v = c_id c ∧ v_first_name v = c_first_name c
        ∧ v_last_name v = c_last_name c ∧ v_phone_number v = c_phone_number c)
  ∧ (∀ a, a ∈ v_addresses v → a ∈ addresses t ∧ a_customer_id a = v_id v)
  ∧ (¬ has_addresses (v_id v) t → v_addresses v = []).

(** One row per customer, most recent customer first. *)
Definition one_row_each (views : list CustomerView) : Prop :=
  NoDup (v_id <$> views) ∧ StronglySorted (λ x y, y ≤ x) (v_id <$> views).

Section Matching.

Variable ILIKE : string → string → bool.
Variable trim : string → string.

(** A customer matches a search term through one of its own columns or
    through a column of one of its addresses. *)
Definition customer_matches (term : string) (t : Tables) (c : Customer) : Prop :=
  customer_like ILIKE term c
  ∨ ∃ a, a ∈ addresses t ∧ a_customer_id a = c_id c ∧ address_like ILIKE term a.

(** The customers a list request asks for, when it has no address-count
    filter. *)
Definition listed (searchTerm : option string) (t : Tables) (c : Customer) : Prop :=
  if has_search trim searchTerm
  then customer_matches (pattern_of (trim (text searchTerm))) t c
  else True.

(** The rows of the join a list request groups. *)
Definition list_rows (searchTerm : option string) (t : Tables) : list JoinRow :=
  if has_search trim searchTerm
  then filter (search_condition ILIKE (pattern_of (trim (text searchTerm)))) (left_join t)
  else left_join t.

End Matching.

(** [ORDER BY c.id DESC] is a total preorder. *)
#[global] Instance id_desc_total {A} (key : A → Z) : Total (id_desc key).
Proof. intros x y. unfold id_desc. lia. Qed.

#[global] Instance id_desc_trans {A} (key : A → Z) : Transitive (id_desc key).
Proof. intros x y z. unfold id_desc. lia. Qed.

(** ** Sample data *)

Definition ann : Customer := mkCustomer 1 "Ann" "Lee" "1234567890".
Definition bob : Customer := mkCustomer 2 "Bob" "Ray" "1234567891".
Definition cy : Customer := mkCustomer 3 "Cy" "Poe" "1234567892".

Definition ann_paris : Address := mkAddress 1 1 "12 Main" "Paris" "FR" "750001".
Definition ann_rome : Address := mkAddress 2 1 "9 High" "Rome" "IT" "001001".
Definition bob_oslo : Address := mkAddress 3 2 "1 Low" "Oslo" "NO" "000100".

(** Three customers with two, one and no address; no store call fails. *)
Definition sample_world : World :=
  mkWorld (mkTables [ann; bob; cy] [ann_paris; ann_rome; bob_oslo]) None 4 4 0 [].

Definition empty_world : World := mkWorld (mkTables [] []) None 1 1 0 [].

(** The customer delete of [DELETE /api/customers/1] fails after the
    client was leased, the transaction begun and the addresses deleted. *)
Definition failing_world : World :=
  set_faults [None; None; None; Some "connection lost"] sample_world.

(** Ann again, with a full and valid address. *)
Definition ann_again : Body :=
  mkBody None (Some "Ann") (Some "Lee") (Some "1234567890")
         (Some "5 Quay") (Some "Lyon") (Some "FR") (Some "690001").

(** Ann again, with a pin code of two digits. *)
Definition ann_short_pin : Body :=
  mkBody None (Some "Ann") (Some "Lee") (Some "1234567890")
         (Some "5 Quay") (Some "Lyon") (Some "FR") (Some "12").

(** A new name and a full address, with a phone number of three digits. *)
Definition short_phone : Body :=
  mkBody None (Some "Dee") (Some "Fox") (Some "123")
         (Some "5 Quay") (Some "Lyon") (Some "FR") (Some "690001").

(** A valid name and phone, with a full and valid address. *)
Definition dee_full : Body :=
  mkBody None (Some "Dee") (Some "Fox") (Some "1234567899")
         (Some "5 Quay") (Some "Lyon") (Some "FR") (Some "690001").

(** A valid name and phone, address details but no city. *)
Definition dee_partial : Body :=
  mkBody None (Some "Dee") (Some "Fox") (Some "1234567899")
         (Some "5 Quay") None (Some "FR") (Some "690001").

(** An address for customer 1 with a pin code of two digits. *)
Definition address_short_pin : Body :=
  mkBody (Some 1) None None None
         (Some "5 Quay") (Some "Lyon") (Some "FR") (Some "12").

(** A full and valid address, for [POST /api/customers/:id/addresses]. *)
Definition address_full : Body :=
  mkBody None None None None
         (Some "5 Quay") (Some "Lyon") (Some "FR") (Some "690001").

(** * Further vocabulary *)

(** The requests that read. *)
Inductive ReadRequest :=
  | GetCustomersSearch (q : option string)
  | GetCustomer (id : Z)
  | GetCustomers (addressCount q : option string)
  | GetCustomersCount (addressCount q : option string)
  | GetCustomerAddresses (id : Z).

Definition handle_read (ILIKE : string → string → bool) (trim : string → string)
    (r : ReadRequest) : Async Response :=
  match r with
  | GetCustomersSearch q => get_customers_search trim q
  | GetCustomer id => get_customer id
  | GetCustomers addressCount q => get_customers ILIKE trim addressCount q
  | GetCustomersCount addressCount q => get_customers_count ILIKE trim addressCount q
  | GetCustomerAddresses id => get_customer_addresses id
  end.

(** Everything but the failure schedule is what it was. *)
Definition same_store (w w' : World) : Prop :=
  tables w' = tables w ∧ session w' = session w
  ∧ customers_id_seq w' = customers_id_seq w
  ∧ addresses_id_seq w' = addresses_id_seq w
  ∧ leased w' = leased w.

(** The envelope of a response: a success carries no error body, an error
    carries one. *)
Definition is_error (j : Json) : bool :=
  match j with
  | JError _ _ => true
  | _ => false
  end.

Definition well_formed_response (r : Response) : Prop :=
  (status r = 200 ∨ status r = 201) ∧ is_error (json r) = false
  ∨ (status r = 400 ∨ status r = 404 ∨ status r = 409 ∨ status r = 500)
    ∧ is_error (json r) = true.

(** The row [UPDATE addresses SET ... WHERE id = $5] leaves in place of
    row [a]. *)
Definition replaced (ad ci st pin : string) (id : Z) (a : Address) : Address :=
  if decide (a_id a = id) then mkAddress (a_id a) (a_customer_id a) ad ci st pin else a.

Definition address_not_found : Response :=
  res_status_json 404 (JError "Address not found." None).

Definition address_deleted : Response :=
  res_json (JMessage "Address deleted successfully.").

(** A request that failed: the response carries an error body, or the
    handler's promise was rejected and it sent none. *)
Definition failed (o : option Response) : Prop :=
  match o with
  | Some r => is_error (json r) = true
  | None => True
  end.

(** The row [UPDATE customers SET ... WHERE id = $4] leaves in place of
    row [c]. *)
Definition renamed (fn ln ph : string) (id : Z) (c : Customer) : Customer :=
  if decide (c_id c = id) then mkCustomer (c_id c) fn ln ph else c.

(** The customer row and the address row a payload describes. *)
Definition customer_of (id : Z) (b : Body) : Customer :=
  mkCustomer id (text (first_name b)) (text (last_name b)) (text (phone_number b)).

Definition address_of (id cid : Z) (b : Body) : Address :=
  mkAddress id cid (text (address_details b)) (text (city b)) (text (state b))
            (text (pin_code b)).

Definition customer_created (id : Z) : Response :=
  res_status_json 201 (JCreated "Customer and address created successfully." id).

Definition customer_updated (b : Body) : Response :=
  res_json (JMessage (if truthy (address_details b)
                      then "Customer and address updated successfully."
                      else "Customer updated successfully.")).

(** The address ids are a primary key and all below the sequence that
    generates them. *)
Definition address_keyed (w : World) : Prop :=
  NoDup (a_id <$> addresses (tables w))
  ∧ ∀ a, a ∈ addresses (tables w) → a_id a < addresses_id_seq w.

(** The address rows of [w] come from those of [w0] by an update that
    keeps the ids, by a delete, or by the insert of a row with the next
    generated id. *)
Definition addresses_step (w0 w : World) : Prop :=
  a_id <$> addresses (tables w) = a_id <$> addresses (tables w0)
  ∨ (∃ P : Address → Prop, ∃ _ : ∀ a, Decision (P a),
       addresses (tables w) = filter P (addresses (tables w0)))
  ∨ (∃ row, addresses (tables w) = (addresses (tables w0) ++ [row])%list
            ∧ a_id row = addresses_id_seq w0
            ∧ addresses_id_seq w0 < addresses_id_seq w).

(** What the checks of the write handlers guarantee of a stored row:
    names and address fields that are not empty, a phone number of ten
    digits. *)
Definition valid_customer (c : Customer) : Prop :=
  c_first_name c ≠ EmptyString ∧ c_last_name c ≠ EmptyString
  ∧ test_digits 10 (Some (c_phone_number c)) = true.

Definition valid_address (a : Address) : Prop :=
  a_address_details a ≠ EmptyString ∧ a_city a ≠ EmptyString
  ∧ a_state a ≠ EmptyString ∧ a_pin_code a ≠ EmptyString.

Definition validated (t : Tables) : Prop :=
  Forall valid_customer (customers t) ∧ Forall valid_address (addresses t).

(** The requests that insert ([POST]) and the requests whose handler
    leases a client for a transaction. *)
Definition creates (r : WriteRequest) : bool :=
  match r with
  | PostAddress _ | PostCustomer _ | PostCustomerAddress _ _ => true
  | _ => false
  end.

Definition leases (r : WriteRequest) : bool :=
  match r with
  | PutCustomer _ _ | DeleteCustomer _ | PostCustomer _ => true
  | _ => false
  end.

(** The checks a write handler makes before it calls the store. *)
Definition passes_checks (r : WriteRequest) : bool :=
  match r with
  | PutCustomer _ b => update_valid b
  | PostAddress b => truthy_num (customer_id b) && address_present b
  | PutAddress _ b => address_present b
  | DeleteAddress _ | DeleteCustomer _ => true
  | PostCustomer b => create_valid b
  | PostCustomerAddress _ b => address_present b && test_digits 6 (pin_code b)
  end.

(** ** Further sample data *)

(** The address insert of [POST /api/customers] fails, after the client
    was leased, the transaction begun, the duplicate check made and the
    customer row inserted. *)
Definition lost_insert_world : World :=
  set_faults [None; None; None; None; Some "connection lost"] sample_world.

(** No client can be leased. *)
Definition exhausted_world : World :=
  set_faults [Some "pool exhausted"] sample_world.

(** A new last name for Ann, with no address. *)
Definition ann_renamed : Body :=
  mkBody None (Some "Ann") (Some "Roe") (Some "1234567890")
         None None None None.

(** A full address for customer 2, for [POST /api/addresses]. *)
Definition address_for_bob : Body :=
  mkBody (Some 2) None None None
         (Some "5 Quay") (Some "Lyon") (Some "FR") (Some "690001").

(** A full address for customer 9, who does not exist. *)
Definition address_for_nobody : Body :=
  mkBody (Some 9) None None None
         (Some "5 Quay") (Some "Lyon") (Some "FR") (Some "690001").

(** * The routes

    [app.put], [app.post], [app.delete] and [app.get] register the twelve
    handlers in the order of the file.  Express's router gives a request
    to the first registered route whose method and path match, and a
    handler that answers never passes the request on.  A path is the list
    of its segments, a trailing slash dropped; with the default settings
    of the application a literal segment matches without regard to case
    and a parameter matches any segment that is not empty. *)

Inductive Method := GET | POST | PUT | DELETE.

#[global] Instance Method_eq_dec : EqDecision Method.
Proof. solve_decision. Defined.

Inductive Segment :=
  | Lit (s : string)
  | Param (name : string).

Inductive Endpoint :=
  | EPutCustomer
  | EPostAddress
  | EPutAddress
  | EDeleteAddress
  | EDeleteCustomer
  | ESearch
  | EGetCustomer
  | EGetCustomers
  | ECount
  | EPostCustomer
  | EGetCustomerAddresses
  | EPostCustomerAddress.

#[global] Instance Endpoint_eq_dec : EqDecision Endpoint.
Proof. solve_decision. Defined.

Definition routes : list (Method * list Segment * Endpoint) :=
  [ (PUT, [Lit "api"; Lit "customers"; Param "id"], EPutCustomer);
    (POST, [Lit "api"; Lit "addresses"], EPostAddress);
    (PUT, [Lit "api"; Lit "addresses"; Param "id"], EPutAddress);
    (DELETE, [Lit "api"; Lit "addresses"; Param "id"], EDeleteAddress);
    (DELETE, [Lit "api"; Lit "customers"; Param "id"], EDeleteCustomer);
    (GET, [Lit "api"; Lit "customers"; Lit "search"], ESearch);
    (GET, [Lit "api"; Lit "customers"; Param "id"], EGetCustomer);
    (GET, [Lit "api"; Lit "customers"], EGetCustomers);
    (GET, [Lit "api"; Lit "customers"; Lit "count"], ECount);
    (POST, [Lit "api"; Lit "customers"], EPostCustomer);
    (GET, [Lit "api"; Lit "customers"; Param "id"; Lit "addresses"],
     EGetCustomerAddresses);
    (POST, [Lit "api"; Lit "customers"; Param "id"; Lit "addresses"],
     EPostCustomerAddress) ].

(** Two segments that differ at most in the case of their letters. *)
Fixpoint same_text (s t : string) : bool :=
  match s, t with
  | EmptyString, EmptyString => true
  | String c s', String d t' => same_letter c d && same_text s' t'
  | _, _ => false
  end.

(** The values of the parameters, when the path matches the pattern. *)
Fixpoint match_path (pattern : list Segment) (path : list string) : option (list string) :=
  match pattern, path with
  | [], [] => Some []
  | Lit s :: pattern', segment :: path' =>
    if same_text s segment then match_path pattern' path' else None
  | Param _ :: pattern', segment :: path' =>
    if truthy (Some segment)
    then cons segment <$> match_path pattern' path'
    else None
  | _, _ => None
  end.

Definition route_matches (m : Method) (path : list string)
    (route : Method * list Segment * Endpoint) : option (Endpoint * list string) :=
  if decide (route.1.1 = m)
  then pair route.2 <$> match_path route.1.2 path
  else None.

(** The endpoint that handles a request and the values of its path
    parameters: the first route that matches. *)
Definition dispatch (m : Method) (path : list string) : option (Endpoint * list string) :=
  head (omap (route_matches m path) routes).

Arguments same_text : simpl never.
Arguments route_matches : simpl never.

(** * Requests

    What a [GET] request is answered with: the router gives it to a
    handler, and the handler reads [req.params.id],
    [req.query.addressCount] and [req.query.q]. *)

Section Serving.

Variable ILIKE : string → string → bool.
Variable trim : string → string.

(** How the store reads the text of a path parameter as an id.  The
    schema is not among the sources; the ids of the rows are integers,
    and [None] stands for a text the store does not read as one, such as
    [count]. *)
Variable id_of : string → option Z.

(** A handler with an id in its path.  A text the store does not read as
    an id makes the statement that carries it fail; in the two [GET]
    handlers with an id that statement is the first store call, and the
    id is used nowhere else. *)
Definition with_id (s : string) (h : Z → Async Response) : Async Response :=
  match id_of s with
  | Some id => h id
  | None =>
    λ w, h 0 (set_faults (Some "invalid input syntax for type integer" :: faults w) w)
  end.

(** The handler a [GET] request runs, if a route matches. *)
Definition serve_get (path : list string) (addressCount q : option string)
    : option (Async Response) :=
  match dispatch GET path with
  | Some (ESearch, _) => Some (get_customers_search trim q)
  | Some (EGetCustomer, [s]) => Some (with_id s get_customer)
  | Some (EGetCustomers, _) => Some (get_customers ILIKE trim addressCount q)
  | Some (ECount, _) => Some (get_customers_count ILIKE trim addressCount q)
  | Some (EGetCustomerAddresses, [s]) => Some (with_id s get_customer_addresses)
  | _ => None
  end.

End Serving.

(** A reader of ids for the samples: a text of decimal digits is its
    number, any other text is refused. *)
Fixpoint digits_value (acc : Z) (s : string) : Z :=
  match s with
  | EmptyString => acc
  | String c s' => digits_value (10 * acc + Z.of_nat (nat_of_ascii c) - 48) s'
  end.

Definition decimal_id (s : string) : option Z :=
  if truthy (Some s) && all_digits s then Some (digits_value 0 s) else None.

(** * The schema *)

(** Modelled from the spec: the [customer_id] of an address is a foreign
    reference to a customer (data model), which the store enforces. *)
Definition schema_foreign_key : bool := true.

(** * Reasoning about handlers *)

(** ** Weakest preconditions *)

Lemma wp_ret {A} (a : A) Q E w : Q a w → wp (ret a) Q E w.
Proof. intros H. exact H. Qed.

Lemma wp_throw {A} e (Q : A → World → Prop) E w : E e w → wp (throw e) Q E w.
Proof. intros H. exact H. Qed.

Lemma wp_bind {A B} (m : Async A) (k : A → Async B) Q E w :
  wp m (λ a, wp (k a) Q E) E w → wp (bind m k) Q E w.
Proof. unfold wp, bind. by destruct (m w) as [[a|e] w1]. Qed.

Lemma wp_try_catch {A} (body : Async A) handler Q E w :
  wp body Q (λ e, wp (handler e) Q E) w → wp (try_catch body handler) Q E w.
Proof. unfold wp, try_catch. by destruct (body w) as [[a|e] w1]. Qed.

Lemma wp_try_catch_finally {A} (body : Async A) handler finalizer Q E w :
  wp body (λ a, wp finalizer (λ _, Q a) E)
     (λ e, wp (handler e) (λ a, wp finalizer (λ _, Q a) E)
                          (λ e', wp finalizer (λ _, E e') E)) w →
  wp (try_catch_finally body handler finalizer) Q E w.
Proof.
  unfold wp, try_catch_finally, try_catch.
  destruct (body w) as [[a|e] w1]; simpl.
  - by destruct (finalizer w1) as [[[]|e'] w2].
  - destruct (handler e w1) as [[a|e'] w2]; simpl;
      by destruct (finalizer w2) as [[[]|e''] w3].
Qed.

Lemma wp_mono {A} (m : Async A) (Q Q' : A → World → Prop) (E E' : string → World → Prop) w :
  (∀ a w', Q a w' → Q' a w') → (∀ e w', E e w' → E' e w') →
  wp m Q E w → wp m Q' E' w.
Proof. unfold wp. destruct (m w) as [[a|e] w1]; eauto. Qed.

Lemma wp_run (h : Async Response) (P : option Response * World → Prop) w :
  wp h (λ r w', P (Some r, w')) (λ _ w', P (None, w')) w → P (run h w).
Proof. unfold wp, run. by destruct (h w) as [[a|e] w1]. Qed.

(** The store calls. *)

Lemma wp_pop_fault Q E w :
  match faults w with
  | [] => Q tt w
  | None :: fs => Q tt (set_faults fs w)
  | Some m :: fs => E m (set_faults fs w)
  end → wp pop_fault Q E w.
Proof. unfold wp, pop_fault. by destruct (faults w) as [|[m|] fs]. Qed.

Lemma wp_pop_fault_calm Q E w :
  calm w → (∀ fs, Forall (λ f, f = None) fs → Q tt (set_faults fs w)) →
  wp pop_fault Q E w.
Proof.
  unfold calm. intros Hc HQ. apply wp_pop_fault.
  destruct w as [t s cs a_s l fs]; simpl in *.
  destruct Hc as [|f fs Hf Hfs]; [by apply (HQ [])|].
  subst f. by apply HQ.
Qed.

Lemma wp_apply_statement {R} c (stmt : Statement R) Q E w :
  match stmt (visible c w) with
  | Returned (r, t') => Q r (write_back c t' w)
  | Thrown e => E e w
  end → wp (apply_statement c stmt) Q E w.
Proof. unfold wp, apply_statement. by destruct (stmt (visible c w)) as [[r t']|e]. Qed.

Lemma wp_update {A} (g : World → A) (f : World → World) Q E w :
  Q (g w) (f w) → wp (λ w, (Returned (g w), f w)) Q E w.
Proof. intros H. exact H. Qed.

(** One step of symbolic execution of a handler. *)
Ltac wp_step :=
  lazymatch goal with
  | |- wp (bind _ _) _ _ _ => apply wp_bind
  | |- wp (ret _) _ _ _ => apply wp_ret
  | |- wp (throw _) _ _ _ => apply wp_throw
  | |- wp (try_catch_finally _ _ _) _ _ _ => apply wp_try_catch_finally
  | |- wp (try_catch _ _) _ _ _ => apply wp_try_catch
  | |- wp (query _ _) _ _ _ => unfold query
  | |- wp (insert_address _ _ _ _ _ _ _) _ _ _ => unfold insert_address
  | |- wp (insert_customer _ _ _ _) _ _ _ => unfold insert_customer
  | |- wp (apply_statement _ _) _ _ _ => apply wp_apply_statement
  | |- wp getClient _ _ _ => unfold getClient
  | |- wp release _ _ _ => unfold release; apply wp_update
  | |- wp BEGIN _ _ _ => unfold BEGIN
  | |- wp COMMIT _ _ _ => unfold COMMIT
  | |- wp ROLLBACK _ _ _ => unfold ROLLBACK
  | |- wp nextval_customers _ _ _ => unfold nextval_customers; apply wp_update
  | |- wp nextval_addresses _ _ _ => unfold nextval_addresses; apply wp_update
  | |- wp (first_row _) _ _ _ => unfold first_row
  | |- wp (λ _, (Returned _, _)) _ _ _ => apply wp_update
  end.

(** A store call that may fail: the three shapes of the failure schedule. *)
Ltac wp_fault :=
  lazymatch goal with
  | |- wp pop_fault _ _ _ =>
    apply wp_pop_fault; simpl;
    try lazymatch goal with
        | |- match ?l with _ => _ end =>
          let fs := fresh "fs" in let m := fresh "m" in
          destruct l as [|[m|] fs]; simpl
        end
  end.

(** A branch of the handler or of a statement. *)
Ltac wp_case :=
  lazymatch goal with
  | |- wp (if ?c then _ else _) _ _ _ => destruct c eqn:?
  | |- wp (match ?l with [] => _ | _ => _ end) _ _ _ => destruct l eqn:?
  | |- match (if ?c then _ else _) with _ => _ end => destruct c eqn:?
  end.

(** A store call in a calm world. *)
Ltac wp_calm :=
  lazymatch goal with
  | |- wp pop_fault _ _ ?w =>
    apply wp_pop_fault_calm;
    [ unfold calm in *; simpl; assumption
    | let fs := fresh "fs" in let H := fresh "Hcalm" in intros fs H; simpl ]
  end.

(** ** The pool lease *)

Create HintDb lease discriminated.

Lemma keeps_ret {A} (a : A) : keeps_lease (ret a).
Proof. by intros w. Qed.

Lemma keeps_throw {A} e : keeps_lease (@throw A e).
Proof. by intros w. Qed.

Lemma keeps_bind {A B} (m : Async A) (k : A → Async B) :
  keeps_lease m → (∀ a, keeps_lease (k a)) → keeps_lease (bind m k).
Proof.
  intros Hm Hk w. unfold bind. specialize (Hm w).
  destruct (m w) as [[a|e] w1]; simpl in *; [|done].
  by rewrite Hk.
Qed.

Lemma keeps_try_catch {A} (body : Async A) handler :
  keeps_lease body → (∀ e, keeps_lease (handler e)) →
  keeps_lease (try_catch body handler).
Proof.
  intros Hb Hh w. unfold try_catch. specialize (Hb w).
  destruct (body w) as [[a|e] w1]; simpl in *; [done|].
  by rewrite Hh.
Qed.

Lemma keeps_pop_fault : keeps_lease pop_fault.
Proof. intros w. unfold pop_fault. by destruct (faults w) as [|[m|] fs]. Qed.

Lemma keeps_apply_statement {R} c (stmt : Statement R) :
  keeps_lease (apply_statement c stmt).
Proof.
  intros w. unfold apply_statement.
  destruct (stmt (visible c w)) as [[r t']|e]; [|done].
  unfold write_back. by destruct c, (session w).
Qed.

Lemma keeps_session_update (f : World → option Tables) :
  keeps_lease (λ w, (Returned tt, set_session (f w) w)).
Proof. by intros w. Qed.

Lemma keeps_nextval_customers : keeps_lease nextval_customers.
Proof. by intros w. Qed.

Lemma keeps_nextval_addresses : keeps_lease nextval_addresses.
Proof. by intros w. Qed.

Lemma keeps_first_row {A} (rows : list A) : keeps_lease (first_row rows).
Proof. by destruct rows. Qed.

#[local] Hint Resolve keeps_ret keeps_throw keeps_bind keeps_try_catch
  keeps_pop_fault keeps_apply_statement keeps_nextval_customers
  keeps_nextval_addresses keeps_first_row : lease.

Lemma keeps_query {R} c (stmt : Statement R) : keeps_lease (query c stmt).
Proof. unfold query. auto with lease. Qed.

Lemma keeps_BEGIN : keeps_lease BEGIN.
Proof.
  unfold BEGIN. apply keeps_bind; [auto with lease|].
  intros _ w. simpl. by destruct (session w).
Qed.

Lemma keeps_COMMIT : keeps_lease COMMIT.
Proof.
  unfold COMMIT. apply keeps_bind; [auto with lease|].
  intros _ w. simpl. by destruct (session w).
Qed.

Lemma keeps_ROLLBACK : keeps_lease ROLLBACK.
Proof. unfold ROLLBACK. apply keeps_bind; [auto with lease|]. by intros _ w. Qed.

Lemma keeps_insert_address fk c cid ad ci st pin :
  keeps_lease (insert_address fk c cid ad ci st pin).
Proof. unfold insert_address. auto 6 with lease. Qed.

Lemma keeps_insert_customer c fn ln ph :
  keeps_lease (insert_customer c fn ln ph).
Proof. unfold insert_customer. auto 6 with lease. Qed.

#[local] Hint Resolve keeps_query keeps_BEGIN keeps_COMMIT keeps_ROLLBACK
  keeps_insert_address keeps_insert_customer : lease.

Ltac keep_lease :=
  repeat (intros;
          lazymatch goal with
          | |- keeps_lease (bind _ _) => apply keeps_bind
          | |- keeps_lease (try_catch _ _) => apply keeps_try_catch
          | |- keeps_lease (if ?c then _ else _) => destruct c
          | |- keeps_lease (match ?l with [] => _ | _ => _ end) => destruct l
          | |- keeps_lease _ => solve [auto with lease]
          end).

(** Lease a client, run a body under [try]/[catch]/[finally] and release
    in the [finally] block: the lease is returned however the body and
    the handler end, and nothing is leased when [getClient] fails. *)
Lemma lease_bracket {A} (body : Conn → Async A) handler :
  (∀ c, keeps_lease (body c)) → (∀ c e, keeps_lease (handler c e)) →
  keeps_lease (c <~ getClient ;;
               try_catch_finally (body c) (handler c) release).
Proof.
  intros Hb Hh w. unfold bind at 1, getClient, bind at 1.
  pose proof (keeps_pop_fault w) as Hp.
  destruct (pop_fault w) as [[[]|e] w1]; simpl in *; [|done].
  unfold try_catch_finally.
  set (w2 := set_session None (set_leased (leased w1 + 1) w1)).
  pose proof (keeps_try_catch (body client) (handler client) (Hb client) (Hh client) w2) as Ht.
  destruct (try_catch (body client) (handler client) w2) as [r w3].
  simpl in *. lia.
Qed.

Section Lease.
Variable foreign_key : bool.

Lemma put_customer_keeps_lease id b : keeps_lease (put_customer foreign_key id b).
Proof.
  unfold put_customer.
  do 2 (case_match; [auto with lease|]).
  apply (lease_bracket (λ c, _) (λ c e, _)); keep_lease.
Qed.

Lemma post_customer_keeps_lease b : keeps_lease (post_customer foreign_key b).
Proof.
  unfold post_customer.
  do 3 (case_match; [auto with lease|]).
  apply (lease_bracket (λ c, _) (λ c e, _)); keep_lease.
Qed.

Lemma delete_customer_keeps_lease id : keeps_lease (delete_customer foreign_key id).
Proof.
  unfold delete_customer.
  apply (lease_bracket (λ c, _) (λ c e, _)); keep_lease.
Qed.
End Lease.

(** ** Create, update and delete customer *)

Lemma duplicate_rowCount b t :
  duplicate_of b t →
  (0 <? rowCount (c_id <$> filter (same_triple (text (first_name b))
                     (text (last_name b)) (text (phone_number b))) (customers t))) = true.
Proof.
  intros (c & Hc & Hf & Hl & Hp). rewrite Hf, Hl, Hp. simpl.
  apply Z.ltb_lt. unfold rowCount. rewrite length_fmap.
  assert (c ∈ filter (same_triple (c_first_name c) (c_last_name c)
                        (c_phone_number c)) (customers t)) as Hin.
  { apply list_elem_of_filter. by split. }
  destruct (filter _ _); [by apply elem_of_nil in Hin|]. simpl. lia.
Qed.

Lemma rowCount_zero {A} (rows : list A) : (rowCount rows =? 0) = true ↔ rows = [].
Proof.
  unfold rowCount. rewrite Z.eqb_eq. destruct rows; simpl; [done|].
  split; [lia|done].
Qed.

Lemma updated_rows_none fn ln ph id cs :
  id ∉ c_id <$> cs →
  filter (λ c, c_id c = id)
    ((λ c, if decide (c_id c = id) then mkCustomer (c_id c) fn ln ph else c) <$> cs) = [].
Proof.
  induction cs as [|c cs IH]; [done|].
  rewrite fmap_cons, not_elem_of_cons. intros [Hne Hnin]. simpl.
  rewrite decide_False by done. rewrite filter_cons_False by done. by apply IH.
Qed.

Lemma updated_rows_some fn ln ph id cs :
  id ∈ c_id <$> cs →
  filter (λ c, c_id c = id)
    ((λ c, if decide (c_id c = id) then mkCustomer (c_id c) fn ln ph else c) <$> cs) ≠ [].
Proof.
  intros (c & -> & Hc)%list_elem_of_fmap Hnil.
  assert (mkCustomer (c_id c) fn ln ph ∈ @nil Customer) as Hin; [|by apply elem_of_nil in Hin].
  rewrite <- Hnil. apply list_elem_of_filter. split; [done|].
  apply list_elem_of_fmap. exists c. by rewrite decide_True.
Qed.

Lemma post_customer_duplicate_unchanged fk b w :
  duplicate_of b (tables w) →
  wp (post_customer fk b) (λ _ w', unchanged w w') (λ _ w', unchanged w w') w.
Proof.
  intros Hdup. apply duplicate_rowCount in Hdup.
  unfold post_customer.
  do 3 (case_match; [by apply wp_ret|]).
  destruct w as [t s cs a_s l fs]; simpl in *.
  repeat (first [wp_step | wp_fault | rewrite Hdup]; simpl); done.
Qed.

Lemma post_customer_duplicate_conflict fk b w :
  duplicate_of b (tables w) → create_valid b = true → calm w →
  wp (post_customer fk b) (λ r _, r = conflict_response) (λ _ _, False) w.
Proof.
  intros Hdup Hv Hc. apply duplicate_rowCount in Hdup.
  unfold create_valid in Hv. repeat (apply andb_prop in Hv as [Hv ?]).
  unfold post_customer.
  repeat match goal with H : _ = true |- _ => rewrite H; clear H end. simpl.
  repeat (first [wp_step | wp_calm | rewrite Hdup]; simpl). done.
Qed.

Lemma put_customer_missing_unchanged fk id b w :
  ¬ customer_exists id (tables w) →
  wp (put_customer fk id b) (λ _ w', unchanged w w') (λ _ w', unchanged w w') w.
Proof.
  intros Hno. unfold put_customer.
  do 2 (case_match; [by apply wp_ret|]).
  destruct w as [t s cs a_s l fs]; simpl in *.
  pose proof (updated_rows_none (text (first_name b)) (text (last_name b))
                (text (phone_number b)) id (customers t) Hno) as Hrows.
  repeat (first [wp_step | wp_fault | rewrite Hrows]; simpl); done.
Qed.

Lemma put_customer_missing_not_found fk id b w :
  ¬ customer_exists id (tables w) → update_valid b = true → calm w →
  wp (put_customer fk id b) (λ r _, r = customer_not_found) (λ _ _, False) w.
Proof.
  intros Hno Hv Hc.
  unfold update_valid in Hv. repeat (apply andb_prop in Hv as [Hv ?]).
  unfold put_customer.
  repeat match goal with H : _ = true |- _ => rewrite H; clear H end. simpl.
  pose proof (updated_rows_none (text (first_name b)) (text (last_name b))
                (text (phone_number b)) id (customers (tables w)) Hno) as Hrows.
  repeat (first [wp_step | wp_calm | rewrite Hrows]; simpl). done.
Qed.

Lemma rowCount_nonzero {A} (rows : list A) : rows ≠ [] → (rowCount rows =? 0) = false.
Proof.
  intros Hne. destruct (rowCount rows =? 0) eqn:Hz; [|done].
  by apply rowCount_zero in Hz.
Qed.

Lemma put_customer_partial_address_no_insert fk id b w :
  truthy (address_details b) = true →
  truthy (city b) && truthy (state b) && truthy (pin_code b) = false →
  wp (put_customer fk id b)
     (λ _ w', addresses (tables w') = addresses (tables w)
              ∧ addresses_id_seq w' = addresses_id_seq w)
     (λ _ w', addresses (tables w') = addresses (tables w)
              ∧ addresses_id_seq w' = addresses_id_seq w) w.
Proof.
  intros Had Hrest. unfold put_customer.
  do 2 (case_match; [by apply wp_ret|]).
  rewrite Had. simpl. rewrite Hrest.
  destruct w as [t s cs a_s l fs]; simpl in *.
  repeat (first [wp_step | wp_fault | wp_case]; simpl); done.
Qed.

Lemma put_customer_partial_address_message fk id b w :
  truthy (address_details b) = true →
  truthy (city b) && truthy (state b) && truthy (pin_code b) = false →
  update_valid b = true → customer_exists id (tables w) → calm w →
  wp (put_customer fk id b) (λ r _, r = updated_with_address) (λ _ _, False) w.
Proof.
  intros Had Hrest Hv Hex Hc.
  unfold update_valid in Hv. repeat (apply andb_prop in Hv as [Hv ?]).
  unfold put_customer.
  repeat match goal with H : _ = true |- _ => rewrite H; clear H end. simpl.
  rewrite Hrest.
  pose proof (rowCount_nonzero _ (updated_rows_some (text (first_name b))
                (text (last_name b)) (text (phone_number b)) id
                (customers (tables w)) Hex)) as Hrows.
  repeat (first [wp_step | wp_calm | rewrite Hrows]; simpl). done.
Qed.

Lemma no_addresses_after_delete id cs rows :
  bool_decide (has_addresses id
                 (mkTables cs (filter (λ a, a_customer_id a ≠ id) rows))) = false.
Proof.
  apply bool_decide_eq_false. unfold has_addresses. simpl.
  intros (a & Ha & [Hne _]%list_elem_of_filter)%list_elem_of_fmap. done.
Qed.

Lemma selected_rows_empty id (cs : list Customer) :
  filter (λ c, c_id c = id) cs = [] ↔ id ∉ c_id <$> cs.
Proof.
  split.
  - intros Hnil (c & -> & Hc)%list_elem_of_fmap.
    assert (c ∈ @nil Customer) as Hin; [|by apply elem_of_nil in Hin].
    rewrite <- Hnil. by apply list_elem_of_filter.
  - intros Hno. destruct (filter _ cs) as [|c rest] eqn:Hf; [done|].
    assert (c ∈ filter (λ c, c_id c = id) cs) as [Hid Hc]%list_elem_of_filter
      by (rewrite Hf; left).
    destruct Hno. apply list_elem_of_fmap. by exists c.
Qed.

(** All or nothing, whatever the store calls do. *)
Lemma delete_customer_all_or_nothing fk id w :
  wp (delete_customer fk id)
     (λ r w', tables w' = tables w ∧ r ≠ customer_deleted
              ∨ tables w' = cascade id (tables w) ∧ r = customer_deleted
                ∧ customer_exists id (tables w))
     (λ _ w', tables w' = tables w) w.
Proof.
  unfold delete_customer.
  destruct w as [t s cs a_s l fs]; simpl in *.
  repeat (first [wp_step | wp_fault | progress unfold sql_delete_customer | rewrite no_addresses_after_delete, andb_false_r]; simpl);
    try done; try (by left).
  all: match goal with
       | |- context [rowCount ?r =? 0] => destruct (rowCount r =? 0) eqn:Hrows
       end;
    repeat (first [wp_step | wp_fault]; simpl); try done; try (by left).
  all: right; split_and!; try done.
  all: unfold customer_exists; simpl.
  all: destruct (decide (id ∈ c_id <$> customers t)) as [|Hno]; [done|].
  all: apply selected_rows_empty in Hno; rewrite Hno in Hrows; done.
Qed.

Lemma delete_customer_success fk id w :
  customer_exists id (tables w) → calm w →
  wp (delete_customer fk id)
     (λ r w', r = customer_deleted ∧ tables w' = cascade id (tables w))
     (λ _ _, False) w.
Proof.
  intros Hex Hc. unfold delete_customer.
  assert ((rowCount (filter (λ c, c_id c = id) (customers (tables w))) =? 0) = false) as Hrows.
  { apply rowCount_nonzero. intros Hnil%selected_rows_empty. by apply Hnil. }
  repeat (first [wp_step | wp_calm
                | progress unfold sql_delete_customer
                | rewrite no_addresses_after_delete, andb_false_r
                | rewrite Hrows]; simpl).
  done.
Qed.

Lemma delete_customer_missing fk id w :
  ¬ customer_exists id (tables w) → calm w →
  wp (delete_customer fk id)
     (λ r w', r = customer_not_found ∧ tables w' = tables w)
     (λ _ _, False) w.
Proof.
  intros Hno Hc. unfold delete_customer.
  apply selected_rows_empty in Hno.
  repeat (first [wp_step | wp_calm
                | progress unfold sql_delete_customer
                | rewrite no_addresses_after_delete, andb_false_r
                | rewrite Hno]; simpl).
  done.
Qed.

(** The store fails on the customer delete, after the addresses were
    deleted in the transaction. *)
Lemma delete_customer_forced_failure fk id w m fs :
  faults w = None :: None :: None :: Some m :: fs →
  wp (delete_customer fk id)
     (λ r w', r = res_status_json 500 (JError m None) ∧ tables w' = tables w)
     (λ _ w', tables w' = tables w) w.
Proof.
  intros Hf. unfold delete_customer.
  destruct w as [t s cs a_s l fs0]; simpl in *. subst fs0.
  repeat (first [wp_step | wp_fault]; simpl); done.
Qed.

(** A response is sent only once the transaction is closed, by the
    [COMMIT] or by a [ROLLBACK]. *)
Lemma delete_customer_closes fk id w :
  wp (delete_customer fk id) (λ _ w', session w' = None) (λ _ _, True) w.
Proof.
  unfold delete_customer.
  destruct w as [t s cs a_s l fs]; simpl in *.
  repeat (first [wp_step | wp_fault | progress unfold sql_delete_customer
                | rewrite no_addresses_after_delete, andb_false_r]; simpl);
    try done.
  all: match goal with
       | |- context [rowCount ?r =? 0] => destruct (rowCount r =? 0) eqn:Hrows
       end;
    repeat (first [wp_step | wp_fault]; simpl); done.
Qed.

(** ** Referential integrity of the address rows *)

Lemma referential_update_customer fn ln ph id t :
  referential t →
  referential (mkTables
    ((λ c, if decide (c_id c = id) then mkCustomer (c_id c) fn ln ph else c) <$> customers t)
    (addresses t)).
Proof.
  unfold referential, customer_exists. simpl. intros Hr a Ha.
  rewrite <- list_fmap_compose.
  specialize (Hr a Ha). apply list_elem_of_fmap in Hr as (c & -> & Hc).
  apply list_elem_of_fmap. exists c. split; [|done].
  simpl. by destruct (decide (c_id c = id)).
Qed.

Lemma referential_insert_address row t :
  referential t → customer_exists (a_customer_id row) t →
  referential (mkTables (customers t) (addresses t ++ [row])).
Proof.
  unfold referential, customer_exists. simpl. intros Hr Hex a.
  rewrite elem_of_app, list_elem_of_singleton. intros [Ha| ->]; auto.
Qed.

Lemma referential_update_address ad ci st pin id t :
  referential t →
  referential (mkTables (customers t)
    ((λ a, if decide (a_id a = id)
           then mkAddress (a_id a) (a_customer_id a) ad ci st pin else a) <$> addresses t)).
Proof.
  unfold referential, customer_exists. simpl.
  intros Hr a' (a & -> & Ha)%list_elem_of_fmap.
  specialize (Hr a Ha). by destruct (decide (a_id a = id)).
Qed.

Lemma referential_filter_addresses (P : Address → Prop) `{∀ a, Decision (P a)} t :
  referential t → referential (mkTables (customers t) (filter P (addresses t))).
Proof.
  unfold referential, customer_exists. simpl.
  intros Hr a [_ Ha]%list_elem_of_filter. auto.
Qed.

Lemma referential_cascade id t : referential t → referential (cascade id t).
Proof.
  unfold referential, customer_exists, cascade. simpl.
  intros Hr a [Hne Ha]%list_elem_of_filter.
  specialize (Hr a Ha). apply list_elem_of_fmap in Hr as (c & Hid & Hc).
  apply list_elem_of_fmap. exists c. split; [done|].
  apply list_elem_of_filter. split; [congruence|done].
Qed.

Lemma referential_insert_customer c t :
  referential t → referential (mkTables (customers t ++ [c]) (addresses t)).
Proof.
  unfold referential, customer_exists. simpl. intros Hr a Ha.
  rewrite fmap_app, elem_of_app. left. auto.
Qed.

Lemma referential_new_customer c row t :
  referential t → a_customer_id row = c_id c →
  referential (mkTables (customers t ++ [c]) (addresses t ++ [row])).
Proof.
  intros Hr Hid.
  apply (referential_insert_address row (mkTables (customers t ++ [c]) (addresses t))).
  - by apply referential_insert_customer.
  - unfold customer_exists. simpl. rewrite Hid, fmap_app, elem_of_app. right. left.
Qed.

Lemma updated_customer_exists fn ln ph id t :
  (rowCount (filter (λ c, c_id c = id)
     ((λ c, if decide (c_id c = id) then mkCustomer (c_id c) fn ln ph else c)
        <$> customers t)) =? 0) = false →
  customer_exists id (mkTables
     ((λ c, if decide (c_id c = id) then mkCustomer (c_id c) fn ln ph else c)
        <$> customers t) (addresses t)).
Proof.
  intros Hrows. unfold customer_exists. simpl.
  destruct (decide (id ∈ c_id <$>
     ((λ c, if decide (c_id c = id) then mkCustomer (c_id c) fn ln ph else c)
        <$> customers t))) as [|Hno]; [done|].
  apply selected_rows_empty in Hno. rewrite Hno in Hrows. done.
Qed.

Section Integrity.
Variable foreign_key : bool.

Lemma put_customer_referential id b w :
  referential (tables w) →
  wp (put_customer foreign_key id b)
     (λ _ w', referential (tables w')) (λ _ w', referential (tables w')) w.
Proof.
  intros Hr. unfold put_customer.
  do 2 (case_match; [by apply wp_ret|]).
  destruct w as [t s cs a_s l fs]; simpl in *.
  repeat (first [wp_step | wp_fault]; simpl); try done.
  all: match goal with
       | |- context [rowCount ?r =? 0] => destruct (rowCount r =? 0) eqn:Hrows
       end.
  all: repeat (first [wp_step | wp_fault | wp_case
                     | progress unfold sql_insert_address]; simpl); try done.
  all: try (by apply referential_update_customer).
  all: apply (referential_insert_address (mkAddress _ _ _ _ _ _) (mkTables _ _));
    [by apply referential_update_customer|by apply updated_customer_exists].
Qed.

Lemma post_customer_referential b w :
  referential (tables w) →
  wp (post_customer foreign_key b)
     (λ _ w', referential (tables w')) (λ _ w', referential (tables w')) w.
Proof.
  intros Hr. unfold post_customer.
  do 3 (case_match; [by apply wp_ret|]).
  destruct w as [t s cs a_s l fs]; simpl in *.
  repeat (first [wp_step | wp_fault | wp_case
                | progress unfold sql_insert_address]; simpl); try done.
  all: by apply (referential_new_customer (mkCustomer _ _ _ _) (mkAddress _ _ _ _ _ _)).
Qed.

Lemma delete_customer_referential id w :
  referential (tables w) →
  wp (delete_customer foreign_key id)
     (λ _ w', referential (tables w')) (λ _ w', referential (tables w')) w.
Proof.
  intros Hr.
  eapply wp_mono; [| |apply delete_customer_all_or_nothing].
  - intros r w' [[-> _]|(-> & _ & _)]; [done|by apply referential_cascade].
  - by intros _ w' ->.
Qed.

Lemma put_address_referential id b w :
  referential (tables w) →
  wp (put_address id b)
     (λ _ w', referential (tables w')) (λ _ w', referential (tables w')) w.
Proof.
  intros Hr. unfold put_address.
  case_match; [by apply wp_ret|].
  destruct w as [t s cs a_s l fs]; simpl in *.
  repeat (first [wp_step | wp_fault | wp_case]; simpl); try done.
  all: by apply referential_update_address.
Qed.

Lemma delete_address_referential id w :
  referential (tables w) →
  wp (delete_address id)
     (λ _ w', referential (tables w')) (λ _ w', referential (tables w')) w.
Proof.
  intros Hr. unfold delete_address.
  destruct w as [t s cs a_s l fs]; simpl in *.
  repeat (first [wp_step | wp_fault | wp_case]; simpl); try done.
  all: by apply (referential_filter_addresses (λ a, a_id a ≠ id)).
Qed.

Lemma insert_address_referential c cid ad ci st pin w :
  foreign_key = true → referential (visible c w) → referential (tables w) →
  wp (insert_address foreign_key c cid ad ci st pin)
     (λ _ w', referential (tables w')) (λ _ w', referential (tables w')) w.
Proof.
  intros -> Hv Hr.
  destruct w as [t s cs a_s l fs]; simpl in *.
  repeat (first [wp_step | wp_fault
                | progress unfold sql_insert_address]; simpl); try done.
  all: destruct (bool_decide (customer_exists cid (visible c _))) eqn:Hex; simpl; try done.
  all: apply bool_decide_eq_true in Hex.
  all: destruct c, s; simpl in *; try done.
  all: by apply (referential_insert_address (mkAddress _ _ _ _ _ _)).
Qed.

Lemma post_address_referential b w :
  foreign_key = true → referential (tables w) →
  wp (post_address foreign_key b)
     (λ _ w', referential (tables w')) (λ _ w', referential (tables w')) w.
Proof.
  intros Hfk Hr. unfold post_address.
  case_match; [by apply wp_ret|].
  apply wp_try_catch, wp_bind.
  eapply wp_mono; [| |by apply insert_address_referential]; simpl.
  - intros rows w' Hr'. by apply wp_ret.
  - intros e w' Hr'. by apply wp_ret.
Qed.

Lemma post_customer_address_referential id b w :
  foreign_key = true → referential (tables w) →
  wp (post_customer_address foreign_key id b)
     (λ _ w', referential (tables w')) (λ _ w', referential (tables w')) w.
Proof.
  intros Hfk Hr. unfold post_customer_address.
  do 2 (case_match; [by apply wp_ret|]).
  apply wp_try_catch, wp_bind.
  eapply wp_mono; [| |by apply insert_address_referential]; simpl.
  - intros rows w' Hr'. destruct rows; repeat (wp_step; simpl); done.
  - intros e w' Hr'. by apply wp_ret.
Qed.

End Integrity.

(** ** The list, count and search queries *)

Lemma left_join_spec t c oa :
  (c, oa) ∈ left_join t ↔
  c ∈ customers t ∧
  match oa with
  | Some a => a ∈ addresses t ∧ a_customer_id a = c_id c
  | None => ¬ has_addresses (c_id c) t
  end.
Proof.
  unfold left_join. rewrite list_elem_of_bind. split.
  - intros (c' & Hin & Hc').
    destruct (filter _ (addresses t)) as [|a0 rest] eqn:Hf.
    + apply list_elem_of_singleton in Hin. injection Hin as -> ->.
      split; [done|]. unfold has_addresses.
      intros (a & Ha & Hin)%list_elem_of_fmap.
      eapply (filter_nil_not_elem_of _ _ a); [exact Hf|done|done].
    + apply list_elem_of_fmap in Hin as (a & Heq & Ha).
      injection Heq as -> ->. split; [done|].
      rewrite <- Hf in Ha. apply list_elem_of_filter in Ha as [? ?]. done.
  - intros [Hc Hoa]. exists c. split; [|done].
    destruct (filter _ (addresses t)) as [|a0 rest] eqn:Hf.
    + destruct oa as [a|]; [|left].
      destruct Hoa as [Ha Hid].
      exfalso. eapply (filter_nil_not_elem_of _ _ a); [exact Hf|done|done].
    + rewrite <- Hf. destruct oa as [a|].
      * destruct Hoa as [Ha Hid]. apply list_elem_of_fmap. exists a.
        split; [done|]. by apply list_elem_of_filter.
      * destruct Hoa. unfold has_addresses. apply list_elem_of_fmap.
        exists a0. assert (a0 ∈ filter (λ a, a_customer_id a = c_id c) (addresses t))
          as [? ?]%list_elem_of_filter by (rewrite Hf; left). done.
Qed.

Lemma group_keys rows :
  fst <$> group_by_id rows = remove_dups ((λ r : JoinRow, c_id r.1) <$> rows).
Proof.
  unfold group_by_id. rewrite <- list_fmap_compose. apply list_fmap_id.
Qed.

Lemma elem_of_group_by_id k g rows :
  (k, g) ∈ group_by_id rows ↔
  k ∈ (λ r : JoinRow, c_id r.1) <$> rows ∧ g = filter (λ r : JoinRow, c_id r.1 = k) rows.
Proof.
  unfold group_by_id. rewrite list_elem_of_fmap. split.
  - intros (k' & Heq & Hk'). injection Heq as -> ->.
    by rewrite elem_of_remove_dups in Hk'.
  - intros [Hk ->]. exists k. by rewrite elem_of_remove_dups.
Qed.

Lemma group_not_empty k g rows : (k, g) ∈ group_by_id rows → g ≠ [].
Proof.
  intros [Hk ->]%elem_of_group_by_id Hnil.
  apply list_elem_of_fmap in Hk as (r & -> & Hr).
  eapply (filter_nil_not_elem_of _ _ r); [exact Hnil|done|done].
Qed.

(** The filter of a grouped query, on the keys. *)
Lemma filter_groups (P : Z * list JoinRow → Prop) `{∀ g, Decision (P g)} rows :
  fst <$> filter P (group_by_id rows) =
  filter (λ k, P (k, filter (λ r : JoinRow, c_id r.1 = k) rows))
         (remove_dups ((λ r : JoinRow, c_id r.1) <$> rows)).
Proof.
  unfold group_by_id.
  induction (remove_dups ((λ r : JoinRow, c_id r.1) <$> rows)) as [|k ks IH]; [done|].
  rewrite fmap_cons, !filter_cons. simpl.
  destruct (decide (P (k, filter (λ r : JoinRow, c_id r.1 = k) rows)));
    rewrite ?fmap_cons; simpl fst; by rewrite IH.
Qed.

Lemma filtered_group_keys_NoDup (P : Z * list JoinRow → Prop) `{∀ g, Decision (P g)} rows :
  NoDup (fst <$> filter P (group_by_id rows)).
Proof. rewrite filter_groups. apply NoDup_filter, NoDup_remove_dups. Qed.

Lemma select_list_rows_ids (G : list (Z * list JoinRow)) :
  (∀ g, g ∈ G → g.2 ≠ []) →
  r_id <$> omap select_list_row G = fst <$> G.
Proof.
  induction G as [|[k g] G IH]; [done|]. intros Hne.
  assert (g ≠ []) as Hg by (apply (Hne (k, g)); left).
  simpl. unfold select_list_row at 1. simpl.
  destruct g as [|[c oa] g]; [done|]. simpl. f_equal.
  apply IH. intros g' Hg'. apply Hne. by right.
Qed.

Lemma filtered_groups_not_empty (P : Z * list JoinRow → Prop) `{∀ g, Decision (P g)} rows g :
  g ∈ filter P (group_by_id rows) → g.2 ≠ [].
Proof.
  intros [_ Hg]%list_elem_of_filter. destruct g as [k g].
  by eapply group_not_empty.
Qed.

Lemma order_by_id_desc_perm {A} (key : A → Z) rows :
  order_by_id_desc key rows ≡ₚ rows.
Proof. apply merge_sort_Permutation. Qed.

Lemma order_by_id_desc_sorted {A} (key : A → Z) rows :
  StronglySorted (λ x y, y ≤ x) (key <$> order_by_id_desc key rows).
Proof.
  apply (StronglySorted_fmap key (id_desc key)); [done|].
  apply StronglySorted_merge_sort; apply _.
Qed.

Lemma count_a_id_not_null k (rows : list JoinRow) :
  count_a_id (filter (λ r : JoinRow, c_id r.1 = k)
                (filter (λ r : JoinRow, is_Some r.2) rows)) =
  count_a_id (filter (λ r : JoinRow, c_id r.1 = k) rows).
Proof.
  unfold count_a_id. do 2 f_equal.
  rewrite !list_filter_filter. apply list_filter_iff. tauto.
Qed.

Lemma count_a_id_positive k (rows : list JoinRow) :
  0 < count_a_id (filter (λ r : JoinRow, c_id r.1 = k) rows) →
  k ∈ (λ r : JoinRow, c_id r.1) <$> filter (λ r : JoinRow, is_Some r.2) rows.
Proof.
  unfold count_a_id. intros Hpos.
  destruct (filter (λ r : JoinRow, is_Some r.2) (filter _ rows)) as [|r rest] eqn:Hf;
    [simpl in Hpos; lia|].
  assert (r ∈ filter (λ r : JoinRow, is_Some r.2)
                 (filter (λ r : JoinRow, c_id r.1 = k) rows)) as Hr
    by (rewrite Hf; left).
  apply list_elem_of_filter in Hr as [Hs Hr].
  apply list_elem_of_filter in Hr as [Hk Hr].
  apply list_elem_of_fmap. exists r. split; [done|].
  by apply list_elem_of_filter.
Qed.

Lemma elem_of_filtered_groups (P : Z * list JoinRow → Prop) `{∀ g, Decision (P g)} rows k :
  k ∈ fst <$> filter P (group_by_id rows) ↔
  k ∈ (λ r : JoinRow, c_id r.1) <$> rows
  ∧ P (k, filter (λ r : JoinRow, c_id r.1 = k) rows).
Proof.
  rewrite filter_groups, list_elem_of_filter, elem_of_remove_dups. tauto.
Qed.

(** Dropping the rows without an address before grouping does not change
    the groups that pass a [HAVING COUNT(a.id)] test of at least one. *)
Lemma having_not_null h (rows : list JoinRow) :
  h ≠ NoHaving →
  fst <$> filter (having_holds h) (group_by_id (filter (λ r : JoinRow, is_Some r.2) rows))
  ≡ₚ fst <$> filter (having_holds h) (group_by_id rows).
Proof.
  intros Hh. apply NoDup_Permutation; try apply filtered_group_keys_NoDup.
  intros k. rewrite !elem_of_filtered_groups.
  unfold having_holds. simpl. rewrite count_a_id_not_null.
  split.
  - intros [Hk HP]. split; [|done].
    apply list_elem_of_fmap in Hk as (r & -> & [_ Hr]%list_elem_of_filter).
    apply list_elem_of_fmap. by exists r.
  - intros [Hk HP]. split; [|done].
    apply count_a_id_positive.
    destruct h; [done| |]; apply Is_true_true in HP; lia.
Qed.

Lemma no_having_filter (G : list (Z * list JoinRow)) :
  filter (having_holds NoHaving) G = G.
Proof.
  induction G as [|g G IH]; [done|].
  rewrite filter_cons_True by done. by rewrite IH.
Qed.

Section Agreement.
Variable ILIKE : string → string → bool.
Variable trim : string → string.

Lemma list_query_ids addressCount searchTerm t :
  ∃ rows h,
    rows = (if has_search trim searchTerm
            then filter (search_condition ILIKE (pattern_of (trim (text searchTerm))))
                        (left_join t)
            else left_join t)
    ∧ h = (if decide (addressCount = Some "single") then HavingCountEq1
           else if decide (addressCount = Some "multiple") then HavingCountGt1
           else NoHaving)
    ∧ r_id <$> list_query ILIKE trim addressCount searchTerm t
      ≡ₚ fst <$> filter (having_holds h) (group_by_id rows).
Proof.
  eexists _, _. split; [reflexivity|]. split; [reflexivity|].
  unfold list_query. rewrite order_by_id_desc_perm.
  rewrite select_list_rows_ids; [done|].
  intros g. apply filtered_groups_not_empty.
Qed.

Lemma count_query_agrees addressCount searchTerm t :
  recognised addressCount →
  count_query ILIKE trim addressCount searchTerm t =
  Z.of_nat (length (list_query ILIKE trim addressCount searchTerm t)).
Proof.
  intros Hrec.
  destruct (list_query_ids addressCount searchTerm t) as (rows & h & Hrows & Hh & Hperm).
  apply Permutation_length in Hperm. rewrite !length_fmap in Hperm.
  rewrite Hperm. unfold count_query. rewrite <- Hrows. f_equal.
  rewrite <- (length_fmap fst (filter _ (group_by_id rows))).
  destruct (decide (addressCount = Some "single")) as [Hs|Hs].
  { subst h. by apply Permutation_length, having_not_null. }
  destruct (decide (addressCount = Some "multiple")) as [Hm|Hm].
  { subst h. by apply Permutation_length, having_not_null. }
  destruct Hrec as [?|[?|Hf]]; [done|done|].
  rewrite Hf. simpl. subst h. by rewrite no_having_filter.
Qed.

End Agreement.

Lemma default_json_agg {A} (l : list A) : default [] (json_agg l) = l.
Proof. by destruct l. Qed.

Lemma nested_addresses_empty t (v : CustomerView) :
  (∀ a, a ∈ v_addresses v → a ∈ addresses t ∧ a_customer_id a = v_id v) →
  ¬ has_addresses (v_id v) t → v_addresses v = [].
Proof.
  intros Hall Hno. destruct (v_addresses v) as [|a rest]; [done|].
  destruct (Hall a) as [Ha Hid]; [left|].
  destruct Hno. unfold has_addresses. apply list_elem_of_fmap. by exists a.
Qed.

Lemma nested_of_group k (g : list JoinRow) t :
  (∀ r, r ∈ g → r ∈ left_join t ∧ c_id r.1 = k) →
  ∀ a, a ∈ omap id (default [] (json_agg (g.*2))) →
       a ∈ addresses t ∧ a_customer_id a = k.
Proof.
  rewrite default_json_agg.
  intros Hg a (x & Hx & Hsome)%list_elem_of_omap. simpl in Hsome. subst x.
  apply list_elem_of_fmap in Hx as ([c oa] & Heq & Hr). simpl in Heq. subst oa.
  destruct (Hg _ Hr) as [Hin Hid]. simpl in Hid.
  apply left_join_spec in Hin as [_ [Ha Hcid]]. split; [done|congruence].
Qed.

Lemma customer_in_join t c :
  c ∈ customers t → ∃ oa, (c, oa) ∈ left_join t.
Proof.
  intros Hc. destruct (decide (has_addresses (c_id c) t)) as [Hhas|Hno].
  - unfold has_addresses in Hhas. apply list_elem_of_fmap in Hhas as (a & Hid & Ha).
    exists (Some a). by apply left_join_spec.
  - exists None. by apply left_join_spec.
Qed.

Lemma primary_key_inj t c c' :
  primary_key t → c ∈ customers t → c' ∈ customers t → c_id c = c_id c' → c = c'.
Proof.
  unfold primary_key. induction (customers t) as [|x l IH]; [by intros _ ?%elem_of_nil|].
  rewrite fmap_cons, NoDup_cons. intros [Hx Hl].
  rewrite !elem_of_cons. intros [->|Hc] [->|Hc'] Hid; auto.
  - destruct Hx. rewrite Hid. apply list_elem_of_fmap. by exists c'.
  - destruct Hx. rewrite <- Hid. apply list_elem_of_fmap. by exists c.
Qed.

Section Shape.
Variable ILIKE : string → string → bool.
Variable trim : string → string.

Lemma join_matches term t c :
  (∃ oa, (c, oa) ∈ filter (search_condition ILIKE term) (left_join t)) ↔
  c ∈ customers t ∧ customer_matches ILIKE term t c.
Proof.
  split.
  - intros (oa & [Hcond Hin]%list_elem_of_filter).
    apply left_join_spec in Hin as [Hc Hoa]. split; [done|].
    unfold search_condition in Hcond. simpl in Hcond.
    apply orb_prop_elim in Hcond as [Hl|Hr]; [by left|].
    destruct oa as [a|]; [|done]. destruct Hoa. right. by exists a.
  - intros [Hc [Hl|(a & Ha & Hid & Hlike)]].
    + destruct (customer_in_join t c Hc) as [oa Hin]. exists oa.
      apply list_elem_of_filter. split; [|done].
      unfold search_condition. simpl. apply orb_prop_intro. by left.
    + exists (Some a). apply list_elem_of_filter. split.
      * unfold search_condition. simpl. apply orb_prop_intro. by right.
      * by apply left_join_spec.
Qed.

Lemma list_rows_joined searchTerm t r :
  r ∈ list_rows ILIKE trim searchTerm t → r ∈ left_join t.
Proof.
  unfold list_rows. destruct (has_search trim searchTerm); [|done].
  by intros [_ ?]%list_elem_of_filter.
Qed.

Lemma list_rows_listed searchTerm t c :
  c ∈ customers t → listed ILIKE trim searchTerm t c →
  c_id c ∈ (λ r : JoinRow, c_id r.1) <$> list_rows ILIKE trim searchTerm t.
Proof.
  unfold listed, list_rows. intros Hc Hl.
  destruct (has_search trim searchTerm).
  - destruct (proj2 (join_matches _ t c) (conj Hc Hl)) as [oa Hin].
    apply list_elem_of_fmap. by exists (c, oa).
  - destruct (customer_in_join t c Hc) as [oa Hin].
    apply list_elem_of_fmap. by exists (c, oa).
Qed.

Lemma list_row_shows addressCount searchTerm t row :
  row ∈ list_query ILIKE trim addressCount searchTerm t →
  shows_customer t (list_view row).
Proof.
  unfold list_query. rewrite order_by_id_desc_perm.
  fold (list_rows ILIKE trim searchTerm t).
  intros (g & Hg & Hsel)%list_elem_of_omap.
  apply list_elem_of_filter in Hg as [_ Hg]. destruct g as [k g].
  apply elem_of_group_by_id in Hg as [Hk ->].
  unfold select_list_row in Hsel. simpl in Hsel.
  destruct (filter _ (list_rows ILIKE trim searchTerm t)) as [|[c oa] rest] eqn:Hf; [done|].
  injection Hsel as <-.
  assert ((c, oa) ∈ filter (λ r : JoinRow, c_id r.1 = k) (list_rows ILIKE trim searchTerm t))
    as [Hid Hin]%list_elem_of_filter by (rewrite Hf; left).
  simpl in Hid. apply list_rows_joined, left_join_spec in Hin as [Hc _].
  assert (∀ a, a ∈ omap id (default [] (json_agg (((c, oa) :: rest).*2))) →
          a ∈ addresses t ∧ a_customer_id a = k) as Hnested.
  { apply nested_of_group. intros r Hr.
    assert (r ∈ filter (λ r : JoinRow, c_id r.1 = k) (list_rows ILIKE trim searchTerm t))
      as [Hid' Hr']%list_elem_of_filter by (rewrite Hf; exact Hr).
    split; [by eapply list_rows_joined|done]. }
  split_and!.
  - exists c. by simpl.
  - exact Hnested.
  - by apply nested_addresses_empty.
Qed.

Lemma list_views_one_row_each addressCount searchTerm t :
  one_row_each (list_view <$> list_query ILIKE trim addressCount searchTerm t).
Proof.
  unfold one_row_each. rewrite <- list_fmap_compose.
  change (v_id ∘ list_view) with r_id.
  split.
  - destruct (list_query_ids ILIKE trim addressCount searchTerm t)
      as (rows & h & _ & _ & ->).
    apply filtered_group_keys_NoDup.
  - apply order_by_id_desc_sorted.
Qed.

Lemma list_views_complete addressCount searchTerm t c :
  addressCount ≠ Some "single" → addressCount ≠ Some "multiple" →
  c ∈ customers t → listed ILIKE trim searchTerm t c →
  c_id c ∈ v_id <$> (list_view <$> list_query ILIKE trim addressCount searchTerm t).
Proof.
  intros Hs Hm Hc Hl. rewrite <- list_fmap_compose.
  change (v_id ∘ list_view) with r_id.
  destruct (list_query_ids ILIKE trim addressCount searchTerm t)
    as (rows & h & -> & -> & ->).
  rewrite !decide_False by done.
  rewrite no_having_filter, group_keys, elem_of_remove_dups.
  by apply list_rows_listed.
Qed.

Lemma search_all_spec t row :
  row ∈ search_all t ↔ ∃ c, row = (c, addresses_of t c) ∧ c ∈ customers t.
Proof.
  unfold search_all. rewrite order_by_id_desc_perm, list_elem_of_fmap.
  split; intros (c & -> & Hc); by exists c.
Qed.

Lemma search_row_shows t row :
  row ∈ search_all t →
  shows_customer t (search_view row)
  ∧ v_addresses (search_view row)
    = filter (λ a, a_customer_id a = v_id (search_view row)) (addresses t).
Proof.
  intros (c & -> & Hc)%search_all_spec.
  assert (v_addresses (search_view (c, addresses_of t c))
          = filter (λ a, a_customer_id a = c_id c) (addresses t)) as Hall.
  { simpl. unfold addresses_of. apply default_json_agg. }
  assert (∀ a, a ∈ v_addresses (search_view (c, addresses_of t c)) →
               a ∈ addresses t ∧ a_customer_id a = c_id c) as Hnested.
  { intros a. rewrite Hall. by intros [? ?]%list_elem_of_filter. }
  split; [|exact Hall]. split_and!.
  - exists c. by simpl.
  - exact Hnested.
  - by apply nested_addresses_empty.
Qed.

Lemma search_views_one_row_each t :
  primary_key t → one_row_each (search_view <$> search_all t).
Proof.
  intros Hpk. unfold one_row_each. rewrite <- list_fmap_compose.
  change (v_id ∘ search_view) with (λ r : SearchRow, c_id r.1).
  split; [|apply order_by_id_desc_sorted].
  apply NoDup_fmap_2_strong.
  - intros r r' (c & -> & Hc)%search_all_spec (c' & -> & Hc')%search_all_spec Hid.
    simpl in Hid. by rewrite (primary_key_inj t c c').
  - unfold search_all. rewrite order_by_id_desc_perm.
    apply NoDup_fmap_2_strong; [by intros c c' _ _ [= ->]|].
    by apply (NoDup_fmap_1 c_id).
Qed.

Lemma search_views_ids t :
  v_id <$> (search_view <$> search_all t) ≡ₚ c_id <$> customers t.
Proof.
  unfold search_all. rewrite <- list_fmap_compose, order_by_id_desc_perm.
  by rewrite <- list_fmap_compose.
Qed.

(** The responses of the three read handlers. *)
Lemma read_handler_response {R} (rows : Tables → R) (k : R → Json) w r :
  (run (try_catch
          (result <~ query pool (λ t, Returned (rows t, t)) ;;
           ret (res_json (k result)))
          (λ err, ret (res_status_json 500 (JError err None)))) w).1 = Some r →
  r = res_json (k (rows (tables w))) ∨ status r = 500.
Proof.
  apply (wp_run _ (λ o, o.1 = Some r → _)).
  destruct w as [t s cs a_s l fs].
  repeat (first [wp_step | wp_fault]; simpl); intros [= <-]; auto.
Qed.

Lemma get_customers_data addressCount searchTerm w views :
  (run (get_customers ILIKE trim addressCount searchTerm) w).1
    = Some (res_json (JData views)) →
  views = list_view <$> list_query ILIKE trim addressCount searchTerm (tables w).
Proof.
  intros [Hr|Hr]%(read_handler_response
                    (list_query ILIKE trim addressCount searchTerm)
                    (λ result, JData (list_view <$> result)));
    by simplify_eq.
Qed.

(** The search handler answers with rows for a blank term only, and
    with a 500 for every other term. *)
Lemma get_customers_search_data q w views :
  (run (get_customers_search trim q) w).1 = Some (res_json (JData views)) →
  truthy (Some (trim (if truthy q then text q else EmptyString))) = false
  ∧ views = search_view <$> search_all (tables w).
Proof.
  apply (wp_run _ (λ o, o.1 = Some (res_json (JData views)) → _)).
  unfold get_customers_search, sql_search_customers, search_query.
  destruct (truthy (Some (trim (if truthy q then text q else EmptyString))));
    simpl; destruct w as [t s cs a_s l fs];
    repeat (first [wp_step | wp_fault]; simpl); intros [= <-]; auto.
Qed.

Lemma get_customers_search_refused q w :
  truthy (Some (trim (if truthy q then text q else EmptyString))) = true →
  wp (get_customers_search trim q)
     (λ resp w', status resp = 500 ∧ is_error (json resp) = true
                 ∧ tables w' = tables w)
     (λ _ _, False) w.
Proof.
  intros Hterm. unfold get_customers_search, sql_search_customers, search_query.
  rewrite Hterm. simpl. destruct w as [t s cs a_s l fs].
  repeat (first [wp_step | wp_fault]; simpl); done.
Qed.

Lemma get_customers_count_data addressCount searchTerm w n :
  (run (get_customers_count ILIKE trim addressCount searchTerm) w).1
    = Some (res_json (JCount n)) →
  n = count_query ILIKE trim addressCount searchTerm (tables w).
Proof.
  intros [Hr|Hr]%(read_handler_response
                    (λ t, [count_query ILIKE trim addressCount searchTerm t])
                    (λ result, JCount (default 0 (head result))));
    by simplify_eq.
Qed.

End Shape.

Section Completeness.
Variable ILIKE : string → string → bool.
Variable trim : string → string.

Lemma list_rows_sound searchTerm t c oa :
  (c, oa) ∈ list_rows ILIKE trim searchTerm t →
  c ∈ customers t ∧ listed ILIKE trim searchTerm t c.
Proof.
  unfold list_rows, listed. destruct (has_search trim searchTerm).
  - intros Hin. apply join_matches. by exists oa.
  - intros [Hc _]%left_join_spec. done.
Qed.

Lemma list_views_sound addressCount searchTerm t v :
  v ∈ list_view <$> list_query ILIKE trim addressCount searchTerm t →
  ∃ c, c ∈ customers t ∧ listed ILIKE trim searchTerm t c ∧ v_id v = c_id c.
Proof.
  intros (row & -> & Hrow)%list_elem_of_fmap. revert Hrow.
  unfold list_query. rewrite order_by_id_desc_perm.
  fold (list_rows ILIKE trim searchTerm t).
  intros (g & Hg & Hsel)%list_elem_of_omap.
  apply list_elem_of_filter in Hg as [_ Hg]. destruct g as [k g].
  apply elem_of_group_by_id in Hg as [Hk ->].
  apply list_elem_of_fmap in Hk as ([c oa] & -> & Hr).
  exists c. destruct (list_rows_sound _ _ _ _ Hr) as [Hc Hl].
  split_and!; [done|done|].
  unfold select_list_row in Hsel. simpl in Hsel.
  destruct (filter _ (list_rows ILIKE trim searchTerm t)) as [|[c' oa'] rest]; [done|].
  by injection Hsel as <-.
Qed.

(** Where the two handlers treat the address-count value alike, the count
    is the number of rows of the list. *)
Lemma count_agrees_with_list addressCount searchTerm w n views :
  recognised addressCount →
  (run (get_customers_count ILIKE trim addressCount searchTerm) w).1
    = Some (res_json (JCount n)) →
  (run (get_customers ILIKE trim addressCount searchTerm) w).1
    = Some (res_json (JData views)) →
  n = Z.of_nat (length views).
Proof.
  intros Hrec ->%get_customers_count_data ->%get_customers_data.
  rewrite length_fmap. by apply count_query_agrees.
Qed.

End Completeness.

(** ** The primary key of the customers *)

Lemma keyed_step w0 w :
  keyed w0 → customers_step w0 w → customers_id_seq w0 ≤ customers_id_seq w →
  keyed w.
Proof.
  unfold keyed, primary_key. intros [Hpk Hlt] Hshape Hle.
  assert (∀ c, c ∈ customers (tables w0) → c_id c < customers_id_seq w) as Hlt'
    by (intros c Hc; specialize (Hlt c Hc); lia).
  destruct Hshape as [Hsame|[(id & ->)|(fn & ln & ph & -> & Hnew)]].
  - rewrite Hsame. split; [done|]. intros c Hc.
    assert (c_id c ∈ c_id <$> customers (tables w0))
      as (c' & -> & Hc')%list_elem_of_fmap.
    { rewrite <- Hsame. apply list_elem_of_fmap. by exists c. }
    auto.
  - split.
    + apply (sublist_NoDup _ (c_id <$> customers (tables w0))); [done|].
      apply fmap_sublist, sublist_filter.
    + intros c [_ Hc]%list_elem_of_filter. auto.
  - split.
    + rewrite fmap_app. apply NoDup_app. split_and!; [done| |apply NoDup_singleton].
      intros x (c & Hx & Hc)%list_elem_of_fmap Hin.
      apply list_elem_of_singleton in Hin. simpl in Hin.
      specialize (Hlt c Hc). lia.
    + intros c [Hc| ->%list_elem_of_singleton]%elem_of_app; [auto|done].
Qed.

Lemma updated_ids fn ln ph id (cs : list Customer) :
  c_id <$> ((λ c, if decide (c_id c = id) then mkCustomer (c_id c) fn ln ph else c) <$> cs)
  = c_id <$> cs.
Proof.
  rewrite <- list_fmap_compose. apply list_fmap_ext.
  intros i c _. simpl. by destruct (decide (c_id c = id)).
Qed.

Ltac keyed_goal Hk :=
  eapply keyed_step; [exact Hk| |simpl; lia];
  unfold customers_step; simpl;
  first [ by left
        | left; by apply updated_ids
        | right; left; by eexists
        | right; right; eexists _, _, _; split; [reflexivity|lia] ].

Section Keys.
Variable foreign_key : bool.

Lemma handle_write_keyed r w :
  keyed w →
  wp (handle_write foreign_key r) (λ _ w', keyed w') (λ _ w', keyed w') w.
Proof.
  intros Hk.
  destruct r as [id b|b|id b|id|id|b|id b]; simpl.
  - unfold put_customer.
    do 2 (case_match; [by apply wp_ret|]).
    repeat (first [wp_step | wp_fault | wp_case
                  | progress unfold sql_insert_address]; simpl);
      keyed_goal Hk.
  - unfold post_address.
    case_match; [by apply wp_ret|].
    repeat (first [wp_step | wp_fault | wp_case
                  | progress unfold sql_insert_address]; simpl);
      keyed_goal Hk.
  - unfold put_address.
    case_match; [by apply wp_ret|].
    repeat (first [wp_step | wp_fault | wp_case]; simpl); keyed_goal Hk.
  - unfold delete_address.
    repeat (first [wp_step | wp_fault | wp_case]; simpl); keyed_goal Hk.
  - unfold delete_customer.
    repeat (first [wp_step | wp_fault | wp_case
                  | progress unfold sql_delete_customer]; simpl);
      keyed_goal Hk.
  - unfold post_customer.
    do 3 (case_match; [by apply wp_ret|]).
    repeat (first [wp_step | wp_fault | wp_case
                  | progress unfold sql_insert_address]; simpl);
      keyed_goal Hk.
  - unfold post_customer_address.
    do 2 (case_match; [by apply wp_ret|]).
    repeat (first [wp_step | wp_fault | wp_case
                  | progress unfold sql_insert_address]; simpl);
      keyed_goal Hk.
Qed.
End Keys.

Lemma exactly_one_customer t a :
  referential t → primary_key t → a ∈ addresses t →
  ∃ c, (c ∈ customers t ∧ c_id c = a_customer_id a)
       ∧ ∀ c', c' ∈ customers t ∧ c_id c' = a_customer_id a → c' = c.
Proof.
  intros Hr Hpk Ha. specialize (Hr a Ha). unfold customer_exists in Hr.
  apply list_elem_of_fmap in Hr as (c & Hid & Hc).
  exists c. split; [done|]. intros c' [Hc' Hid'].
  apply (primary_key_inj t c' c Hpk Hc' Hc). congruence.
Qed.

(** ** The address-count filter *)

Lemma join_rows_with_address k t :
  filter (λ r : JoinRow, is_Some r.2)
    (filter (λ r : JoinRow, c_id r.1 = k) (left_join t)) =
  c ← filter (λ c, c_id c = k) (customers t);
  (λ a, (c, Some a)) <$> filter (λ a, a_customer_id a = c_id c) (addresses t).
Proof.
  unfold left_join. induction (customers t) as [|c cs IH]; [done|].
  rewrite bind_cons, !filter_app, IH, filter_cons. clear IH.
  destruct (decide (c_id c = k)) as [Hk|Hk].
  - rewrite bind_cons. f_equal.
    destruct (filter (λ a, a_customer_id a = c_id c) (addresses t)) as [|a rows].
    + rewrite filter_cons_True by done.
      rewrite filter_cons_False by (simpl; by intros [? [=]]). done.
    + generalize (a :: rows). intros l. induction l as [|x l IHl]; [done|].
      rewrite fmap_cons, filter_cons_True by done.
      rewrite filter_cons_True by (simpl; eauto). by rewrite IHl.
  - replace (filter (λ r : JoinRow, c_id r.1 = k) _) with (@nil JoinRow); [done|].
    symmetry. destruct (filter (λ a, a_customer_id a = c_id c) (addresses t)) as [|a rows].
    + by rewrite filter_cons_False.
    + generalize (a :: rows). intros l. induction l as [|x l IHl]; [done|].
      by rewrite fmap_cons, filter_cons_False.
Qed.

Lemma primary_key_select t c :
  primary_key t → c ∈ customers t →
  filter (λ c', c_id c' = c_id c) (customers t) = [c].
Proof.
  unfold primary_key. induction (customers t) as [|x l IH]; [by intros _ ?%elem_of_nil|].
  rewrite fmap_cons, NoDup_cons, elem_of_cons. intros [Hx Hl] [->|Hc].
  - rewrite filter_cons_True by done. f_equal.
    destruct (filter (λ c', c_id c' = c_id x) l) as [|y rest] eqn:Hf; [done|].
    assert (y ∈ filter (λ c', c_id c' = c_id x) l) as [Hid Hy]%list_elem_of_filter
      by (rewrite Hf; left).
    destruct Hx. rewrite <- Hid. apply list_elem_of_fmap. by exists y.
  - rewrite filter_cons_False; [by apply IH|].
    intros Hid. destruct Hx. rewrite Hid. apply list_elem_of_fmap. by exists c.
Qed.

(** Without a search condition, [COUNT(a.id)] of a customer's group is the
    number of its address rows. *)
Lemma count_a_id_all t c :
  primary_key t → c ∈ customers t →
  count_a_id (filter (λ r : JoinRow, c_id r.1 = c_id c) (left_join t)) =
  Z.of_nat (length (filter (λ a, a_customer_id a = c_id c) (addresses t))).
Proof.
  intros Hpk Hc. unfold count_a_id.
  rewrite join_rows_with_address, (primary_key_select t c Hpk Hc).
  rewrite bind_cons. simpl. rewrite app_nil_r. by rewrite length_fmap.
Qed.

(** With a search condition it counts some of them. *)
Lemma count_a_id_filtered (P : JoinRow → Prop) `{∀ r, Decision (P r)} k rows :
  count_a_id (filter (λ r : JoinRow, c_id r.1 = k) (filter P rows))
  ≤ count_a_id (filter (λ r : JoinRow, c_id r.1 = k) rows).
Proof.
  unfold count_a_id. apply inj_le.
  rewrite !list_filter_filter.
  rewrite (list_filter_iff _ (λ r : JoinRow, P r ∧ is_Some r.2 ∧ c_id r.1 = k))
    by tauto.
  rewrite <- (list_filter_filter P). apply length_filter.
Qed.

Section AddressCount.
Variable ILIKE : string → string → bool.
Variable trim : string → string.

Lemma list_rows_count searchTerm t c :
  primary_key t → c ∈ customers t →
  count_a_id (filter (λ r : JoinRow, c_id r.1 = c_id c)
                (list_rows ILIKE trim searchTerm t))
  ≤ Z.of_nat (length (filter (λ a, a_customer_id a = c_id c) (addresses t)))
  ∧ (has_search trim searchTerm = false →
     count_a_id (filter (λ r : JoinRow, c_id r.1 = c_id c)
                   (list_rows ILIKE trim searchTerm t))
     = Z.of_nat (length (filter (λ a, a_customer_id a = c_id c) (addresses t)))).
Proof.
  intros Hpk Hc. rewrite <- (count_a_id_all t c Hpk Hc). unfold list_rows.
  destruct (has_search trim searchTerm); [|done].
  split; [apply count_a_id_filtered|done].
Qed.

(** The group behind a row of the list. *)
Lemma list_query_group addressCount searchTerm t row :
  row ∈ list_query ILIKE trim addressCount searchTerm t →
  ∃ c oa, (c, oa) ∈ list_rows ILIKE trim searchTerm t ∧ r_id row = c_id c
    ∧ r_address_count row
      = count_a_id (filter (λ r : JoinRow, c_id r.1 = c_id c)
                      (list_rows ILIKE trim searchTerm t))
    ∧ (addressCount = Some "single" → r_address_count row = 1)
    ∧ (addressCount = Some "multiple" → 1 < r_address_count row).
Proof.
  unfold list_query. rewrite order_by_id_desc_perm.
  fold (list_rows ILIKE trim searchTerm t).
  intros (g & Hg & Hsel)%list_elem_of_omap.
  apply list_elem_of_filter in Hg as [Hhav Hg]. destruct g as [k g].
  apply elem_of_group_by_id in Hg as [Hk ->].
  apply list_elem_of_fmap in Hk as ([c oa] & -> & Hr). simpl in *.
  exists c, oa. split; [done|].
  unfold select_list_row in Hsel. simpl in Hsel.
  destruct (filter _ (list_rows ILIKE trim searchTerm t)) as [|[c' oa'] rest] eqn:Hf;
    [done|].
  injection Hsel as <-. simpl. split_and!; [done|done|..].
  - intros ->. rewrite decide_True in Hhav by done.
    simpl in Hhav. by apply Is_true_true, Z.eqb_eq in Hhav.
  - intros ->. rewrite decide_False, decide_True in Hhav by done.
    simpl in Hhav. by apply Is_true_true, Z.ltb_lt in Hhav.
Qed.

(** With [addressCount=multiple] every customer of the list has two or
    more addresses, with or without a search term. *)
Lemma multiple_have_several searchTerm t v :
  primary_key t →
  v ∈ list_view <$> list_query ILIKE trim (Some "multiple") searchTerm t →
  (2 ≤ length (filter (λ a, a_customer_id a = v_id v) (addresses t)))%nat.
Proof.
  intros Hpk (row & -> & Hrow)%list_elem_of_fmap.
  destruct (list_query_group _ _ _ _ Hrow) as (c & oa & Hin & Hid & Hcount & _ & Hm).
  specialize (Hm eq_refl). simpl. rewrite Hid.
  apply list_rows_joined, left_join_spec in Hin as [Hc _].
  destruct (list_rows_count searchTerm t c Hpk Hc) as [Hle _]. lia.
Qed.

(** With [addressCount=single] and no search term every customer of the
    list has exactly one address. *)
Lemma single_have_one searchTerm t v :
  primary_key t → has_search trim searchTerm = false →
  v ∈ list_view <$> list_query ILIKE trim (Some "single") searchTerm t →
  length (filter (λ a, a_customer_id a = v_id v) (addresses t)) = 1%nat.
Proof.
  intros Hpk Hno (row & -> & Hrow)%list_elem_of_fmap.
  destruct (list_query_group _ _ _ _ Hrow) as (c & oa & Hin & Hid & Hcount & Hs & _).
  specialize (Hs eq_refl). simpl. rewrite Hid.
  apply list_rows_joined, left_join_spec in Hin as [Hc _].
  destruct (list_rows_count searchTerm t c Hpk Hc) as [_ Heq].
  specialize (Heq Hno). lia.
Qed.

End AddressCount.

(** ** Validation comes before the store

    A request that fails a check of its handler is answered 400 and the
    world is untouched: no client is leased, no store call is made. *)

Lemma post_customer_rejected fk b w :
  create_valid b = false → rejected (post_customer fk b) w.
Proof.
  unfold create_valid, rejected, post_customer, run. intros Hv.
  destruct (truthy (first_name b)), (truthy (last_name b)),
    (truthy (phone_number b)), (truthy (address_details b)),
    (truthy (city b)), (truthy (state b)), (truthy (pin_code b));
    simpl in *; eauto.
  destruct (test_digits 10 (phone_number b)); simpl in *; eauto.
  rewrite Hv. simpl. eauto.
Qed.

Lemma put_customer_rejected fk id b w :
  update_valid b = false → rejected (put_customer fk id b) w.
Proof.
  unfold update_valid, rejected, put_customer, run. intros Hv.
  destruct (truthy (first_name b)), (truthy (last_name b)),
    (truthy (phone_number b)); simpl in *; eauto.
  rewrite Hv. simpl. eauto.
Qed.

Lemma post_customer_address_rejected fk id b w :
  address_present b && test_digits 6 (pin_code b) = false →
  rejected (post_customer_address fk id b) w.
Proof.
  unfold address_present, rejected, post_customer_address, run. intros Hv.
  destruct (truthy (address_details b)), (truthy (city b)),
    (truthy (state b)), (truthy (pin_code b)); simpl in *; eauto.
  rewrite Hv. simpl. eauto.
Qed.

Lemma post_address_rejected fk b w :
  truthy_num (customer_id b) && address_present b = false →
  rejected (post_address fk b) w.
Proof.
  unfold address_present, rejected, post_address, run. intros Hv.
  destruct (truthy_num (customer_id b)), (truthy (address_details b)),
    (truthy (city b)), (truthy (state b)), (truthy (pin_code b));
    simpl in *; eauto; discriminate.
Qed.

Lemma put_address_rejected id b w :
  address_present b = false → rejected (put_address id b) w.
Proof.
  unfold address_present, rejected, put_address, run. intros Hv.
  destruct (truthy (address_details b)), (truthy (city b)),
    (truthy (state b)), (truthy (pin_code b));
    simpl in *; eauto; discriminate.
Qed.

(** ** A request for the count *)

Lemma get_customer_no_count id w :
  wp (get_customer id) (λ r _, ∀ n, r ≠ res_json (JCount n)) (λ _ _, False) w.
Proof.
  unfold get_customer. destruct w as [t s cs a_s l fs].
  repeat (first [wp_step | wp_fault | wp_case]; simpl); done.
Qed.

Lemma get_customer_first_call_fails id w m fs :
  faults w = Some m :: fs →
  run (get_customer id) w
  = (Some (res_status_json 500 (JError m None)), set_faults fs w).
Proof.
  destruct w as [t s cs a_s l fs0]. simpl. by intros ->.
Qed.

(** * The claims *)

Ltac decided := apply (bool_decide_unpack _); vm_compute; exact I.

(** C1, as amended.  A create-customer request whose first name, last name
    and phone number are those of an existing customer row leaves the rows
    and the sequences of the store as they were; when its payload passes
    the field validation and no store call fails, the response is the 409
    conflict. *)
Theorem duplicate_customer_conflict fk b w :
  duplicate_of b (tables w) →
  unchanged w (run (post_customer fk b) w).2
  ∧ (create_valid b = true → calm w →
     (run (post_customer fk b) w).1 = Some conflict_response).
Proof.
  intros Hdup. split.
  - apply (wp_run _ (λ o, unchanged w o.2)).
    by apply post_customer_duplicate_unchanged.
  - intros Hv Hc. apply (wp_run _ (λ o, o.1 = Some conflict_response)).
    eapply wp_mono; [| |by apply post_customer_duplicate_conflict]; simpl;
      [by intros r w' ->|done].
Qed.

Lemma duplicate_customer_conflict_witness :
  duplicate_of ann_again (tables sample_world)
  ∧ (run (post_customer true ann_again) sample_world).1 = Some conflict_response
  ∧ unchanged sample_world (run (post_customer true ann_again) sample_world).2.
Proof.
  assert (duplicate_of ann_again (tables sample_world)) as Hdup.
  { exists ann. repeat split. left. }
  destruct (duplicate_customer_conflict true ann_again sample_world Hdup)
    as [Hsame Hresp].
  split; [exact Hdup|]. split; [|exact Hsame].
  apply Hresp; [reflexivity|constructor].
Defined.

(** C1, as stated, fails: the triple is Ann's, the pin code has two digits,
    and the response is the 400 of the validation, not a 409. *)
Lemma duplicate_with_short_pin_is_400 :
  duplicate_of ann_short_pin (tables sample_world)
  ∧ calm sample_world
  ∧ (run (post_customer true ann_short_pin) sample_world).1
    = Some (res_status_json 400
              (JError "Pin code must be 6 digits." (Some "pin_code"))).
Proof.
  split; [|split; [constructor|reflexivity]].
  exists ann. repeat split. left.
Qed.

(** C2.  Deleting a customer is all or nothing: whatever the store calls
    do, the rows afterwards are the rows before, or the rows before
    without the customer and without all of its addresses, and then the
    customer existed and the response is the success message; and
    whenever a response is sent the transaction is closed, by the commit
    or by a rollback, so nothing of it stays open on the client.  When no
    store call fails, an existing customer is removed with its addresses,
    and for a missing customer the transaction is rolled back: the
    response is the not-found error, the rows are as before and no
    transaction is left open.  When the store fails on the customer
    delete, after the addresses were deleted in the transaction, the rows
    are as before, and the error is answered only after the rollback that
    discards the deleted addresses. *)
Theorem delete_customer_atomic fk id w :
  (tables (run (delete_customer fk id) w).2 = tables w
   ∧ (run (delete_customer fk id) w).1 ≠ Some customer_deleted
   ∨ tables (run (delete_customer fk id) w).2 = cascade id (tables w)
     ∧ (run (delete_customer fk id) w).1 = Some customer_deleted
     ∧ customer_exists id (tables w))
  ∧ (∀ resp, (run (delete_customer fk id) w).1 = Some resp →
       session (run (delete_customer fk id) w).2 = None)
  ∧ (calm w → customer_exists id (tables w) →
     (run (delete_customer fk id) w).1 = Some customer_deleted
     ∧ tables (run (delete_customer fk id) w).2 = cascade id (tables w))
  ∧ (calm w → ¬ customer_exists id (tables w) →
     (run (delete_customer fk id) w).1 = Some customer_not_found
     ∧ tables (run (delete_customer fk id) w).2 = tables w
     ∧ session (run (delete_customer fk id) w).2 = None)
  ∧ (∀ m fs, faults w = None :: None :: None :: Some m :: fs →
     tables (run (delete_customer fk id) w).2 = tables w
     ∧ ((run (delete_customer fk id) w).1
          = Some (res_status_json 500 (JError m None))
        ∧ session (run (delete_customer fk id) w).2 = None
        ∨ (run (delete_customer fk id) w).1 = None)).
Proof.
  assert (∀ resp, (run (delete_customer fk id) w).1 = Some resp →
            session (run (delete_customer fk id) w).2 = None) as Hclosed.
  { apply (wp_run _ (λ o, ∀ resp, o.1 = Some resp → session o.2 = None)).
    eapply wp_mono; [| |apply delete_customer_closes]; simpl; [auto|done]. }
  split_and!.
  - apply (wp_run _ (λ o, tables o.2 = tables w ∧ o.1 ≠ Some customer_deleted
                          ∨ tables o.2 = cascade id (tables w)
                            ∧ o.1 = Some customer_deleted
                            ∧ customer_exists id (tables w))).
    eapply wp_mono; [| |apply delete_customer_all_or_nothing]; simpl.
    + intros r w' [[Ht Hr]|(Ht & -> & Hex)]; [left|by right].
      split; [done|]. by intros [= ->].
    + intros _ w' Ht. by left.
  - exact Hclosed.
  - intros Hc Hex.
    apply (wp_run _ (λ o, o.1 = Some customer_deleted
                          ∧ tables o.2 = cascade id (tables w))).
    eapply wp_mono; [| |by apply delete_customer_success]; simpl;
      [by intros r w' [-> ->]|done].
  - intros Hc Hno.
    assert ((run (delete_customer fk id) w).1 = Some customer_not_found
            ∧ tables (run (delete_customer fk id) w).2 = tables w) as [Hresp Hrows].
    { apply (wp_run _ (λ o, o.1 = Some customer_not_found ∧ tables o.2 = tables w)).
      eapply wp_mono; [| |by apply delete_customer_missing]; simpl;
        [by intros r w' [-> ->]|done]. }
    split_and!; [done|done|by eapply Hclosed].
  - intros m fs Hf.
    assert (tables (run (delete_customer fk id) w).2 = tables w
            ∧ ((run (delete_customer fk id) w).1
                 = Some (res_status_json 500 (JError m None))
               ∨ (run (delete_customer fk id) w).1 = None)) as [Hrows Hresp].
    { apply (wp_run _ (λ o, tables o.2 = tables w
                            ∧ (o.1 = Some (res_status_json 500 (JError m None))
                               ∨ o.1 = None))).
      eapply wp_mono; [| |by eapply delete_customer_forced_failure]; simpl;
        [intros r w' [-> ->]; by split; [|left]|intros _ w' ->; by split; [|right]]. }
    split; [done|]. destruct Hresp as [Hresp|Hresp]; [left|by right].
    split; [done|by eapply Hclosed].
Qed.

Lemma delete_customer_atomic_witness :
  (run (delete_customer true 1) sample_world).1 = Some customer_deleted
  ∧ tables (run (delete_customer true 1) sample_world).2
    = mkTables [bob; cy] [bob_oslo]
  ∧ (run (delete_customer true 9) sample_world).1 = Some customer_not_found
  ∧ session (run (delete_customer true 9) sample_world).2 = None
  ∧ tables (run (delete_customer true 1) failing_world).2 = tables failing_world
  ∧ session (run (delete_customer true 1) failing_world).2 = None.
Proof.
  destruct (delete_customer_atomic true 1 sample_world)
    as (_ & _ & Hok & _ & _).
  destruct (delete_customer_atomic true 9 sample_world)
    as (_ & _ & _ & Hmissing & _).
  destruct (delete_customer_atomic true 1 failing_world)
    as (_ & Hclosed & _ & _ & Hforced).
  assert (calm sample_world) as Hcalm by constructor.
  assert (customer_exists 1 (tables sample_world)) as Hex by decided.
  assert (¬ customer_exists 9 (tables sample_world)) as Hno by decided.
  destruct (Hok Hcalm Hex) as [Hresp Hrows].
  destruct (Hmissing Hcalm Hno) as (Hresp9 & _ & Hsession9).
  split; [exact Hresp|]. split; [rewrite Hrows; reflexivity|].
  split; [exact Hresp9|]. split; [exact Hsession9|].
  split; [exact (proj1 (Hforced "connection lost" [] eq_refl))|].
  exact (Hclosed (res_status_json 500 (JError "connection lost" None)) eq_refl).
Defined.

(** C3, at the failing input.  [POST /api/addresses] checks that the five
    fields are present and nothing else: an address whose pin code has two
    digits is inserted and answered with 201, although
    [POST /api/customers/:id/addresses] rejects the same address fields
    with the 400 of the pin-code check and leaves the world as it was. *)
Theorem post_address_accepts_short_pin :
  test_digits 6 (pin_code address_short_pin) = false
  ∧ (run (post_address true address_short_pin) sample_world).1
    = Some (res_status_json 201
              (JAddress (Some (mkAddress 4 1 "5 Quay" "Lyon" "FR" "12"))))
  ∧ addresses (tables (run (post_address true address_short_pin) sample_world).2)
    = [ann_paris; ann_rome; bob_oslo; mkAddress 4 1 "5 Quay" "Lyon" "FR" "12"]
  ∧ run (post_customer_address true 1 address_short_pin) sample_world
    = (Some (res_status_json 400 (JError "Pin code must be 6 digits." None)),
       sample_world).
Proof. repeat split. Qed.

(** C4, at the failing input.  [GET /api/customers/:id] is registered
    before [GET /api/customers/count], so a request for the count is given
    to the handler of the customer lookup, with the id [count], and is
    never counted: whatever the filters, the store and the way the store
    reads the id, the response is no count, and where the store does not
    read [count] as an id the response is a 500.  On the sample store the
    list with [addressCount=single] returns one customer, and the request
    for the count with the same filter is answered with the 500. *)
Theorem count_request_is_not_counted :
  (∀ ILIKE trim id_of addressCount q w,
     ∃ h, serve_get ILIKE trim id_of ["api"; "customers"; "count"] addressCount q
          = Some h
          ∧ (∀ n, (run h w).1 ≠ Some (res_json (JCount n)))
          ∧ (id_of "count" = None →
             ∃ resp, (run h w).1 = Some resp ∧ status resp = 500
                     ∧ is_error (json resp) = true))
  ∧ (∃ h, serve_get ilike js_trim decimal_id ["api"; "customers"]
            (Some "single") None = Some h
          ∧ (run h sample_world).1
            = Some (res_json
                      (JData [mkView 2 "Bob" "Ray" "1234567891" (Some 1) [bob_oslo]])))
  ∧ (∃ h, serve_get ilike js_trim decimal_id ["api"; "customers"; "count"]
            (Some "single") None = Some h
          ∧ (run h sample_world).1
            = Some (res_status_json 500
                      (JError "invalid input syntax for type integer" None))).
Proof.
  split_and!.
  - intros ILIKE trim id_of addressCount q w.
    exists (with_id id_of "count" get_customer). split; [reflexivity|].
    unfold with_id. destruct (id_of "count") as [id|]; split.
    + apply (wp_run _ (λ o, ∀ n, o.1 ≠ Some (res_json (JCount n)))).
      eapply wp_mono; [| |apply get_customer_no_count]; simpl; [|done].
      intros r w' Hr n [= ->]. by apply (Hr n).
    + done.
    + change (∀ n, (run (get_customer 0)
                      (set_faults (Some "invalid input syntax for type integer"
                                     :: faults w) w)).1
                   ≠ Some (res_json (JCount n))).
      apply (wp_run _ (λ o, ∀ n, o.1 ≠ Some (res_json (JCount n)))).
      eapply wp_mono; [| |apply get_customer_no_count]; simpl; [|done].
      intros r w' Hr n [= ->]. by apply (Hr n).
    + intros _.
      exists (res_status_json 500
                (JError "invalid input syntax for type integer" None)).
      split; [|by split].
      change ((run (get_customer 0)
                 (set_faults (Some "invalid input syntax for type integer"
                                :: faults w) w)).1
              = Some (res_status_json 500
                        (JError "invalid input syntax for type integer" None))).
      by rewrite (get_customer_first_call_fails 0 _
                    "invalid input syntax for type integer" (faults w)).
  - eexists. split; reflexivity.
  - eexists. split; reflexivity.
Qed.

(** C5, at the failing input.  Ann has two addresses and only one of them
    matches the search term: the search condition removes the other row of
    the join before the groups are counted, and the list with
    [addressCount=single] returns Ann, with one address. *)
Theorem single_filter_counts_matching_addresses :
  filter (λ a, a_customer_id a = 1) (addresses (tables sample_world))
    = [ann_paris; ann_rome]
  ∧ (run (get_customers ilike js_trim (Some "single") (Some "paris")) sample_world).1
    = Some (res_json
              (JData [mkView 1 "Ann" "Lee" "1234567890" (Some 1) [ann_paris]])).
Proof. split; reflexivity. Qed.

(** C6, as amended.  An update-customer request whose id matches no
    customer row leaves the rows and the sequences of the store as they
    were, so no address row is inserted, whatever address fields it
    carries; when its names and phone number pass the field validation and
    no store call fails, the response is the 404 not-found error. *)
Theorem update_missing_customer fk id b w :
  ¬ customer_exists id (tables w) →
  unchanged w (run (put_customer fk id b) w).2
  ∧ (update_valid b = true → calm w →
     (run (put_customer fk id b) w).1 = Some customer_not_found).
Proof.
  intros Hno. split.
  - apply (wp_run _ (λ o, unchanged w o.2)).
    by apply put_customer_missing_unchanged.
  - intros Hv Hc. apply (wp_run _ (λ o, o.1 = Some customer_not_found)).
    eapply wp_mono; [| |by apply put_customer_missing_not_found]; simpl;
      [by intros r w' ->|done].
Qed.

Lemma update_missing_customer_witness :
  (run (put_customer true 9 dee_full) sample_world).1 = Some customer_not_found
  ∧ unchanged sample_world (run (put_customer true 9 dee_full) sample_world).2.
Proof.
  assert (¬ customer_exists 9 (tables sample_world)) as Hno by decided.
  destruct (update_missing_customer true 9 dee_full sample_world Hno)
    as [Hsame Hresp].
  split; [|exact Hsame].
  apply Hresp; [reflexivity|constructor].
Defined.

(** C6, as stated, fails: the id matches no customer, the phone number has
    three digits, and the response is the 400 of the validation, not a 404. *)
Lemma update_missing_with_short_phone_is_400 :
  ¬ customer_exists 9 (tables sample_world)
  ∧ calm sample_world
  ∧ (run (put_customer true 9 short_phone) sample_world).1
    = Some (res_status_json 400 (JError "Phone number must be 10 digits." None)).
Proof. split; [decided|split; [constructor|reflexivity]]. Qed.

(** C7.  With the foreign key of [addresses.customer_id] that the data
    model declares, every write request keeps every address row attached
    to an existing customer row, whatever the store calls do: the two
    handlers that only insert an address make no check of their own, and
    an address for a customer that does not exist is refused by the
    store.  Where the customer ids are generated from the sequence, they
    stay a primary key and every address row then belongs to exactly one
    customer row.  The requests other than the two that only insert an
    address keep the address rows attached whether the store enforces the
    key or not. *)
Theorem address_rows_keep_their_customer r w :
  referential (tables w) →
  referential (tables (run (handle_write schema_foreign_key r) w).2)
  ∧ (keyed w →
     keyed (run (handle_write schema_foreign_key r) w).2
     ∧ ∀ a, a ∈ addresses (tables (run (handle_write schema_foreign_key r) w).2) →
         ∃ c, (c ∈ customers (tables (run (handle_write schema_foreign_key r) w).2)
               ∧ c_id c = a_customer_id a)
              ∧ ∀ c', c' ∈ customers
                             (tables (run (handle_write schema_foreign_key r) w).2)
                      ∧ c_id c' = a_customer_id a → c' = c)
  ∧ (∀ fk, address_only r = false →
       referential (tables (run (handle_write fk r) w).2)).
Proof.
  intros Hr.
  assert (∀ fk, fk = true ∨ address_only r = false →
            referential (tables (run (handle_write fk r) w).2)) as Hkept.
  { intros fk Hwhen. apply (wp_run _ (λ o, referential (tables o.2))).
    destruct r as [id b|b|id b|id|id|b|id b]; simpl.
    - by apply put_customer_referential.
    - destruct Hwhen as [Hfk|?]; [|done]. by apply post_address_referential.
    - by apply put_address_referential.
    - by apply delete_address_referential.
    - by apply delete_customer_referential.
    - by apply post_customer_referential.
    - destruct Hwhen as [Hfk|?]; [|done].
      by apply post_customer_address_referential. }
  assert (referential (tables (run (handle_write schema_foreign_key r) w).2)) as Hr'
    by (apply Hkept; by left).
  split_and!; [exact Hr'| |intros fk Hother; apply Hkept; by right].
  intros Hk.
  assert (keyed (run (handle_write schema_foreign_key r) w).2) as Hk'.
  { apply (wp_run _ (λ o, keyed o.2)). by apply handle_write_keyed. }
  split; [exact Hk'|]. intros a Ha.
  apply exactly_one_customer; [done|apply Hk'|done].
Qed.

Lemma sample_referential : referential (tables sample_world).
Proof.
  intros a Ha. simpl in Ha.
  repeat (apply elem_of_cons in Ha as [->|Ha]; [decided|]).
  by apply elem_of_nil in Ha.
Qed.

Lemma sample_keyed : keyed sample_world.
Proof.
  split; [decided|]. intros c Hc. simpl in Hc.
  repeat (apply elem_of_cons in Hc as [->|Hc]; [done|]).
  by apply elem_of_nil in Hc.
Qed.

Lemma address_rows_keep_their_customer_witness :
  referential (tables (run (handle_write schema_foreign_key
                              (PostCustomerAddress 9 address_full))
                           sample_world).2)
  ∧ addresses (tables (run (handle_write schema_foreign_key
                              (PostCustomerAddress 9 address_full))
                           sample_world).2)
    = [ann_paris; ann_rome; bob_oslo]
  ∧ keyed (run (handle_write schema_foreign_key (PostCustomer dee_full))
               sample_world).2
  ∧ referential (tables (run (handle_write false (PostCustomer dee_full))
                             sample_world).2).
Proof.
  destruct (address_rows_keep_their_customer (PostCustomerAddress 9 address_full)
              sample_world sample_referential) as (Hkept & _ & _).
  destruct (address_rows_keep_their_customer (PostCustomer dee_full)
              sample_world sample_referential) as (_ & Hkeyed & Hother).
  split_and!.
  - exact Hkept.
  - reflexivity.
  - exact (proj1 (Hkeyed sample_keyed)).
  - exact (Hother false eq_refl).
Defined.

(** C8, at the failing input.  The query of [GET /api/customers/search]
    for a search term selects [DISTINCT] over the [json] column of the
    aggregated addresses, which PostgreSQL refuses: for every term that is
    not blank the handler answers 500, whatever the store holds and
    whatever the store calls do, and so returns no row for the customers
    that match.  On the sample store the term [o] matches three customers,
    which the list handler returns one row each, and the search request
    with that term is answered with the error. *)
Theorem search_with_a_term_is_refused :
  (∀ trim q w,
     truthy (Some (trim (if truthy q then text q else EmptyString))) = true →
     ∃ resp, (run (get_customers_search trim q) w).1 = Some resp
             ∧ status resp = 500 ∧ is_error (json resp) = true)
  ∧ serve_get ilike js_trim decimal_id ["api"; "customers"; "search"] None (Some "o")
    = Some (get_customers_search js_trim (Some "o"))
  ∧ (run (get_customers_search js_trim (Some "o")) sample_world).1
    = Some (res_status_json 500
              (JError "could not identify an equality operator for type json" None))
  ∧ ∃ views,
      (run (get_customers ilike js_trim None (Some "o")) sample_world).1
        = Some (res_json (JData views))
      ∧ v_id <$> views = [3; 2; 1].
Proof.
  split_and!.
  - intros trim q w Hterm.
    apply (wp_run _ (λ o, ∃ resp, o.1 = Some resp ∧ status resp = 500
                                  ∧ is_error (json resp) = true)).
    eapply wp_mono; [| |by apply get_customers_search_refused]; simpl; [|done].
    intros resp w' (Hstatus & Herror & _). by exists resp.
  - reflexivity.
  - reflexivity.
  - eexists. split; reflexivity.
Qed.

(** C9.  The client leased for the transaction of update customer, create
    customer and delete customer is released on every exit path: whatever
    the request and whatever the store calls do, the handler ends with as
    many leased clients as it started with. *)
Theorem client_released_on_every_path fk id b w :
  leased (run (put_customer fk id b) w).2 = leased w
  ∧ leased (run (post_customer fk b) w).2 = leased w
  ∧ leased (run (delete_customer fk id) w).2 = leased w.
Proof.
  assert (∀ h w, keeps_lease h → leased (run h w).2 = leased w) as Hrun.
  { intros h w0 Hk. unfold run. specialize (Hk w0).
    by destruct (h w0) as [[r|e] w']. }
  split_and!; apply Hrun.
  - apply put_customer_keeps_lease.
  - apply post_customer_keeps_lease.
  - apply delete_customer_keeps_lease.
Qed.

(** C10, as amended.  An update-customer request whose address details
    are non-empty while the city, the state or the pin code is missing
    inserts no address row; when its names and phone number pass the field
    validation, its id matches a customer row and no store call fails, the
    response is the message "Customer and address updated successfully.". *)
Theorem partial_address_reported_as_updated fk id b w :
  truthy (address_details b) = true →
  truthy (city b) && truthy (state b) && truthy (pin_code b) = false →
  (addresses (tables (run (put_customer fk id b) w).2) = addresses (tables w)
   ∧ addresses_id_seq (run (put_customer fk id b) w).2 = addresses_id_seq w)
  ∧ (update_valid b = true → customer_exists id (tables w) → calm w →
     (run (put_customer fk id b) w).1 = Some updated_with_address).
Proof.
  intros Had Hrest. split.
  - apply (wp_run _ (λ o, addresses (tables o.2) = addresses (tables w)
                          ∧ addresses_id_seq o.2 = addresses_id_seq w)).
    by apply put_customer_partial_address_no_insert.
  - intros Hv Hex Hc. apply (wp_run _ (λ o, o.1 = Some updated_with_address)).
    eapply wp_mono; [| |by apply put_customer_partial_address_message]; simpl;
      [by intros r w' ->|done].
Qed.

Lemma partial_address_reported_as_updated_witness :
  (run (put_customer true 1 dee_partial) sample_world).1 = Some updated_with_address
  ∧ addresses (tables (run (put_customer true 1 dee_partial) sample_world).2)
    = [ann_paris; ann_rome; bob_oslo].
Proof.
  destruct (partial_address_reported_as_updated true 1 dee_partial sample_world
              eq_refl eq_refl) as [[Hrows _] Hresp].
  split; [|exact Hrows].
  apply Hresp; [reflexivity|decided|constructor].
Defined.

(** C10, as stated, fails: the address details are given and the city is
    missing, but the id matches no customer row, and the response is the
    404 not-found error, not the success message. *)
Lemma partial_address_for_missing_customer_is_404 :
  truthy (address_details dee_partial) = true
  ∧ truthy (city dee_partial) = false
  ∧ calm sample_world
  ∧ (run (put_customer true 9 dee_partial) sample_world).1 = Some customer_not_found.
Proof. split_and!; [reflexivity|reflexivity|constructor|reflexivity]. Qed.

(** * The rest of the handlers *)

(** ** Reads *)

Lemma pool_select {R} (rows : Tables → R) Q E w :
  (∀ w', same_store w w' → Q (rows (tables w)) w') →
  (∀ e w', same_store w w' → E e w') →
  wp (query pool (λ t, Returned (rows t, t))) Q E w.
Proof.
  intros HQ HE. destruct w as [t s cs a_s l fs].
  repeat (first [wp_step | wp_fault]; simpl);
    first [apply HQ | apply HE]; by repeat split.
Qed.

Lemma same_store_trans w1 w2 w3 :
  same_store w1 w2 → same_store w2 w3 → same_store w1 w3.
Proof. unfold same_store. intros (?&?&?&?&?) (?&?&?&?&?). split_and!; congruence. Qed.

Section ReadOnly.
Variable ILIKE : string → string → bool.
Variable trim : string → string.

Lemma handle_read_same_store r w :
  wp (handle_read ILIKE trim r)
     (λ resp w', same_store w w' ∧ well_formed_response resp)
     (λ _ _, False) w.
Proof.
  destruct r as [q|id|ac q|ac q|id]; simpl.
  - unfold get_customers_search, sql_search_customers, search_query.
    destruct (truthy (Some (trim (if truthy q then text q else EmptyString))));
      simpl.
    + destruct w as [t s cs a_s l fs].
      repeat (first [wp_step | wp_fault]; simpl);
        (split; [by repeat split|]); right; by split; [do 3 right|].
    + apply wp_try_catch, wp_bind, pool_select.
      * intros w' Hs. apply wp_ret. split; [done|]. left. by split; [left|].
      * intros e w' Hs. apply wp_ret. split; [done|]. right.
        by split; [do 3 right|].
  - unfold get_customer, sql_select_customer.
    apply wp_try_catch, wp_bind, pool_select.
    + intros w' Hs. destruct (filter _ (customers (tables w))) as [|row rest].
      * apply wp_ret. split; [done|]. right. split; [right; by left|done].
      * apply wp_bind. unfold sql_select_addresses_of. apply pool_select.
        -- intros w'' Hs'. apply wp_ret. split; [by eapply same_store_trans|].
           left. by split; [left|].
        -- intros e w'' Hs'. apply wp_ret. split; [by eapply same_store_trans|].
           right. by split; [do 3 right|].
    + intros e w' Hs. apply wp_ret. split; [done|]. right. by split; [do 3 right|].
  - unfold get_customers, sql_list_customers.
    apply wp_try_catch, wp_bind, pool_select.
    + intros w' Hs. apply wp_ret. split; [done|]. left. by split; [left|].
    + intros e w' Hs. apply wp_ret. split; [done|]. right. by split; [do 3 right|].
  - unfold get_customers_count, sql_count_customers.
    apply wp_try_catch, wp_bind, pool_select.
    + intros w' Hs. apply wp_ret. split; [done|]. left. by split; [left|].
    + intros e w' Hs. apply wp_ret. split; [done|]. right. by split; [do 3 right|].
  - unfold get_customer_addresses, sql_select_addresses_of.
    apply wp_try_catch, wp_bind, pool_select.
    + intros w' Hs. apply wp_ret. split; [done|]. left. by split; [left|].
    + intros e w' Hs. apply wp_ret. split; [done|]. right. by split; [do 3 right|].
Qed.

End ReadOnly.

(** ** Address rows *)

Lemma replaced_ids ad ci st pin id (l : list Address) :
  a_id <$> (replaced ad ci st pin id <$> l) = a_id <$> l
  ∧ a_customer_id <$> (replaced ad ci st pin id <$> l) = a_customer_id <$> l.
Proof.
  rewrite <- !list_fmap_compose. split; apply list_fmap_ext; intros i a _;
    unfold replaced; simpl; by destruct (decide (a_id a = id)).
Qed.

Lemma replaced_id ad ci st pin id a : a_id (replaced ad ci st pin id a) = a_id a.
Proof. unfold replaced. by destruct (decide (a_id a = id)). Qed.

Lemma replaced_ne ad ci st pin id a : a_id a ≠ id → replaced ad ci st pin id a = a.
Proof. intros Hne. unfold replaced. by rewrite decide_False. Qed.

Lemma replaced_eq ad ci st pin id a :
  a_id a = id → replaced ad ci st pin id a = mkAddress id (a_customer_id a) ad ci st pin.
Proof. intros Heq. unfold replaced. rewrite decide_True by done. by rewrite Heq. Qed.

Lemma replaced_others ad ci st pin id (l : list Address) :
  filter (λ a, a_id a ≠ id) (replaced ad ci st pin id <$> l)
  = filter (λ a, a_id a ≠ id) l.
Proof.
  induction l as [|a l IH]; [done|]. rewrite fmap_cons.
  destruct (decide (a_id a = id)) as [Heq|Hne].
  - rewrite !filter_cons_False; [done| |]; rewrite ?replaced_id; by intros H.
  - rewrite replaced_ne by done. rewrite !filter_cons_True by done. by rewrite IH.
Qed.

Lemma replaced_none ad ci st pin id (l : list Address) :
  id ∉ a_id <$> l → replaced ad ci st pin id <$> l = l.
Proof.
  induction l as [|a l IH]; [done|].
  rewrite !fmap_cons, not_elem_of_cons. intros [Hne Hl].
  rewrite replaced_ne by done. by rewrite IH.
Qed.

Lemma replaced_selected ad ci st pin id (l : list Address) :
  filter (λ a, a_id a = id) (replaced ad ci st pin id <$> l)
  = (λ a, mkAddress id (a_customer_id a) ad ci st pin) <$> filter (λ a, a_id a = id) l.
Proof.
  induction l as [|a l IH]; [done|]. rewrite fmap_cons.
  destruct (decide (a_id a = id)) as [Heq|Hne].
  - rewrite !filter_cons_True by (rewrite ?replaced_id; done).
    by rewrite fmap_cons, IH, replaced_eq.
  - rewrite replaced_ne by done. by rewrite !filter_cons_False.
Qed.

Lemma selected_addresses_empty id (l : list Address) :
  filter (λ a, a_id a = id) l = [] ↔ id ∉ a_id <$> l.
Proof.
  split.
  - intros Hnil (a & -> & Ha)%list_elem_of_fmap.
    eapply (filter_nil_not_elem_of _ _ a); [exact Hnil|done|done].
  - intros Hno. destruct (filter _ l) as [|a rest] eqn:Hf; [done|].
    assert (a ∈ filter (λ a, a_id a = id) l) as [Hid Ha]%list_elem_of_filter
      by (rewrite Hf; left).
    destruct Hno. apply list_elem_of_fmap. by exists a.
Qed.

Lemma tables_eta t : mkTables (customers t) (addresses t) = t.
Proof. by destruct t. Qed.

(** What [PUT /api/addresses/:id] never does, whatever the store does. *)
Lemma put_address_keeps id b w :
  wp (put_address id b)
     (λ _ w', customers (tables w') = customers (tables w)
              ∧ a_id <$> addresses (tables w') = a_id <$> addresses (tables w)
              ∧ a_customer_id <$> addresses (tables w')
                = a_customer_id <$> addresses (tables w)
              ∧ filter (λ a, a_id a ≠ id) (addresses (tables w'))
                = filter (λ a, a_id a ≠ id) (addresses (tables w)))
     (λ _ _, False) w.
Proof.
  unfold put_address. case_match; [by apply wp_ret|].
  destruct w as [t s cs a_s l fs]; simpl.
  fold (replaced (text (address_details b)) (text (city b)) (text (state b))
          (text (pin_code b)) id).
  repeat (first [wp_step | wp_fault | wp_case]; simpl); try done.
  all: split_and!; [done|apply replaced_ids..|apply replaced_others].
Qed.

Lemma put_address_calm id b w :
  address_present b = true → calm w →
  wp (put_address id b)
     (λ r w',
        match filter (λ a, a_id a = id) (addresses (tables w)) with
        | [] => r = address_not_found ∧ tables w' = tables w
        | old :: _ =>
          r = res_json (JAddress (Some (address_of id (a_customer_id old) b)))
          ∧ addresses (tables w')
            = replaced (text (address_details b)) (text (city b))
                (text (state b)) (text (pin_code b)) id <$> addresses (tables w)
        end ∧ calm w')
     (λ _ _, False) w.
Proof.
  intros Hp Hc. unfold address_present in Hp.
  repeat (apply andb_prop in Hp as [Hp ?]).
  unfold put_address.
  repeat match goal with H : _ = true |- _ => rewrite H; clear H end. simpl.
  repeat (first [wp_step | wp_calm]; simpl).
  change (λ a : Address, if decide (a_id a = id) then _ else a)
    with (replaced (text (address_details b)) (text (city b)) (text (state b))
            (text (pin_code b)) id).
  rewrite replaced_selected.
  destruct (filter (λ a, a_id a = id) (addresses (tables w))) as [|old rest] eqn:Hf.
  - simpl. apply wp_ret. split; [|done]. split; [done|]. simpl.
    apply selected_addresses_empty in Hf. rewrite replaced_none by done.
    apply tables_eta.
  - simpl. unfold rowCount. simpl. by apply wp_ret.
Qed.

Lemma filter_other_ids id (l : list Address) :
  id ∉ a_id <$> l → filter (λ a, a_id a ≠ id) l = l.
Proof.
  induction l as [|a rest IH]; [done|].
  rewrite fmap_cons, not_elem_of_cons. intros [Hne Hrest].
  rewrite filter_cons_True by done. by rewrite IH.
Qed.

Lemma delete_address_outcome id t r (t' : Tables) :
  (if rowCount (filter (λ a, a_id a = id) (addresses t)) =? 0
   then r = address_not_found else r = address_deleted) →
  t' = mkTables (customers t) (filter (λ a, a_id a ≠ id) (addresses t)) →
  t' = t ∧ r ≠ address_deleted
  ∨ t' = mkTables (customers t) (filter (λ a, a_id a ≠ id) (addresses t))
    ∧ r = address_deleted ∧ id ∈ a_id <$> addresses t.
Proof.
  intros Hr Ht.
  destruct (rowCount _ =? 0) eqn:Hrows.
  - left. apply rowCount_zero, selected_addresses_empty in Hrows.
    rewrite Ht, filter_other_ids, tables_eta by done. by subst r.
  - right. split_and!; [done..|].
    destruct (decide (id ∈ a_id <$> addresses t)) as [|Hno]; [done|].
    apply selected_addresses_empty in Hno. by rewrite Hno in Hrows.
Qed.

(** What [DELETE /api/addresses/:id] does, whatever the store does: the
    rows are as before, or the rows before without the addresses of that
    id, and then the response is the success message. *)
Lemma delete_address_all_or_nothing id w :
  wp (delete_address id)
     (λ r w', tables w' = tables w ∧ r ≠ address_deleted
              ∨ tables w'
                = mkTables (customers (tables w))
                    (filter (λ a, a_id a ≠ id) (addresses (tables w)))
                ∧ r = address_deleted ∧ id ∈ a_id <$> addresses (tables w))
     (λ _ _, False) w.
Proof.
  unfold delete_address.
  destruct w as [t s cs a_s l fs]; simpl.
  repeat (first [wp_step | wp_fault]; simpl); try (by left).
  all: match goal with
       | |- context [rowCount ?r =? 0] => destruct (rowCount r =? 0) eqn:Hrows
       end; apply wp_ret; simpl.
  all: apply delete_address_outcome; [by rewrite Hrows|done].
Qed.

Lemma delete_address_calm id w :
  calm w →
  wp (delete_address id)
     (λ r w', (if decide (id ∈ a_id <$> addresses (tables w))
               then r = address_deleted
                    ∧ tables w'
                      = mkTables (customers (tables w))
                          (filter (λ a, a_id a ≠ id) (addresses (tables w)))
               else r = address_not_found ∧ tables w' = tables w)
              ∧ calm w')
     (λ _ _, False) w.
Proof.
  intros Hc. unfold delete_address.
  repeat (first [wp_step | wp_calm]; simpl).
  destruct (decide (id ∈ a_id <$> addresses (tables w))) as [Hin|Hno].
  - rewrite rowCount_nonzero; [by apply wp_ret|].
    intros Hnil%selected_addresses_empty. by apply Hnil.
  - pose proof Hno as Hnil. apply selected_addresses_empty in Hnil.
    rewrite Hnil. simpl. apply wp_ret. split; [|done]. split; [done|]. simpl.
    by rewrite filter_other_ids, tables_eta.
Qed.

(** ** Failed writes *)

Ltac envelope :=
  first [ by (right; split; [auto|done]) | by (left; split; [auto|done]) ].

Section Failures.
Variable foreign_key : bool.

Lemma handle_write_failure r w :
  wp (handle_write foreign_key r)
     (λ resp w', (is_error (json resp) = true → tables w' = tables w)
                 ∧ well_formed_response resp)
     (λ _ w', tables w' = tables w) w.
Proof.
  destruct r as [id b|b|id b|id|id|b|id b]; simpl.
  - unfold put_customer.
    do 2 (case_match; [apply wp_ret; split; [done|envelope]|]).
    destruct w as [t s cs a_s l fs]; simpl in *.
    repeat (first [wp_step | wp_fault]; simpl); try done; try (split; [done|envelope]).
    all: match goal with
         | |- context [rowCount ?r =? 0] => destruct (rowCount r =? 0) eqn:Hrows
         end.
    all: repeat (first [wp_step | wp_fault | wp_case
                       | progress unfold sql_insert_address]; simpl);
      try done; try (split; [done|envelope]).
  - unfold post_address.
    case_match; [apply wp_ret; split; [done|envelope]|].
    destruct w as [t s cs a_s l fs]; simpl in *.
    repeat (first [wp_step | wp_fault | wp_case
                  | progress unfold sql_insert_address]; simpl);
      try done; try (split; [done|envelope]).
  - unfold put_address.
    case_match; [apply wp_ret; split; [done|envelope]|].
    destruct w as [t s cs a_s l fs]; simpl in *.
    repeat (first [wp_step | wp_fault]; simpl); try done; try (split; [done|envelope]).
    all: match goal with
         | |- context [rowCount ?r =? 0] => destruct (rowCount r =? 0) eqn:Hrows
         end; apply wp_ret; simpl; (split; [|envelope]); try done.
    all: intros _; apply rowCount_zero in Hrows.
    all: change (λ a : Address, if decide (a_id a = id) then _ else a)
           with (replaced (text (address_details b)) (text (city b))
                          (text (state b)) (text (pin_code b)) id) in Hrows.
    all: rewrite replaced_selected in Hrows.
    all: apply fmap_nil_inv, selected_addresses_empty in Hrows.
    all: change (λ a : Address, if decide (a_id a = id) then _ else a)
           with (replaced (text (address_details b)) (text (city b))
                          (text (state b)) (text (pin_code b)) id).
    all: rewrite replaced_none by done; apply tables_eta.
  - unfold delete_address.
    destruct w as [t s cs a_s l fs]; simpl in *.
    repeat (first [wp_step | wp_fault]; simpl); try done; try (split; [done|envelope]).
    all: match goal with
         | |- context [rowCount ?r =? 0] => destruct (rowCount r =? 0) eqn:Hrows
         end; apply wp_ret; simpl; (split; [|envelope]); try done.
    all: intros _; apply rowCount_zero, selected_addresses_empty in Hrows.
    all: by rewrite filter_other_ids, tables_eta.
  - unfold delete_customer.
    destruct w as [t s cs a_s l fs]; simpl in *.
    repeat (first [wp_step | wp_fault | progress unfold sql_delete_customer
                  | rewrite no_addresses_after_delete, andb_false_r]; simpl);
      try done; try (split; [done|envelope]).
    all: match goal with
         | |- context [rowCount ?r =? 0] => destruct (rowCount r =? 0) eqn:Hrows
         end;
      repeat (first [wp_step | wp_fault]; simpl); try done; try (split; [done|envelope]).
  - unfold post_customer.
    do 3 (case_match; [apply wp_ret; split; [done|envelope]|]).
    destruct w as [t s cs a_s l fs]; simpl in *.
    repeat (first [wp_step | wp_fault | wp_case
                  | progress unfold sql_insert_address]; simpl);
      try done; try (split; [done|envelope]).
  - unfold post_customer_address.
    do 2 (case_match; [apply wp_ret; split; [done|envelope]|]).
    destruct w as [t s cs a_s l fs]; simpl in *.
    repeat (first [wp_step | wp_fault | wp_case
                  | progress unfold sql_insert_address]; simpl);
      try done; try (split; [done|envelope]).
Qed.

End Failures.

(** ** What a successful write leaves *)

Lemma wp_returns (h : Async Response) (Q : Response → World → Prop) w :
  wp h Q (λ _ _, False) w → ∃ r w', run h w = (Some r, w') ∧ Q r w'.
Proof.
  unfold wp, run. destruct (h w) as [[r|e] w']; [|done].
  intros HQ. by exists r, w'.
Qed.

Lemma no_duplicate_rows b t :
  truthy (first_name b) = true → truthy (last_name b) = true →
  truthy (phone_number b) = true → ¬ duplicate_of b t →
  filter (same_triple (text (first_name b)) (text (last_name b))
            (text (phone_number b))) (customers t) = [].
Proof.
  intros Hf Hl Hp Hno.
  destruct (filter _ (customers t)) as [|c rest] eqn:Hrows; [done|].
  assert (c ∈ filter (same_triple (text (first_name b)) (text (last_name b))
                        (text (phone_number b))) (customers t))
    as [(H1 & H2 & H3) Hc]%list_elem_of_filter by (rewrite Hrows; left).
  destruct Hno. exists c.
  destruct (first_name b), (last_name b), (phone_number b); simpl in *; try done.
  by subst.
Qed.

Lemma new_customer_exists id c cs rows :
  c_id c = id →
  bool_decide (customer_exists id (mkTables (cs ++ [c]) rows)) = true.
Proof.
  intros Hid. apply bool_decide_eq_true. unfold customer_exists. simpl.
  rewrite fmap_app, elem_of_app. right. rewrite <- Hid. left.
Qed.

Section Success.
Variable foreign_key : bool.

Lemma post_customer_success b w :
  create_valid b = true → ¬ duplicate_of b (tables w) → calm w →
  wp (post_customer foreign_key b)
     (λ r w', r = customer_created (customers_id_seq w)
              ∧ tables w'
                = mkTables
                    (customers (tables w) ++ [customer_of (customers_id_seq w) b])
                    (addresses (tables w)
                       ++ [address_of (addresses_id_seq w) (customers_id_seq w) b])
              ∧ customers_id_seq w' = customers_id_seq w + 1
              ∧ addresses_id_seq w' = addresses_id_seq w + 1
              ∧ calm w')
     (λ _ _, False) w.
Proof.
  intros Hv Hno Hc.
  unfold create_valid in Hv. repeat (apply andb_prop in Hv as [Hv ?]).
  assert (filter (same_triple (text (first_name b)) (text (last_name b))
                    (text (phone_number b))) (customers (tables w)) = []) as Hrows
    by (by apply no_duplicate_rows).
  unfold post_customer.
  repeat match goal with H : _ = true |- _ => rewrite H; clear H end. simpl.
  repeat (first [wp_step | wp_calm | progress unfold sql_insert_address
                | rewrite Hrows
                | rewrite new_customer_exists by done
                | rewrite andb_false_r]; simpl).
  done.
Qed.

Lemma put_customer_success id b w :
  update_valid b = true → customer_exists id (tables w) → calm w →
  wp (put_customer foreign_key id b)
     (λ r w', r = customer_updated b
              ∧ tables w'
                = mkTables
                    (renamed (text (first_name b)) (text (last_name b))
                       (text (phone_number b)) id <$> customers (tables w))
                    (if address_present b
                     then addresses (tables w)
                            ++ [address_of (addresses_id_seq w) id b]
                     else addresses (tables w))
              ∧ customers_id_seq w' = customers_id_seq w
              ∧ calm w')
     (λ _ _, False) w.
Proof.
  intros Hv Hex Hc.
  unfold update_valid in Hv. repeat (apply andb_prop in Hv as [Hv ?]).
  pose proof (rowCount_nonzero _ (updated_rows_some (text (first_name b))
                (text (last_name b)) (text (phone_number b)) id
                (customers (tables w)) Hex)) as Hrows.
  pose proof (updated_customer_exists (text (first_name b))
                (text (last_name b)) (text (phone_number b)) id
                (tables w) Hrows) as Hex'.
  apply (bool_decide_eq_true_2 _) in Hex'.
  unfold put_customer, address_present.
  repeat match goal with H : _ = true |- _ => rewrite H; clear H end. simpl.
  repeat (first [wp_step | wp_calm | rewrite Hrows]; simpl).
  destruct (truthy (address_details b) && truthy (city b) && truthy (state b)
            && truthy (pin_code b)) eqn:Hfull.
  - repeat (first [wp_step | wp_calm | progress unfold sql_insert_address
                  | rewrite Hex' | rewrite andb_false_r]; simpl).
    done.
  - repeat (first [wp_step | wp_calm]; simpl). done.
Qed.

(** The two endpoints that insert one address row. *)
Lemma insert_address_success cid ad ci st pin w Q E :
  foreign_key = false ∨ customer_exists cid (tables w) → calm w →
  (∀ w', tables w'
         = mkTables (customers (tables w))
             (addresses (tables w) ++ [mkAddress (addresses_id_seq w) cid ad ci st pin]) →
         addresses_id_seq w' = addresses_id_seq w + 1 →
         customers_id_seq w' = customers_id_seq w → calm w' →
         Q [mkAddress (addresses_id_seq w) cid ad ci st pin] w') →
  wp (insert_address foreign_key pool cid ad ci st pin) Q E w.
Proof.
  intros Hfk Hc HQ.
  assert (foreign_key && negb (bool_decide (customer_exists cid (tables w))) = false)
    as Hcheck.
  { destruct Hfk as [->|Hex]; [done|].
    rewrite bool_decide_eq_true_2 by done. apply andb_false_r. }
  repeat (first [wp_step | wp_calm | progress unfold sql_insert_address
                | rewrite Hcheck]; simpl).
  by apply HQ.
Qed.

Lemma insert_address_refused cid ad ci st pin w Q E :
  foreign_key = true → ¬ customer_exists cid (tables w) → calm w →
  (∀ e w', tables w' = tables w → calm w' → E e w') →
  wp (insert_address foreign_key pool cid ad ci st pin) Q E w.
Proof.
  intros Hfk Hno Hc HQ. rewrite Hfk.
  repeat (first [wp_step | wp_calm | progress unfold sql_insert_address
                | rewrite bool_decide_eq_false_2 by done]; simpl).
  by apply HQ.
Qed.

Lemma post_address_success b w :
  truthy_num (customer_id b) = true → address_present b = true →
  foreign_key = false ∨ customer_exists (default 0 (customer_id b)) (tables w) →
  calm w →
  wp (post_address foreign_key b)
     (λ r w', r = res_status_json 201
                    (JAddress (Some (address_of (addresses_id_seq w)
                                       (default 0 (customer_id b)) b)))
              ∧ tables w'
                = mkTables (customers (tables w))
                    (addresses (tables w)
                       ++ [address_of (addresses_id_seq w)
                             (default 0 (customer_id b)) b])
              ∧ calm w')
     (λ _ _, False) w.
Proof.
  intros Hcid Hp Hfk Hc. unfold address_present in Hp.
  repeat (apply andb_prop in Hp as [Hp ?]).
  unfold post_address.
  repeat match goal with H : _ = true |- _ => rewrite H; clear H end. simpl.
  apply wp_try_catch, wp_bind, insert_address_success; [done..|].
  intros w' Ht _ _ Hc'. by apply wp_ret.
Qed.

Lemma post_customer_address_success id b w :
  address_present b = true → test_digits 6 (pin_code b) = true →
  foreign_key = false ∨ customer_exists id (tables w) → calm w →
  wp (post_customer_address foreign_key id b)
     (λ r w', r = res_status_json 201 (JAddressAdded "Address added" (addresses_id_seq w))
              ∧ tables w'
                = mkTables (customers (tables w))
                    (addresses (tables w) ++ [address_of (addresses_id_seq w) id b])
              ∧ calm w')
     (λ _ _, False) w.
Proof.
  intros Hp Hpin Hfk Hc. unfold address_present in Hp.
  repeat (apply andb_prop in Hp as [Hp ?]).
  unfold post_customer_address.
  repeat match goal with H : _ = true |- _ => rewrite H; clear H end. simpl.
  apply wp_try_catch, wp_bind, insert_address_success; [done..|].
  intros w' Ht _ _ Hc'. repeat (wp_step; simpl). done.
Qed.

Lemma address_insert_refused r w :
  foreign_key = true → calm w →
  match r with
  | PostAddress b =>
    truthy_num (customer_id b) = true ∧ address_present b = true
    ∧ ¬ customer_exists (default 0 (customer_id b)) (tables w)
  | PostCustomerAddress id b =>
    address_present b = true ∧ test_digits 6 (pin_code b) = true
    ∧ ¬ customer_exists id (tables w)
  | _ => False
  end →
  wp (handle_write foreign_key r)
     (λ resp w', status resp = 500 ∧ tables w' = tables w)
     (λ _ _, False) w.
Proof.
  intros Hfk Hc Hr.
  destruct r as [id b|b|id b|id|id|b|id b]; try done; simpl.
  - destruct Hr as (Hcid & Hp & Hno). unfold address_present in Hp.
    repeat (apply andb_prop in Hp as [Hp ?]).
    unfold post_address.
    revert Hfk.
    repeat match goal with H : _ = true |- _ => rewrite H; clear H end. simpl.
    intros Hfk.
    apply wp_try_catch, wp_bind, insert_address_refused; [done..|].
    intros e w' Ht Hc'. by apply wp_ret.
  - destruct Hr as (Hp & Hpin & Hno). unfold address_present in Hp.
    repeat (apply andb_prop in Hp as [Hp ?]).
    unfold post_customer_address.
    revert Hfk.
    repeat match goal with H : _ = true |- _ => rewrite H; clear H end. simpl.
    intros Hfk.
    apply wp_try_catch, wp_bind, insert_address_refused; [done..|].
    intros e w' Ht Hc'. by apply wp_ret.
Qed.

End Success.

(** ** Reading one customer *)

Lemma get_customer_calm id w :
  calm w →
  wp (get_customer id)
     (λ r w', match filter (λ c, c_id c = id) (customers (tables w)) with
              | [] => r = res_status_json 404 (JError "Customer not found" None)
              | c :: _ =>
                r = res_json (JCustomer c
                      (filter (λ a, a_customer_id a = id) (addresses (tables w))))
              end ∧ tables w' = tables w ∧ calm w')
     (λ _ _, False) w.
Proof.
  intros Hc. unfold get_customer.
  repeat (first [wp_step | wp_calm]; simpl).
  destruct (filter (λ c, c_id c = id) (customers (tables w))) as [|c rest].
  - by apply wp_ret.
  - repeat (first [wp_step | wp_calm]; simpl). done.
Qed.

Lemma get_customer_addresses_calm id w :
  calm w →
  wp (get_customer_addresses id)
     (λ r w', r = res_json (JAddresses
                    (filter (λ a, a_customer_id a = id) (addresses (tables w))))
              ∧ tables w' = tables w ∧ calm w')
     (λ _ _, False) w.
Proof.
  intros Hc. unfold get_customer_addresses.
  repeat (first [wp_step | wp_calm]; simpl). done.
Qed.

(** ** The primary key of the addresses *)

Lemma address_keyed_step w0 w :
  address_keyed w0 → addresses_step w0 w →
  addresses_id_seq w0 ≤ addresses_id_seq w → address_keyed w.
Proof.
  unfold address_keyed. intros [Hpk Hlt] Hshape Hle.
  assert (∀ a, a ∈ addresses (tables w0) → a_id a < addresses_id_seq w) as Hlt'
    by (intros a Ha; specialize (Hlt a Ha); lia).
  destruct Hshape as [Hsame|[(P & HP & ->)|(row & -> & Hid & Hnew)]].
  - rewrite Hsame. split; [done|]. intros a Ha.
    assert (a_id a ∈ a_id <$> addresses (tables w0))
      as (a' & -> & Ha')%list_elem_of_fmap.
    { rewrite <- Hsame. apply list_elem_of_fmap. by exists a. }
    auto.
  - split.
    + apply (sublist_NoDup _ (a_id <$> addresses (tables w0))); [done|].
      apply fmap_sublist, sublist_filter.
    + intros a [_ Ha]%list_elem_of_filter. auto.
  - split.
    + rewrite fmap_app. apply NoDup_app. split_and!; [done| |apply NoDup_singleton].
      intros x (a & Hx & Ha)%list_elem_of_fmap Hin.
      apply list_elem_of_singleton in Hin. simpl in Hin.
      specialize (Hlt a Ha). lia.
    + intros a [Ha| ->%list_elem_of_singleton]%elem_of_app; [auto|lia].
Qed.

Ltac address_keyed_goal Hk :=
  eapply address_keyed_step; [exact Hk| |simpl; lia];
  unfold addresses_step; simpl;
  first [ by left
        | left; by apply replaced_ids
        | right; left; by eexists _, _
        | right; right; eexists; split; [reflexivity|split; [reflexivity|lia]] ].

Section AddressKeys.
Variable foreign_key : bool.

Lemma handle_write_address_keyed r w :
  address_keyed w →
  wp (handle_write foreign_key r)
     (λ _ w', address_keyed w') (λ _ w', address_keyed w') w.
Proof.
  intros Hk.
  destruct r as [id b|b|id b|id|id|b|id b]; simpl.
  - unfold put_customer.
    do 2 (case_match; [by apply wp_ret|]).
    repeat (first [wp_step | wp_fault | wp_case
                  | progress unfold sql_insert_address]; simpl);
      address_keyed_goal Hk.
  - unfold post_address.
    case_match; [by apply wp_ret|].
    repeat (first [wp_step | wp_fault | wp_case
                  | progress unfold sql_insert_address]; simpl);
      address_keyed_goal Hk.
  - unfold put_address.
    case_match; [by apply wp_ret|].
    repeat (first [wp_step | wp_fault | wp_case]; simpl);
      change (λ a : Address, if decide (a_id a = id) then _ else a)
        with (replaced (text (address_details b)) (text (city b))
                       (text (state b)) (text (pin_code b)) id);
      address_keyed_goal Hk.
  - unfold delete_address.
    repeat (first [wp_step | wp_fault | wp_case]; simpl); address_keyed_goal Hk.
  - unfold delete_customer.
    repeat (first [wp_step | wp_fault | wp_case
                  | progress unfold sql_delete_customer]; simpl);
      address_keyed_goal Hk.
  - unfold post_customer.
    do 3 (case_match; [by apply wp_ret|]).
    repeat (first [wp_step | wp_fault | wp_case
                  | progress unfold sql_insert_address]; simpl);
      address_keyed_goal Hk.
  - unfold post_customer_address.
    do 2 (case_match; [by apply wp_ret|]).
    repeat (first [wp_step | wp_fault | wp_case
                  | progress unfold sql_insert_address]; simpl);
      address_keyed_goal Hk.
Qed.

End AddressKeys.

(** ** What the checks guarantee of the stored rows *)

Lemma truthy_text x : truthy x = true → text x ≠ EmptyString.
Proof.
  destruct x as [s|]; [|done]. simpl. intros Hs ->. done.
Qed.

Lemma test_digits_text n x :
  test_digits n x = true → test_digits n (Some (text x)) = true.
Proof. by destruct x. Qed.

Lemma validated_renamed fn ln ph id t :
  fn ≠ EmptyString → ln ≠ EmptyString → test_digits 10 (Some ph) = true →
  validated t →
  validated (mkTables (renamed fn ln ph id <$> customers t) (addresses t)).
Proof.
  intros Hf Hl Hp [Hcs Has]. split; [|done]. simpl.
  apply Forall_fmap. eapply Forall_impl; [exact Hcs|].
  intros c Hc. simpl. unfold renamed. by destruct (decide (c_id c = id)).
Qed.

Lemma validated_replaced ad ci st pin id t :
  ad ≠ EmptyString → ci ≠ EmptyString → st ≠ EmptyString → pin ≠ EmptyString →
  validated t →
  validated (mkTables (customers t) (replaced ad ci st pin id <$> addresses t)).
Proof.
  intros Had Hci Hst Hpin [Hcs Has]. split; [done|]. simpl.
  apply Forall_fmap. eapply Forall_impl; [exact Has|].
  intros a Ha. simpl. unfold replaced. by destruct (decide (a_id a = id)).
Qed.

Lemma validated_insert_address row t :
  valid_address row → validated t →
  validated (mkTables (customers t) (addresses t ++ [row])).
Proof.
  intros Hrow [Hcs Has]. split; [done|]. simpl.
  apply Forall_app. split; [done|]. by apply Forall_singleton.
Qed.

Lemma validated_insert_customer c t :
  valid_customer c → validated t →
  validated (mkTables (customers t ++ [c]) (addresses t)).
Proof.
  intros Hc [Hcs Has]. split; [|done]. simpl.
  apply Forall_app. split; [done|]. by apply Forall_singleton.
Qed.

Lemma Forall_filtered {A} (P R : A → Prop) `{∀ x, Decision (R x)} (l : list A) :
  Forall P l → Forall P (filter R l).
Proof.
  rewrite !Forall_forall. intros Hl x [_ Hx]%list_elem_of_filter. auto.
Qed.

Lemma validated_filter (P : Customer → Prop) (R : Address → Prop)
    `{∀ c, Decision (P c)} `{∀ a, Decision (R a)} t :
  validated t →
  validated (mkTables (filter P (customers t)) (filter R (addresses t))).
Proof.
  intros [Hcs Has]. split; simpl; by apply Forall_filtered.
Qed.

Lemma validated_filter_addresses (R : Address → Prop) `{∀ a, Decision (R a)} t :
  validated t → validated (mkTables (customers t) (filter R (addresses t))).
Proof.
  intros [Hcs Has]. split; simpl; [done|by apply Forall_filtered].
Qed.

Lemma validated_filter_customers (P : Customer → Prop) `{∀ c, Decision (P c)} cs rows :
  validated (mkTables cs rows) → validated (mkTables (filter P cs) rows).
Proof.
  intros [Hcs Has]. split; simpl in *; [by apply Forall_filtered|done].
Qed.

(** The presence checks of a handler, read back from its guard. *)
Ltac checked :=
  repeat match goal with
         | H : _ || _ = false |- _ => apply orb_false_elim in H as [H ?]
         | H : _ && _ = true |- _ => apply andb_prop in H as [H ?]
         | H : negb _ = false |- _ => apply negb_false_iff in H
         end.

Ltac valid_row :=
  repeat split; simpl;
  first [ by apply truthy_text | by apply test_digits_text ].

Ltac validated_goal Hv :=
  simpl;
  first
    [ exact Hv
    | apply validated_renamed; [valid_row..|exact Hv]
    | apply (validated_insert_address (mkAddress _ _ _ _ _ _) (mkTables _ _));
      [valid_row|apply validated_renamed; [valid_row..|exact Hv]]
    | apply (validated_insert_address (mkAddress _ _ _ _ _ _)); [valid_row|exact Hv]
    | apply validated_replaced; [valid_row..|exact Hv]
    | by apply validated_filter_addresses
    | by apply (validated_filter_customers _ _ _), validated_filter_addresses
    | by apply validated_filter
    | apply (validated_insert_address (mkAddress _ _ _ _ _ _) (mkTables _ _));
      [valid_row|apply (validated_insert_customer (mkCustomer _ _ _ _));
                 [valid_row|exact Hv]] ].

Section Validated.
Variable foreign_key : bool.

Lemma handle_write_validated r w :
  validated (tables w) →
  wp (handle_write foreign_key r)
     (λ _ w', validated (tables w')) (λ _ w', validated (tables w')) w.
Proof.
  intros Hv.
  destruct r as [id b|b|id b|id|id|b|id b]; simpl.
  - unfold put_customer.
    do 2 (case_match; [by apply wp_ret|]). checked.
    destruct w as [t s cs a_s l fs]; simpl in *.
    fold (renamed (text (first_name b)) (text (last_name b))
            (text (phone_number b)) id).
    repeat (first [wp_step | wp_fault | wp_case
                  | progress unfold sql_insert_address]; simpl);
      checked; validated_goal Hv.
  - unfold post_address.
    case_match; [by apply wp_ret|]. checked.
    destruct w as [t s cs a_s l fs]; simpl in *.
    repeat (first [wp_step | wp_fault | wp_case
                  | progress unfold sql_insert_address]; simpl);
      validated_goal Hv.
  - unfold put_address.
    case_match; [by apply wp_ret|]. checked.
    destruct w as [t s cs a_s l fs]; simpl in *.
    fold (replaced (text (address_details b)) (text (city b)) (text (state b))
            (text (pin_code b)) id).
    repeat (first [wp_step | wp_fault | wp_case]; simpl); validated_goal Hv.
  - unfold delete_address.
    destruct w as [t s cs a_s l fs]; simpl in *.
    repeat (first [wp_step | wp_fault | wp_case]; simpl); validated_goal Hv.
  - unfold delete_customer.
    destruct w as [t s cs a_s l fs]; simpl in *.
    repeat (first [wp_step | wp_fault | wp_case
                  | progress unfold sql_delete_customer]; simpl);
      validated_goal Hv.
  - unfold post_customer.
    do 3 (case_match; [by apply wp_ret|]). checked.
    destruct w as [t s cs a_s l fs]; simpl in *.
    repeat (first [wp_step | wp_fault | wp_case
                  | progress unfold sql_insert_address]; simpl);
      validated_goal Hv.
  - unfold post_customer_address.
    do 2 (case_match; [by apply wp_ret|]). checked.
    destruct w as [t s cs a_s l fs]; simpl in *.
    repeat (first [wp_step | wp_fault | wp_case
                  | progress unfold sql_insert_address]; simpl);
      validated_goal Hv.
Qed.

End Validated.

(** ** Reading back what was written *)

Lemma delete_customer_calm fk id w :
  customer_exists id (tables w) → calm w →
  wp (delete_customer fk id)
     (λ r w', r = customer_deleted ∧ tables w' = cascade id (tables w) ∧ calm w')
     (λ _ _, False) w.
Proof.
  intros Hex Hc. unfold delete_customer.
  assert ((rowCount (filter (λ c, c_id c = id) (customers (tables w))) =? 0) = false) as Hrows.
  { apply rowCount_nonzero. intros Hnil%selected_rows_empty. by apply Hnil. }
  repeat (first [wp_step | wp_calm
                | progress unfold sql_delete_customer
                | rewrite no_addresses_after_delete, andb_false_r
                | rewrite Hrows]; simpl).
  done.
Qed.

Lemma new_customer_selected w c :
  keyed w → c_id c = customers_id_seq w →
  filter (λ c', c_id c' = customers_id_seq w) (customers (tables w) ++ [c])%list = [c].
Proof.
  intros [_ Hlt] Hid. rewrite filter_app, filter_cons_True, filter_nil by done.
  rewrite (proj2 (selected_rows_empty _ _)); [done|].
  intros (c' & Heq & Hc')%list_elem_of_fmap. specialize (Hlt c' Hc'). lia.
Qed.

Lemma no_address_of_next_customer w :
  keyed w → referential (tables w) →
  filter (λ a, a_customer_id a = customers_id_seq w) (addresses (tables w)) = [].
Proof.
  intros [_ Hlt] Hr.
  destruct (filter _ (addresses (tables w))) as [|a rest] eqn:Hf; [done|].
  assert (a ∈ filter (λ a, a_customer_id a = customers_id_seq w)
                (addresses (tables w))) as [Hid Ha]%list_elem_of_filter
    by (rewrite Hf; left).
  specialize (Hr a Ha). apply list_elem_of_fmap in Hr as (c & Heq & Hc).
  specialize (Hlt c Hc). lia.
Qed.

Lemma created_is_duplicate b t id rows :
  truthy (first_name b) = true → truthy (last_name b) = true →
  truthy (phone_number b) = true →
  duplicate_of b (mkTables (customers t ++ [customer_of id b]) rows).
Proof.
  intros Hf Hl Hp. exists (customer_of id b). simpl.
  split; [apply elem_of_app; right; left|].
  by destruct (first_name b), (last_name b), (phone_number b).
Qed.

Lemma cascade_no_customer id t : ¬ customer_exists id (cascade id t).
Proof.
  unfold customer_exists, cascade. simpl.
  intros (c & -> & [Hne _]%list_elem_of_filter)%list_elem_of_fmap. done.
Qed.

Lemma cascade_no_addresses id t :
  filter (λ a, a_customer_id a = id) (addresses (cascade id t)) = [].
Proof.
  unfold cascade. simpl.
  destruct (filter _ (filter _ (addresses t))) as [|a rest] eqn:Hf; [done|].
  assert (a ∈ filter (λ a, a_customer_id a = id)
                (filter (λ a, a_customer_id a ≠ id) (addresses t)))
    as [Hid [Hne _]%list_elem_of_filter]%list_elem_of_filter
    by (rewrite Hf; left).
  done.
Qed.

Lemma renamed_selected fn ln ph id t :
  primary_key t → customer_exists id t →
  filter (λ c, c_id c = id) (renamed fn ln ph id <$> customers t)
  = [mkCustomer id fn ln ph].
Proof.
  intros Hpk (c & -> & Hc)%list_elem_of_fmap.
  assert (∀ l : list Customer,
            filter (λ c', c_id c' = c_id c) (renamed fn ln ph (c_id c) <$> l)
               = (λ _, mkCustomer (c_id c) fn ln ph)
                   <$> filter (λ c', c_id c' = c_id c) l) as Hsel.
  { induction l as [|x l IH]; [done|]. rewrite fmap_cons. unfold renamed at 1.
    destruct (decide (c_id x = c_id c)) as [Heq|Hne].
    - rewrite !filter_cons_True by done. by rewrite fmap_cons, IH, Heq.
    - rewrite !filter_cons_False by done. exact IH. }
  rewrite Hsel, primary_key_select by done. done.
Qed.

(** ** The address count of a list row *)

Lemma nested_length (g : list JoinRow) :
  Z.of_nat (length (omap id (snd <$> g))) = count_a_id g.
Proof.
  unfold count_a_id. f_equal.
  induction g as [|[c oa] g IH]; [done|]. rewrite fmap_cons.
  destruct oa as [a|].
  - rewrite filter_cons_True by (simpl; by eexists). simpl. f_equal. exact IH.
  - rewrite filter_cons_False by (simpl; by intros [? ?]). simpl. exact IH.
Qed.

Lemma select_list_row_count g row :
  select_list_row g = Some row →
  r_address_count row = Z.of_nat (length (v_addresses (list_view row))).
Proof.
  unfold select_list_row. destruct g as [k [|[c oa] rest]]; [done|].
  cbn [snd]. intros [= <-].
  cbn [list_view v_addresses r_address_count r_addresses].
  symmetry. apply (nested_length ((c, oa) :: rest)).
Qed.

Section Counting.
Variable ILIKE : string → string → bool.
Variable trim : string → string.

Lemma list_view_count addressCount searchTerm t v :
  v ∈ list_view <$> list_query ILIKE trim addressCount searchTerm t →
  v_address_count v = Some (Z.of_nat (length (v_addresses v))).
Proof.
  intros (row & -> & Hrow)%list_elem_of_fmap. revert Hrow.
  unfold list_query. rewrite order_by_id_desc_perm.
  intros (g & _ & Hsel)%list_elem_of_omap.
  simpl. f_equal. by eapply select_list_row_count.
Qed.

End Counting.

(** ** Search and list *)

Lemma descending_ids_unique (l1 l2 : list Z) :
  NoDup l1 → NoDup l2 →
  StronglySorted (λ x y, y ≤ x) l1 → StronglySorted (λ x y, y ≤ x) l2 →
  (∀ x, x ∈ l1 ↔ x ∈ l2) → l1 = l2.
Proof.
  intros Hn1 Hn2 Hs1 Hs2 Hsame.
  assert (AntiSymm (=) (λ x y : Z, y ≤ x)) by (intros x y ? ?; lia).
  apply (StronglySorted_unique (λ x y : Z, y ≤ x)); [done..|].
  by apply NoDup_Permutation.
Qed.

Section SearchAndList.
Variable ILIKE : string → string → bool.
Variable trim : string → string.

Lemma unfiltered_list_ids addressCount q t :
  primary_key t → has_search trim q = false →
  addressCount ≠ Some "single" → addressCount ≠ Some "multiple" →
  v_id <$> (list_view <$> list_query ILIKE trim addressCount q t)
  ≡ₚ c_id <$> customers t.
Proof.
  intros Hpk Hno Hs Hm.
  destruct (list_views_one_row_each ILIKE trim addressCount q t) as [Hn _].
  apply NoDup_Permutation; [done..|].
  intros x. split.
  - intros (v & -> & Hv)%list_elem_of_fmap.
    apply list_views_sound in Hv as (c & Hc & _ & ->).
    apply list_elem_of_fmap. by exists c.
  - intros (c & -> & Hc)%list_elem_of_fmap.
    apply list_views_complete; [done..|]. unfold listed. by rewrite Hno.
Qed.

Lemma blank_term_no_search q :
  truthy (Some (trim (if truthy q then text q else EmptyString))) = false →
  has_search trim q = false.
Proof.
  unfold has_search. destruct q as [s|]; [|done].
  destruct (truthy (Some s)) eqn:Hs; [|done]. simpl. by intros ->.
Qed.

Lemma blank_search_list_same_ids q t :
  primary_key t →
  truthy (Some (trim (if truthy q then text q else EmptyString))) = false →
  v_id <$> (search_view <$> search_all t)
  = v_id <$> (list_view <$> list_query ILIKE trim None q t).
Proof.
  intros Hpk Hblank.
  destruct (search_views_one_row_each t Hpk) as [Hn1 Hs1].
  destruct (list_views_one_row_each ILIKE trim None q t) as [Hn2 Hs2].
  apply descending_ids_unique; [done..|].
  pose proof (unfiltered_list_ids None q t Hpk (blank_term_no_search q Hblank))
    as Hlist.
  intros x. by rewrite search_views_ids, Hlist.
Qed.

Lemma unfiltered_count addressCount q t :
  primary_key t → has_search trim q = false → truthy addressCount = false →
  count_query ILIKE trim addressCount q t = Z.of_nat (length (customers t)).
Proof.
  intros Hpk Hno Hf.
  assert (addressCount ≠ Some "single") as Hs by (by intros ->).
  assert (addressCount ≠ Some "multiple") as Hm by (by intros ->).
  rewrite count_query_agrees by (by right; right). f_equal.
  pose proof (unfiltered_list_ids addressCount q t Hpk Hno Hs Hm) as Hperm.
  apply Permutation_length in Hperm. by rewrite !length_fmap in Hperm.
Qed.

End SearchAndList.

(** ** Transactions, whatever the store does *)

Lemma create_valid_checked b :
  negb (truthy (first_name b)) || negb (truthy (last_name b))
  || negb (truthy (phone_number b)) || negb (truthy (address_details b))
  || negb (truthy (city b)) || negb (truthy (state b))
  || negb (truthy (pin_code b)) = false →
  negb (test_digits 10 (phone_number b)) = false →
  negb (test_digits 6 (pin_code b)) = false →
  create_valid b = true.
Proof.
  intros H1 H2 H3. checked. unfold create_valid.
  repeat match goal with H : _ = true |- _ => rewrite H; clear H end. done.
Qed.

Lemma update_valid_checked b :
  negb (truthy (first_name b)) || negb (truthy (last_name b))
  || negb (truthy (phone_number b)) = false →
  negb (test_digits 10 (phone_number b)) = false →
  update_valid b = true.
Proof.
  intros H1 H2. checked. unfold update_valid.
  repeat match goal with H : _ = true |- _ => rewrite H; clear H end. done.
Qed.

Lemma no_rows_no_duplicate b t :
  (0 <? rowCount (c_id <$> filter (same_triple (text (first_name b))
                     (text (last_name b)) (text (phone_number b))) (customers t))) = false →
  ¬ duplicate_of b t.
Proof. intros Hrows Hdup%duplicate_rowCount. congruence. Qed.

Section Transactions.
Variable foreign_key : bool.

Lemma post_customer_all_or_nothing b w :
  wp (post_customer foreign_key b)
     (λ r w', tables w' = tables w ∧ is_error (json r) = true
              ∨ r = customer_created (customers_id_seq w)
                ∧ tables w'
                  = mkTables
                      (customers (tables w) ++ [customer_of (customers_id_seq w) b])
                      (addresses (tables w)
                         ++ [address_of (addresses_id_seq w) (customers_id_seq w) b])
                ∧ create_valid b = true ∧ ¬ duplicate_of b (tables w))
     (λ _ w', tables w' = tables w) w.
Proof.
  unfold post_customer.
  do 3 (case_match; [apply wp_ret; by left|]).
  assert (create_valid b = true) as Hv by (by apply create_valid_checked).
  destruct w as [t s cs a_s l fs]; simpl in *.
  repeat (first [wp_step | wp_fault | wp_case
                | progress unfold sql_insert_address]; simpl);
    try done; try (by left).
  all: right; split_and!; try done; by apply no_rows_no_duplicate.
Qed.

Lemma put_customer_all_or_nothing id b w :
  wp (put_customer foreign_key id b)
     (λ r w', tables w' = tables w ∧ is_error (json r) = true
              ∨ r = customer_updated b
                ∧ tables w'
                  = mkTables
                      (renamed (text (first_name b)) (text (last_name b))
                         (text (phone_number b)) id <$> customers (tables w))
                      (if address_present b
                       then addresses (tables w)
                              ++ [address_of (addresses_id_seq w) id b]
                       else addresses (tables w))
                ∧ update_valid b = true ∧ customer_exists id (tables w))
     (λ _ w', tables w' = tables w) w.
Proof.
  unfold put_customer.
  do 2 (case_match; [apply wp_ret; by left|]).
  assert (update_valid b = true) as Hv by (by apply update_valid_checked).
  destruct w as [t s cs a_s l fs]; simpl in *.
  unfold address_present.
  repeat (first [wp_step | wp_fault]; simpl); try done; try (by left).
  all: match goal with
       | |- context [rowCount ?r =? 0] => destruct (rowCount r =? 0) eqn:Hrows
       end.
  all: repeat (first [wp_step | wp_fault | wp_case
                     | progress unfold sql_insert_address]; simpl);
    try done; try (by left).
  all: right; split_and!; try done.
  all: try match goal with H : _ && _ = _ |- _ => rewrite H end; try done.
  all: unfold customer_exists; simpl.
  all: destruct (decide (id ∈ c_id <$> customers t)) as [|Hno]; [done|].
  all: apply (updated_rows_none (text (first_name b)) (text (last_name b))
                (text (phone_number b))) in Hno; rewrite Hno in Hrows; done.
Qed.

(** The status of a response, and who may leave a request unanswered. *)
Lemma handle_write_envelope r w :
  wp (handle_write foreign_key r)
     (λ resp w', well_formed_response resp
                 ∧ (is_error (json resp) = false →
                    status resp = if creates r then 201 else 200))
     (λ _ _, leases r = true) w.
Proof.
  destruct r as [id b|b|id b|id|id|b|id b]; simpl.
  - unfold put_customer.
    do 2 (case_match; [apply wp_ret; split; [envelope|done]|]).
    repeat (first [wp_step | wp_fault | wp_case
                  | progress unfold sql_insert_address]; simpl);
      try done; split; first [envelope | done].
  - unfold post_address.
    case_match; [apply wp_ret; split; [envelope|done]|].
    repeat (first [wp_step | wp_fault | wp_case
                  | progress unfold sql_insert_address]; simpl);
      try done; split; first [envelope | done].
  - unfold put_address.
    case_match; [apply wp_ret; split; [envelope|done]|].
    repeat (first [wp_step | wp_fault | wp_case]; simpl);
      try done; split; first [envelope | done].
  - unfold delete_address.
    repeat (first [wp_step | wp_fault | wp_case]; simpl);
      try done; split; first [envelope | done].
  - unfold delete_customer.
    repeat (first [wp_step | wp_fault | wp_case
                  | progress unfold sql_delete_customer]; simpl);
      try done; split; first [envelope | done].
  - unfold post_customer.
    do 3 (case_match; [apply wp_ret; split; [envelope|done]|]).
    repeat (first [wp_step | wp_fault | wp_case
                  | progress unfold sql_insert_address]; simpl);
      try done; split; first [envelope | done].
  - unfold post_customer_address.
    do 2 (case_match; [apply wp_ret; split; [envelope|done]|]).
    repeat (first [wp_step | wp_fault | wp_case
                  | progress unfold sql_insert_address]; simpl);
      try done; split; first [envelope | done].
Qed.

(** The four address endpoints run on the pool. *)
Lemma handle_write_on_pool r w :
  leases r = false →
  wp (handle_write foreign_key r)
     (λ _ w', customers (tables w') = customers (tables w)
              ∧ customers_id_seq w' = customers_id_seq w
              ∧ session w' = session w ∧ leased w' = leased w)
     (λ _ _, False) w.
Proof.
  intros Hl.
  destruct r as [id b|b|id b|id|id|b|id b]; try done; simpl.
  - unfold post_address.
    case_match; [by apply wp_ret|].
    destruct w as [t s cs a_s l fs]; simpl in *.
    repeat (first [wp_step | wp_fault | wp_case
                  | progress unfold sql_insert_address]; simpl); done.
  - unfold put_address.
    case_match; [by apply wp_ret|].
    destruct w as [t s cs a_s l fs]; simpl in *.
    repeat (first [wp_step | wp_fault | wp_case]; simpl); done.
  - unfold delete_address.
    destruct w as [t s cs a_s l fs]; simpl in *.
    repeat (first [wp_step | wp_fault | wp_case]; simpl); done.
  - unfold post_customer_address.
    do 2 (case_match; [by apply wp_ret|]).
    destruct w as [t s cs a_s l fs]; simpl in *.
    repeat (first [wp_step | wp_fault | wp_case
                  | progress unfold sql_insert_address]; simpl); done.
Qed.

(** A client that cannot be leased: the handler's promise is rejected
    before its [try] block is entered. *)
Lemma lease_failure r w m fs :
  faults w = Some m :: fs →
  match r with
  | PutCustomer _ b => update_valid b = true
  | PostCustomer b => create_valid b = true
  | DeleteCustomer _ => True
  | _ => False
  end →
  run (handle_write foreign_key r) w = (None, set_faults fs w).
Proof.
  intros Hf Hr. destruct w as [t s cs a_s l fs0]. simpl in Hf. subst fs0.
  destruct r as [id b|b|id b|id|id|b|id b]; try done; simpl.
  - unfold update_valid in Hr. repeat (apply andb_prop in Hr as [Hr ?]).
    unfold put_customer.
    repeat match goal with H : _ = true |- _ => rewrite H; clear H end.
    reflexivity.
  - unfold create_valid in Hr. repeat (apply andb_prop in Hr as [Hr ?]).
    unfold post_customer.
    repeat match goal with H : _ = true |- _ => rewrite H; clear H end.
    reflexivity.
Qed.

End Transactions.

Section FilterComplete.
Variable ILIKE : string → string → bool.
Variable trim : string → string.

(** Without a search term, the address-count filter keeps every customer
    with that many addresses. *)
Lemma filtered_list_complete addressCount q t c :
  primary_key t → has_search trim q = false → c ∈ customers t →
  addressCount = Some "single"
  ∧ length (filter (λ a, a_customer_id a = c_id c) (addresses t)) = 1%nat
  ∨ addressCount = Some "multiple"
    ∧ (2 ≤ length (filter (λ a, a_customer_id a = c_id c) (addresses t)))%nat →
  c_id c ∈ v_id <$> (list_view <$> list_query ILIKE trim addressCount q t).
Proof.
  intros Hpk Hno Hc Hcount. rewrite <- list_fmap_compose.
  change (v_id ∘ list_view) with r_id.
  destruct (list_query_ids ILIKE trim addressCount q t)
    as (rows & h & -> & -> & ->).
  rewrite Hno. apply list_elem_of_fmap.
  exists (c_id c, filter (λ r : JoinRow, c_id r.1 = c_id c) (left_join t)).
  split; [done|]. apply list_elem_of_filter. split.
  - unfold having_holds. simpl. rewrite (count_a_id_all t c Hpk Hc).
    destruct Hcount as [[-> Hn]|[-> Hn]].
    + rewrite decide_True by done. apply Is_true_true, Z.eqb_eq. lia.
    + rewrite decide_False, decide_True by done. apply Is_true_true, Z.ltb_lt. lia.
  - apply elem_of_group_by_id. split; [|done].
    destruct (customer_in_join t c Hc) as [oa Hin].
    apply list_elem_of_fmap. by exists (c, oa).
Qed.

End FilterComplete.

Lemma selected_after_insert cid row (rows : list Address) :
  a_customer_id row = cid →
  filter (λ a, a_customer_id a = cid) (rows ++ [row])%list
  = (filter (λ a, a_customer_id a = cid) rows ++ [row])%list.
Proof. intros Hid. by rewrite filter_app, filter_cons_True. Qed.

Lemma one_row_deleted id (l : list Address) :
  NoDup (a_id <$> l) → id ∈ a_id <$> l →
  (length (filter (λ a, a_id a ≠ id) l) + 1)%nat = length l.
Proof.
  induction l as [|a l IH]; [by intros _ ?%elem_of_nil|].
  rewrite fmap_cons, NoDup_cons, elem_of_cons. intros [Ha Hl] [->|Hin].
  - rewrite filter_cons_False by (by intros ?).
    rewrite filter_other_ids by done. simpl. lia.
  - rewrite filter_cons_True by (intros Heq; apply Ha; by rewrite Heq). simpl.
    rewrite <- (IH Hl Hin). lia.
Qed.

Lemma others_after_delete id (l : list Address) :
  id ∉ a_id <$> filter (λ a, a_id a ≠ id) l.
Proof. intros (a & -> & [Hne _]%list_elem_of_filter)%list_elem_of_fmap. done. Qed.

(** ** What a list row nests *)

Lemma nested_skip_null (P : JoinRow → Prop) `{∀ r, Decision (P r)} (G : list JoinRow) :
  omap id (snd <$> filter P G)
  = omap id (snd <$> filter P (filter (λ r : JoinRow, is_Some r.2) G)).
Proof.
  induction G as [|[c oa] G IH]; [done|].
  destruct oa as [a|].
  - rewrite (filter_cons_True (λ r : JoinRow, is_Some r.2)) by (simpl; eauto).
    destruct (decide (P (c, Some a))).
    + rewrite !filter_cons_True by done. rewrite !fmap_cons. simpl. f_equal. exact IH.
    + by rewrite !filter_cons_False.
  - rewrite (filter_cons_False (λ r : JoinRow, is_Some r.2))
      by (simpl; by intros [? ?]).
    destruct (decide (P (c, None))).
    + rewrite filter_cons_True by done. rewrite fmap_cons. simpl. exact IH.
    + by rewrite filter_cons_False.
Qed.

Lemma nested_matching (P : JoinRow → Prop) `{∀ r, Decision (P r)} c (rows : list Address) :
  omap id (snd <$> filter P ((λ a, (c, Some a)) <$> rows))
  = filter (λ a, P (c, Some a)) rows.
Proof.
  induction rows as [|a rows IH]; [done|]. rewrite fmap_cons.
  destruct (decide (P (c, Some a))).
  - rewrite !filter_cons_True by done. rewrite fmap_cons. simpl. f_equal. exact IH.
  - by rewrite !filter_cons_False.
Qed.

Lemma filter_all {A} (l : list A) : filter (λ _, True) l = l.
Proof.
  induction l as [|x l IH]; [done|]. rewrite filter_cons_True by done.
  by rewrite IH.
Qed.

Lemma group_nested (P : JoinRow → Prop) `{∀ r, Decision (P r)} t c :
  primary_key t → c ∈ customers t →
  omap id (snd <$> filter (λ r : JoinRow, c_id r.1 = c_id c) (filter P (left_join t)))
  = filter (λ a, P (c, Some a))
      (filter (λ a, a_customer_id a = c_id c) (addresses t)).
Proof.
  intros Hpk Hc.
  assert (filter (λ r : JoinRow, c_id r.1 = c_id c) (filter P (left_join t))
          = filter P (filter (λ r : JoinRow, c_id r.1 = c_id c) (left_join t))) as ->.
  { rewrite !list_filter_filter. apply list_filter_iff. tauto. }
  rewrite nested_skip_null, join_rows_with_address.
  rewrite (primary_key_select t c Hpk Hc), bind_cons. simpl. rewrite app_nil_r.
  apply nested_matching.
Qed.

Lemma select_list_row_nested g row :
  select_list_row g = Some row →
  r_id row = g.1 ∧ v_addresses (list_view row) = omap id (snd <$> g.2).
Proof.
  unfold select_list_row. destruct g as [k [|[c oa] rest]]; [done|].
  cbn [snd]. by intros [= <-].
Qed.

Section Nested.
Variable ILIKE : string → string → bool.
Variable trim : string → string.

Lemma list_row_nested addressCount q t row c :
  primary_key t → c ∈ customers t →
  row ∈ list_query ILIKE trim addressCount q t → r_id row = c_id c →
  v_addresses (list_view row)
  = if has_search trim q
    then filter (λ a, customer_like ILIKE (pattern_of (trim (text q))) c
                      || address_like ILIKE (pattern_of (trim (text q))) a)
           (filter (λ a, a_customer_id a = c_id c) (addresses t))
    else filter (λ a, a_customer_id a = c_id c) (addresses t).
Proof.
  intros Hpk Hc Hrow Hid. revert Hrow.
  unfold list_query. rewrite order_by_id_desc_perm.
  intros (g & Hg & Hsel)%list_elem_of_omap.
  apply list_elem_of_filter in Hg as [_ Hg]. destruct g as [k g].
  apply elem_of_group_by_id in Hg as [Hk ->].
  apply select_list_row_nested in Hsel as [Hkey ->]. cbn [fst snd] in *.
  assert (k = c_id c) as -> by congruence.
  destruct (has_search trim q).
  - etrans;
      [apply (group_nested (search_condition ILIKE (pattern_of (trim (text q)))));
       done|].
    by apply list_filter_iff.
  - pose proof (group_nested (λ _, True) t c Hpk Hc) as Hall.
    by rewrite !filter_all in Hall.
Qed.

End Nested.

(** ** The checks and the status 400 *)

Section Checks.
Variable foreign_key : bool.

Lemma handle_write_rejected r w :
  passes_checks r = false → rejected (handle_write foreign_key r) w.
Proof.
  destruct r as [id b|b|id b|id|id|b|id b]; simpl; try done.
  - apply put_customer_rejected.
  - apply post_address_rejected.
  - apply put_address_rejected.
  - apply post_customer_rejected.
  - apply post_customer_address_rejected.
Qed.

Lemma handle_write_not_rejected r w :
  passes_checks r = true →
  wp (handle_write foreign_key r) (λ resp _, status resp ≠ 400) (λ _ _, True) w.
Proof.
  destruct r as [id b|b|id b|id|id|b|id b]; simpl; intros Hv.
  - unfold update_valid in Hv. checked.
    unfold put_customer.
    repeat match goal with H : _ = true |- _ => rewrite H; clear H end. simpl.
    repeat (first [wp_step | wp_fault | wp_case
                  | progress unfold sql_insert_address]; simpl); try done.
  - unfold address_present in Hv. checked.
    unfold post_address.
    repeat match goal with H : _ = true |- _ => rewrite H; clear H end. simpl.
    repeat (first [wp_step | wp_fault | wp_case
                  | progress unfold sql_insert_address]; simpl); done.
  - unfold address_present in Hv. checked.
    unfold put_address.
    repeat match goal with H : _ = true |- _ => rewrite H; clear H end. simpl.
    repeat (first [wp_step | wp_fault | wp_case]; simpl); done.
  - unfold delete_address.
    repeat (first [wp_step | wp_fault | wp_case]; simpl); done.
  - unfold delete_customer.
    repeat (first [wp_step | wp_fault | wp_case
                  | progress unfold sql_delete_customer]; simpl); done.
  - unfold create_valid in Hv. checked.
    unfold post_customer.
    repeat match goal with H : _ = true |- _ => rewrite H; clear H end. simpl.
    repeat (first [wp_step | wp_fault | wp_case
                  | progress unfold sql_insert_address]; simpl); done.
  - unfold address_present in Hv. checked.
    unfold post_customer_address.
    repeat match goal with H : _ = true |- _ => rewrite H; clear H end. simpl.
    repeat (first [wp_step | wp_fault | wp_case
                  | progress unfold sql_insert_address]; simpl); done.
Qed.

End Checks.

(** ** A search term is a pattern *)

Lemma like_percent s : like "%" s = true.
Proof.
  induction s as [|c s IH]; [done|].
  simpl in *. exact IH.
Qed.

Lemma ilike_everything value : ilike value (pattern_of "%") = true.
Proof.
  unfold ilike, pattern_of. simpl.
  destruct value; simpl; by rewrite ?like_percent.
Qed.

Lemma percent_lists_everything t :
  primary_key t →
  v_id <$> (list_view <$> list_query ilike js_trim None (Some "%") t)
  ≡ₚ c_id <$> customers t.
Proof.
  intros Hpk.
  destruct (list_views_one_row_each ilike js_trim None (Some "%") t) as [Hn _].
  apply NoDup_Permutation; [done..|].
  intros x. split.
  - intros (v & -> & Hv)%list_elem_of_fmap.
    apply list_views_sound in Hv as (c & Hc & _ & ->).
    apply list_elem_of_fmap. by exists c.
  - intros (c & -> & Hc)%list_elem_of_fmap.
    apply list_views_complete; [done..|]. unfold listed. simpl. left.
    unfold customer_like. by rewrite ilike_everything.
Qed.

Lemma percent_nests_everything t row :
  primary_key t →
  row ∈ list_query ilike js_trim None (Some "%") t →
  v_addresses (list_view row)
  = filter (λ a, a_customer_id a = r_id row) (addresses t).
Proof.
  intros Hpk Hrow.
  assert (list_view row ∈ list_view <$> list_query ilike js_trim None (Some "%") t)
    as (c & Hc & _ & Hid)%list_views_sound
    by (apply list_elem_of_fmap; by exists row).
  change (v_id (list_view row)) with (r_id row) in Hid.
  rewrite (list_row_nested ilike js_trim None (Some "%") t row c Hpk Hc Hrow Hid).
  rewrite Hid. change (has_search js_trim (Some "%")) with true. cbv iota.
  change (pattern_of (js_trim (text (Some "%")))) with (pattern_of "%").
  etrans; [apply (list_filter_iff _ (λ _, True))|apply filter_all].
  intros a. unfold customer_like. by rewrite ilike_everything.
Qed.

(** ** The routes *)

Lemma same_text_not_empty s segment :
  s ≠ EmptyString → same_text s segment = true → truthy (Some segment) = true.
Proof. destruct s, segment; done. Qed.

Lemma head_omap_cons {A B} (f : A → option B) x l :
  head (omap f (x :: l))
  = match f x with
    | Some y => Some y
    | None => head (omap f l)
    end.
Proof. simpl. by destruct (f x). Qed.

Lemma route_matches_inv m path route e ps :
  route_matches m path route = Some (e, ps) →
  route.1.1 = m ∧ route.2 = e ∧ match_path route.1.2 path = Some ps.
Proof.
  unfold route_matches. destruct (decide (route.1.1 = m)); [|done].
  destruct (match_path route.1.2 path); simpl; [|done].
  by intros [= <- <-].
Qed.

Lemma route_matches_None m path route :
  route_matches m path route = None →
  route.1.1 ≠ m ∨ match_path route.1.2 path = None.
Proof.
  unfold route_matches. destruct (decide (route.1.1 = m)); [|by left].
  destruct (match_path route.1.2 path); simpl; [done|by right].
Qed.

(** A path of the count route is a path of the customer route. *)
Lemma count_path_is_customer_path path ps :
  match_path [Lit "api"; Lit "customers"; Lit "count"] path = Some ps →
  ∃ segment, same_text "count" segment = true
             ∧ match_path [Lit "api"; Lit "customers"; Param "id"] path
               = Some [segment].
Proof.
  destruct path as [|a [|b [|c [|d rest]]]]; simpl; try done.
  - by destruct (same_text "api" a).
  - destruct (same_text "api" a); [|done]. by destruct (same_text "customers" b).
  - destruct (same_text "api" a); [|done].
    destruct (same_text "customers" b); [|done].
    destruct (same_text "count" c) eqn:Hcount; [|done].
    intros _. exists c. split; [done|].
    apply same_text_not_empty in Hcount; [|done].
    simpl in Hcount. by rewrite Hcount.
  - destruct (same_text "api" a); [|done].
    destruct (same_text "customers" b); [|done].
    by destruct (same_text "count" c).
Qed.

Ltac next_route :=
  rewrite head_omap_cons;
  lazymatch goal with
  | |- context [route_matches ?m ?path ?route] =>
    let H := fresh "Hroute" in
    destruct (route_matches m path route) as [[? ?]|] eqn:H;
    [apply route_matches_inv in H as (? & ? & ?); simpl in *|]
  end.

Lemma count_is_shadowed m path : fst <$> dispatch m path ≠ Some ECount.
Proof.
  unfold dispatch, routes.
  do 6 (next_route; [by subst|]).
  next_route; [by subst|].
  do 1 (next_route; [by subst|]).
  next_route.
  - subst. destruct (count_path_is_customer_path _ _ H1) as (segment & _ & Hmatch).
    unfold route_matches in Hroute5. cbn [fst snd] in Hroute5.
    rewrite decide_True in Hroute5 by done. by rewrite Hmatch in Hroute5.
  - do 3 (next_route; [by subst|]). done.
Qed.

Lemma count_request_gets_customer_handler segment :
  same_text "count" segment = true →
  dispatch GET ["api"; "customers"; segment] = Some (EGetCustomer, [segment]).
Proof.
  intros Hcount. unfold dispatch, routes.
  assert (same_text "search" segment = false) as Hsearch.
  { destruct segment as [|c segment]; [done|].
    unfold same_text in *. fold same_text in *.
    apply andb_prop in Hcount as [Hc _]. apply andb_false_iff. left.
    unfold same_letter in *. apply bool_decide_eq_true in Hc.
    apply bool_decide_eq_false. by rewrite <- Hc. }
  pose proof (same_text_not_empty "count" segment ltac:(done) Hcount) as Hfull.
  simpl in Hfull.
  unfold route_matches. simpl.
  change (same_text "api" "api") with true.
  change (same_text "customers" "customers") with true.
  simpl. rewrite Hsearch. simpl. rewrite Hfull. done.
Qed.

Lemma other_routes_are_reachable e :
  e ≠ ECount → ∃ m path, fst <$> dispatch m path = Some e.
Proof.
  intros He. destruct e; try done.
  - by exists PUT, ["api"; "customers"; "1"].
  - by exists POST, ["api"; "addresses"].
  - by exists PUT, ["api"; "addresses"; "1"].
  - by exists DELETE, ["api"; "addresses"; "1"].
  - by exists DELETE, ["api"; "customers"; "1"].
  - by exists GET, ["api"; "customers"; "search"].
  - by exists GET, ["api"; "customers"; "1"].
  - by exists GET, ["api"; "customers"].
  - by exists POST, ["api"; "customers"].
  - by exists GET, ["api"; "customers"; "1"; "addresses"].
  - by exists POST, ["api"; "customers"; "1"; "addresses"].
Qed.

(** * Further properties of the handlers *)

(** X1.  A read request changes nothing and is always answered: whatever
    the request ([GET /api/customers/search], [GET /api/customers/:id],
    [GET /api/customers], [GET /api/customers/count],
    [GET /api/customers/:id/addresses]) and whatever the store calls do,
    the rows, the open transaction, the two sequences and the number of
    leased clients are what they were, and the handler sends a response
    whose status is 200 or 201 with a body that is no error, or 400, 404,
    409 or 500 with an error body. *)
Theorem reads_change_nothing ILIKE trim r w :
  same_store w (run (handle_read ILIKE trim r) w).2
  ∧ ∃ resp, (run (handle_read ILIKE trim r) w).1 = Some resp
            ∧ well_formed_response resp.
Proof.
  apply (wp_run _ (λ o, same_store w o.2
                        ∧ ∃ resp, o.1 = Some resp ∧ well_formed_response resp)).
  eapply wp_mono; [| |apply handle_read_same_store]; simpl; [|done].
  intros resp w' [Hs Hw]. split; [done|]. by exists resp.
Qed.

(** X2.  [GET /api/customers/:id], when no store call fails and the
    customer ids are a primary key: for the id of a customer row the
    response is 200 with that row and all the address rows of the
    customer, as the store returns them; for an id no customer row has,
    it is the 404 error "Customer not found". *)
Theorem customer_lookup id w :
  calm w → primary_key (tables w) →
  (∀ c, c ∈ customers (tables w) → c_id c = id →
     (run (get_customer id) w).1
     = Some (res_json (JCustomer c
               (filter (λ a, a_customer_id a = id) (addresses (tables w))))))
  ∧ (¬ customer_exists id (tables w) →
     (run (get_customer id) w).1
     = Some (res_status_json 404 (JError "Customer not found" None))).
Proof.
  intros Hc Hpk.
  destruct (wp_returns _ _ _ (get_customer_calm id w Hc)) as (r & w' & Hrun & Hr & _).
  rewrite Hrun. simpl. split.
  - intros c Hin <-. rewrite (primary_key_select _ _ Hpk Hin) in Hr. by rewrite Hr.
  - intros Hno%selected_rows_empty. rewrite Hno in Hr. by rewrite Hr.
Qed.

Lemma customer_lookup_witness :
  (run (get_customer 1) sample_world).1
  = Some (res_json (JCustomer ann [ann_paris; ann_rome]))
  ∧ (run (get_customer 9) sample_world).1
    = Some (res_status_json 404 (JError "Customer not found" None)).
Proof.
  assert (calm sample_world) as Hcalm by constructor.
  assert (primary_key (tables sample_world)) as Hpk by decided.
  split.
  - destruct (customer_lookup 1 sample_world Hcalm Hpk) as [Hfound _].
    apply (Hfound ann); [left|reflexivity].
  - destruct (customer_lookup 9 sample_world Hcalm Hpk) as [_ Hmissing].
    apply Hmissing. decided.
Defined.

(** X3.  [GET /api/customers/:id/addresses], when no store call fails:
    the response is 200 with the address rows whose [customer_id] is the
    id, as the store returns them; the handler never checks that the
    customer exists, so where every address row refers to a customer row
    an unknown id gets 200 with an empty list, not a 404; and the list is
    the one [GET /api/customers/:id] nests whenever that handler answers
    with a customer. *)
Theorem customer_addresses_lookup id w :
  calm w →
  (run (get_customer_addresses id) w).1
  = Some (res_json (JAddresses
            (filter (λ a, a_customer_id a = id) (addresses (tables w)))))
  ∧ (referential (tables w) → ¬ customer_exists id (tables w) →
     (run (get_customer_addresses id) w).1 = Some (res_json (JAddresses [])))
  ∧ (∀ c nested,
       (run (get_customer id) w).1 = Some (res_json (JCustomer c nested)) →
       (run (get_customer_addresses id) w).1 = Some (res_json (JAddresses nested))).
Proof.
  intros Hc.
  destruct (wp_returns _ _ _ (get_customer_addresses_calm id w Hc))
    as (r & w' & Hrun & -> & _).
  rewrite Hrun. simpl. split_and!; [done| |].
  - intros Hr Hno. do 3 f_equal.
    destruct (filter _ (addresses (tables w))) as [|a rest] eqn:Hf; [done|].
    assert (a ∈ filter (λ a, a_customer_id a = id) (addresses (tables w)))
      as [Hid Ha]%list_elem_of_filter by (rewrite Hf; left).
    destruct Hno. rewrite <- Hid. by apply Hr.
  - intros c nested.
    destruct (wp_returns _ _ _ (get_customer_calm id w Hc))
      as (r1 & w1 & Hrun1 & Hr1 & _).
    rewrite Hrun1. simpl.
    destruct (filter (λ c, c_id c = id) (customers (tables w))) as [|c' rest];
      subst r1; [done|].
    by intros [= _ <-].
Qed.

Lemma customer_addresses_lookup_witness :
  (run (get_customer_addresses 1) sample_world).1
  = Some (res_json (JAddresses [ann_paris; ann_rome]))
  ∧ (run (get_customer_addresses 9) sample_world).1
    = Some (res_json (JAddresses [])).
Proof.
  assert (calm sample_world) as Hcalm by constructor.
  split.
  - exact (proj1 (customer_addresses_lookup 1 sample_world Hcalm)).
  - destruct (customer_addresses_lookup 9 sample_world Hcalm) as (_ & Hunknown & _).
    apply Hunknown; [exact sample_referential|decided].
Defined.

(** X4.  A write that fails leaves the rows alone: for every write
    request (update customer, add address, update address, delete address,
    delete customer, create customer, add address to customer) and
    whatever the store calls do, when the response carries an error body,
    or the handler's promise is rejected and it sends no response, the
    customer rows and the address rows afterwards are the rows before. *)
Theorem failed_write_leaves_rows fk r w :
  failed (run (handle_write fk r) w).1 →
  tables (run (handle_write fk r) w).2 = tables w.
Proof.
  apply (wp_run _ (λ o, failed o.1 → tables o.2 = tables w)).
  eapply wp_mono; [| |apply handle_write_failure]; simpl.
  - by intros resp w' [Hrows _].
  - done.
Qed.

Lemma failed_write_leaves_rows_witness :
  (run (handle_write true (PostCustomer dee_full)) lost_insert_world).1
  = Some (res_status_json 500 (JError "connection lost" (Some "general")))
  ∧ tables (run (handle_write true (PostCustomer dee_full)) lost_insert_world).2
    = tables lost_insert_world.
Proof.
  split; [reflexivity|].
  apply (failed_write_leaves_rows true (PostCustomer dee_full) lost_insert_world).
  reflexivity.
Defined.

(** X5.  The status of a write response: for every write request and
    whatever the store calls do, a response has status 200 or 201 and a
    body that is no error, or status 400, 404, 409 or 500 and an error
    body; a success of one of the three [POST] handlers has status 201 and
    a success of a [PUT] or [DELETE] handler status 200; and only the
    three handlers that lease a client (update, delete and create
    customer) can end with a rejected promise and no response of their
    own. *)
Theorem write_statuses fk r w :
  (∀ resp, (run (handle_write fk r) w).1 = Some resp →
     well_formed_response resp
     ∧ (is_error (json resp) = false →
        status resp = if creates r then 201 else 200))
  ∧ ((run (handle_write fk r) w).1 = None → leases r = true).
Proof.
  apply (wp_run _ (λ o, (∀ resp, o.1 = Some resp → _) ∧ (o.1 = None → _))).
  eapply wp_mono; [| |apply handle_write_envelope]; simpl.
  - intros resp w' Hresp. split; [by intros ? [= <-]|done].
  - intros _ w' Hl. split; [done|by intros _].
Qed.

Lemma write_statuses_witness :
  well_formed_response (customer_created 4)
  ∧ status (customer_created 4) = 201.
Proof.
  destruct (write_statuses true (PostCustomer dee_full) sample_world) as [Hsent _].
  destruct (Hsent (customer_created 4) eq_refl) as [Hshape Hstatus].
  split; [exact Hshape|exact (Hstatus eq_refl)].
Defined.

(** X6.  The four address endpoints ([POST /api/addresses],
    [PUT /api/addresses/:id], [DELETE /api/addresses/:id],
    [POST /api/customers/:id/addresses]) run on the pool: whatever the
    store calls do, they send a response, and they leave the customer
    rows, the customer sequence, the open transaction and the number of
    leased clients as they were. *)
Theorem address_requests_run_on_pool fk r w :
  leases r = false →
  (∃ resp, (run (handle_write fk r) w).1 = Some resp)
  ∧ customers (tables (run (handle_write fk r) w).2) = customers (tables w)
  ∧ customers_id_seq (run (handle_write fk r) w).2 = customers_id_seq w
  ∧ session (run (handle_write fk r) w).2 = session w
  ∧ leased (run (handle_write fk r) w).2 = leased w.
Proof.
  intros Hl.
  destruct (wp_returns _ _ _ (handle_write_on_pool fk r w Hl))
    as (resp & w' & Hrun & Hkept).
  rewrite Hrun. simpl. split; [by exists resp|done].
Qed.

Lemma address_requests_run_on_pool_witness :
  (∃ resp, (run (handle_write true (PostAddress address_for_bob)) exhausted_world).1
           = Some resp)
  ∧ customers (tables (run (handle_write true (PostAddress address_for_bob))
                           exhausted_world).2) = [ann; bob; cy]
  ∧ customers_id_seq (run (handle_write true (PostAddress address_for_bob))
                          exhausted_world).2 = 4
  ∧ session (run (handle_write true (PostAddress address_for_bob))
                 exhausted_world).2 = None
  ∧ leased (run (handle_write true (PostAddress address_for_bob))
                exhausted_world).2 = 0.
Proof.
  apply (address_requests_run_on_pool true (PostAddress address_for_bob)
           exhausted_world).
  reflexivity.
Defined.

(** X7.  A client that cannot be leased: [getClient] is awaited before the
    [try] block of update customer, create customer and delete customer,
    so when it fails for a request that passed the field checks, the
    handler's promise is rejected, the handler sends no response, and
    nothing but the failed call has happened. *)
Theorem lease_failure_is_unanswered fk id b w m fs :
  faults w = Some m :: fs →
  (update_valid b = true →
   run (put_customer fk id b) w = (None, set_faults fs w))
  ∧ (create_valid b = true →
     run (post_customer fk b) w = (None, set_faults fs w))
  ∧ run (delete_customer fk id) w = (None, set_faults fs w).
Proof.
  intros Hf. split_and!.
  - intros Hv. by apply (lease_failure fk (PutCustomer id b) w m fs).
  - intros Hv. by apply (lease_failure fk (PostCustomer b) w m fs).
  - by apply (lease_failure fk (DeleteCustomer id) w m fs).
Qed.

Lemma lease_failure_is_unanswered_witness :
  run (put_customer true 1 dee_full) exhausted_world = (None, sample_world)
  ∧ run (post_customer true dee_full) exhausted_world = (None, sample_world)
  ∧ run (delete_customer true 1) exhausted_world = (None, sample_world).
Proof.
  destruct (lease_failure_is_unanswered true 1 dee_full exhausted_world
              "pool exhausted" [] eq_refl) as (Hput & Hpost & Hdelete).
  split; [exact (Hput eq_refl)|]. split; [exact (Hpost eq_refl)|exact Hdelete].
Defined.

(** X8.  [PUT /api/addresses/:id] rewrites the four address fields of the
    rows with that id and nothing else: whatever the payload and whatever
    the store calls do, the customer rows, the ids of the address rows,
    their customers and the address rows with another id are what they
    were; when the four fields are present and no store call fails, an id
    no address row has gets the 404 error "Address not found." with the
    rows as before, and otherwise the response is 200 with the rewritten
    row, whatever the pin code looks like. *)
Theorem address_update_rewrites_its_rows id b w :
  (customers (tables (run (put_address id b) w).2) = customers (tables w)
   ∧ a_id <$> addresses (tables (run (put_address id b) w).2)
     = a_id <$> addresses (tables w)
   ∧ a_customer_id <$> addresses (tables (run (put_address id b) w).2)
     = a_customer_id <$> addresses (tables w)
   ∧ filter (λ a, a_id a ≠ id) (addresses (tables (run (put_address id b) w).2))
     = filter (λ a, a_id a ≠ id) (addresses (tables w)))
  ∧ (calm w → address_present b = true →
     match filter (λ a, a_id a = id) (addresses (tables w)) with
     | [] => (run (put_address id b) w).1 = Some address_not_found
             ∧ tables (run (put_address id b) w).2 = tables w
     | old :: _ =>
       (run (put_address id b) w).1
       = Some (res_json (JAddress (Some (address_of id (a_customer_id old) b))))
       ∧ addresses (tables (run (put_address id b) w).2)
         = replaced (text (address_details b)) (text (city b)) (text (state b))
             (text (pin_code b)) id <$> addresses (tables w)
     end).
Proof.
  split.
  - destruct (wp_returns _ _ _ (put_address_keeps id b w)) as (r & w' & Hrun & Hkept).
    by rewrite Hrun.
  - intros Hc Hp.
    destruct (wp_returns _ _ _ (put_address_calm id b w Hp Hc))
      as (r & w' & Hrun & Hr & _).
    rewrite Hrun. simpl.
    destruct (filter _ (addresses (tables w))) as [|old rest];
      destruct Hr as [-> Hrows]; done.
Qed.

Lemma address_update_rewrites_its_rows_witness :
  (run (put_address 3 address_short_pin) sample_world).1
  = Some (res_json (JAddress (Some (mkAddress 3 2 "5 Quay" "Lyon" "FR" "12"))))
  ∧ addresses (tables (run (put_address 3 address_short_pin) sample_world).2)
    = [ann_paris; ann_rome; mkAddress 3 2 "5 Quay" "Lyon" "FR" "12"].
Proof.
  destruct (address_update_rewrites_its_rows 3 address_short_pin sample_world)
    as [_ Hcalm].
  apply Hcalm; [constructor|reflexivity].
Defined.

(** X9.  [DELETE /api/addresses/:id] is all or nothing: whatever the store
    calls do, the rows afterwards are the rows before, or the rows before
    without the address rows of that id, and then such a row existed and
    the response is the success message.  When no store call fails, an
    existing id is answered with the success message and a second delete
    of the same id with the 404 error "Address not found."; an id no
    address row has is answered with that 404 and the rows as before; and
    where the address ids are a primary key, exactly one row is removed. *)
Theorem address_delete_all_or_nothing id w :
  (tables (run (delete_address id) w).2 = tables w
   ∧ (run (delete_address id) w).1 ≠ Some address_deleted
   ∨ tables (run (delete_address id) w).2
     = mkTables (customers (tables w))
         (filter (λ a, a_id a ≠ id) (addresses (tables w)))
     ∧ (run (delete_address id) w).1 = Some address_deleted
     ∧ id ∈ a_id <$> addresses (tables w))
  ∧ (calm w → id ∈ a_id <$> addresses (tables w) →
     (run (delete_address id) w).1 = Some address_deleted
     ∧ tables (run (delete_address id) w).2
       = mkTables (customers (tables w))
           (filter (λ a, a_id a ≠ id) (addresses (tables w)))
     ∧ (run (delete_address id) (run (delete_address id) w).2).1
       = Some address_not_found
     ∧ (address_keyed w →
        (length (addresses (tables (run (delete_address id) w).2)) + 1)%nat
        = length (addresses (tables w))))
  ∧ (calm w → id ∉ a_id <$> addresses (tables w) →
     (run (delete_address id) w).1 = Some address_not_found
     ∧ tables (run (delete_address id) w).2 = tables w).
Proof.
  split_and!.
  - apply (wp_run _
      (λ o, tables o.2 = tables w ∧ o.1 ≠ Some address_deleted
            ∨ tables o.2
              = mkTables (customers (tables w))
                  (filter (λ a, a_id a ≠ id) (addresses (tables w)))
              ∧ o.1 = Some address_deleted
              ∧ id ∈ a_id <$> addresses (tables w))).
    eapply wp_mono; [| |apply delete_address_all_or_nothing]; simpl; [|done].
    intros r w' [[Hrows Hne]|(Hrows & -> & Hin)]; [left|by right].
    split; [done|]. by intros [= ->].
  - intros Hc Hin.
    destruct (wp_returns _ _ _ (delete_address_calm id w Hc))
      as (r & w' & Hrun & Hr & Hc').
    rewrite decide_True in Hr by done. destruct Hr as [-> Hrows].
    rewrite Hrun. simpl. split_and!; [done|done| |].
    + destruct (wp_returns _ _ _ (delete_address_calm id w' Hc'))
        as (r2 & w2 & Hrun2 & Hr2 & _).
      rewrite decide_False in Hr2
        by (rewrite Hrows; simpl; apply others_after_delete).
      rewrite Hrun2. simpl. by destruct Hr2 as [-> _].
    + intros [Hpk _]. rewrite Hrows. simpl. by apply one_row_deleted.
  - intros Hc Hno.
    destruct (wp_returns _ _ _ (delete_address_calm id w Hc))
      as (r & w' & Hrun & Hr & _).
    rewrite decide_False in Hr by done. destruct Hr as [-> Hrows].
    by rewrite Hrun.
Qed.

Lemma address_delete_all_or_nothing_witness :
  (run (delete_address 2) sample_world).1 = Some address_deleted
  ∧ tables (run (delete_address 2) sample_world).2
    = mkTables [ann; bob; cy] [ann_paris; bob_oslo]
  ∧ (run (delete_address 2) (run (delete_address 2) sample_world).2).1
    = Some address_not_found
  ∧ (run (delete_address 9) sample_world).1 = Some address_not_found.
Proof.
  assert (calm sample_world) as Hcalm by constructor.
  destruct (address_delete_all_or_nothing 2 sample_world) as (_ & Hfound & _).
  destruct (address_delete_all_or_nothing 9 sample_world) as (_ & _ & Hmissing).
  assert (2 ∈ a_id <$> addresses (tables sample_world)) as Hin by decided.
  assert (9 ∉ a_id <$> addresses (tables sample_world)) as Hno by decided.
  destruct (Hfound Hcalm Hin) as (Hresp & Hrows & Hagain & _).
  split; [exact Hresp|]. split; [exact Hrows|]. split; [exact Hagain|].
  exact (proj1 (Hmissing Hcalm Hno)).
Defined.

(** X10.  A created customer can be read back, once: when the payload
    passes the field checks, no customer row has its names and phone
    number, no store call fails, the customer ids are generated by the
    sequence and every address row refers to a customer row, then
    [POST /api/customers] answers 201 with the next id of the customer
    sequence and appends one customer row and one address row of that
    customer; [GET /api/customers/:id] with that id then returns the two
    rows; and the same payload sent again gets the 409 conflict and
    changes no row. *)
Theorem created_customer_round_trip fk b w :
  create_valid b = true → ¬ duplicate_of b (tables w) → calm w →
  keyed w → referential (tables w) →
  (run (post_customer fk b) w).1 = Some (customer_created (customers_id_seq w))
  ∧ tables (run (post_customer fk b) w).2
    = mkTables
        (customers (tables w) ++ [customer_of (customers_id_seq w) b])
        (addresses (tables w)
           ++ [address_of (addresses_id_seq w) (customers_id_seq w) b])
  ∧ (run (get_customer (customers_id_seq w)) (run (post_customer fk b) w).2).1
    = Some (res_json
              (JCustomer (customer_of (customers_id_seq w) b)
                 [address_of (addresses_id_seq w) (customers_id_seq w) b]))
  ∧ (run (post_customer fk b) (run (post_customer fk b) w).2).1
    = Some conflict_response
  ∧ tables (run (post_customer fk b) (run (post_customer fk b) w).2).2
    = tables (run (post_customer fk b) w).2.
Proof.
  intros Hv Hno Hc Hk Hr.
  destruct (wp_returns _ _ _ (post_customer_success fk b w Hv Hno Hc))
    as (r & w' & Hrun & -> & Hrows & _ & _ & Hc').
  rewrite Hrun. simpl. split_and!; [done|done|..].
  - destruct (wp_returns _ _ _ (get_customer_calm (customers_id_seq w) w' Hc'))
      as (r1 & w1 & Hrun1 & Hr1 & _).
    rewrite Hrun1. simpl. rewrite Hrows in Hr1. simpl in Hr1.
    rewrite new_customer_selected in Hr1 by done.
    rewrite selected_after_insert, no_address_of_next_customer in Hr1 by done.
    by rewrite Hr1.
  - assert (duplicate_of b (tables w')) as Hdup.
    { rewrite Hrows. unfold create_valid in Hv.
      repeat (apply andb_prop in Hv as [Hv ?]). by apply created_is_duplicate. }
    destruct (wp_returns _ _ _ (post_customer_duplicate_conflict fk b w' Hdup Hv Hc'))
      as (r2 & w2 & Hrun2 & ->).
    by rewrite Hrun2.
  - assert (duplicate_of b (tables w')) as Hdup.
    { rewrite Hrows. unfold create_valid in Hv.
      repeat (apply andb_prop in Hv as [Hv ?]). by apply created_is_duplicate. }
    apply (wp_run _ (λ o, tables o.2 = tables w')).
    eapply wp_mono; [| |by apply post_customer_duplicate_unchanged]; simpl;
      by intros ? ? [? _].
Qed.

Lemma created_customer_round_trip_witness :
  (run (post_customer true dee_full) sample_world).1 = Some (customer_created 4)
  ∧ (run (get_customer 4) (run (post_customer true dee_full) sample_world).2).1
    = Some (res_json
              (JCustomer (mkCustomer 4 "Dee" "Fox" "1234567899")
                 [mkAddress 4 4 "5 Quay" "Lyon" "FR" "690001"]))
  ∧ (run (post_customer true dee_full)
         (run (post_customer true dee_full) sample_world).2).1
    = Some conflict_response.
Proof.
  assert (¬ duplicate_of dee_full (tables sample_world)) as Hno.
  { intros (c & Hc & Hf & _). simpl in Hc.
    repeat (apply elem_of_cons in Hc as [->|Hc]; [done|]).
    by apply elem_of_nil in Hc. }
  destruct (created_customer_round_trip true dee_full sample_world eq_refl Hno
              ltac:(constructor) sample_keyed sample_referential)
    as (Hcreated & _ & Hread & Hagain & _).
  split; [exact Hcreated|]. split; [exact Hread|exact Hagain].
Defined.

(** X11.  [POST /api/customers] is all or nothing: whatever the payload
    and whatever the store calls do, the rows afterwards are the rows
    before and the response, if any, carries an error, or the response is
    201 with the next id of the customer sequence and the rows are the
    rows before with one customer row and one address row of that
    customer appended, and then the payload passed the field checks and
    no customer row had its names and phone number.  A customer row is
    never stored without its address row. *)
Theorem create_customer_all_or_nothing fk b w :
  tables (run (post_customer fk b) w).2 = tables w
  ∧ failed (run (post_customer fk b) w).1
  ∨ (run (post_customer fk b) w).1 = Some (customer_created (customers_id_seq w))
    ∧ tables (run (post_customer fk b) w).2
      = mkTables
          (customers (tables w) ++ [customer_of (customers_id_seq w) b])
          (addresses (tables w)
             ++ [address_of (addresses_id_seq w) (customers_id_seq w) b])
    ∧ create_valid b = true ∧ ¬ duplicate_of b (tables w).
Proof.
  apply (wp_run _
    (λ o, tables o.2 = tables w ∧ failed o.1
          ∨ o.1 = Some (customer_created (customers_id_seq w))
            ∧ tables o.2
              = mkTables
                  (customers (tables w) ++ [customer_of (customers_id_seq w) b])
                  (addresses (tables w)
                     ++ [address_of (addresses_id_seq w) (customers_id_seq w) b])
            ∧ create_valid b = true ∧ ¬ duplicate_of b (tables w))).
  eapply wp_mono; [| |apply post_customer_all_or_nothing]; simpl.
  - intros r w' [[Hrows Herr]|(-> & Hrows & Hv & Hno)]; [by left|by right].
  - intros _ w' Hrows. by left.
Qed.

(** X12.  [PUT /api/customers/:id] is all or nothing: whatever the payload
    and whatever the store calls do, the rows afterwards are the rows
    before and the response, if any, carries an error, or the names and
    the phone number of the customer rows with that id are rewritten, one
    address row of that customer is appended exactly when the four address
    fields are all present, and then the payload passed the name and phone
    checks and the customer existed.  When it did, the checks pass and no
    store call fails, the update is made and, where the customer ids are a
    primary key, [GET /api/customers/:id] then returns the rewritten row
    with the addresses of the customer, the new one among them. *)
Theorem update_customer_all_or_nothing fk id b w :
  (tables (run (put_customer fk id b) w).2 = tables w
   ∧ failed (run (put_customer fk id b) w).1
   ∨ (run (put_customer fk id b) w).1 = Some (customer_updated b)
     ∧ tables (run (put_customer fk id b) w).2
       = mkTables
           (renamed (text (first_name b)) (text (last_name b))
              (text (phone_number b)) id <$> customers (tables w))
           (if address_present b
            then addresses (tables w) ++ [address_of (addresses_id_seq w) id b]
            else addresses (tables w))
     ∧ update_valid b = true ∧ customer_exists id (tables w))
  ∧ (update_valid b = true → customer_exists id (tables w) → calm w →
     (run (put_customer fk id b) w).1 = Some (customer_updated b)
     ∧ (primary_key (tables w) →
        (run (get_customer id) (run (put_customer fk id b) w).2).1
        = Some (res_json
                  (JCustomer (customer_of id b)
                     (filter (λ a, a_customer_id a = id) (addresses (tables w))
                        ++ (if address_present b
                            then [address_of (addresses_id_seq w) id b]
                            else [])))))).
Proof.
  split.
  - apply (wp_run _
      (λ o, tables o.2 = tables w ∧ failed o.1
            ∨ o.1 = Some (customer_updated b)
              ∧ tables o.2
                = mkTables
                    (renamed (text (first_name b)) (text (last_name b))
                       (text (phone_number b)) id <$> customers (tables w))
                    (if address_present b
                     then addresses (tables w)
                            ++ [address_of (addresses_id_seq w) id b]
                     else addresses (tables w))
              ∧ update_valid b = true ∧ customer_exists id (tables w))).
    eapply wp_mono; [| |apply put_customer_all_or_nothing]; simpl.
    + intros r w' [[Hrows Herr]|(-> & Hrows & Hv & Hex)]; [by left|by right].
    + intros _ w' Hrows. by left.
  - intros Hv Hex Hc.
    destruct (wp_returns _ _ _ (put_customer_success fk id b w Hv Hex Hc))
      as (r & w' & Hrun & -> & Hrows & _ & Hc').
    rewrite Hrun. simpl. split; [done|]. intros Hpk.
    destruct (wp_returns _ _ _ (get_customer_calm id w' Hc'))
      as (r1 & w1 & Hrun1 & Hr1 & _).
    rewrite Hrun1. simpl. rewrite Hrows in Hr1. simpl in Hr1.
    rewrite renamed_selected in Hr1 by done. rewrite Hr1.
    destruct (address_present b).
    + by rewrite selected_after_insert.
    + by rewrite app_nil_r.
Qed.

Lemma update_customer_all_or_nothing_witness :
  (run (put_customer true 1 ann_renamed) sample_world).1
  = Some (res_json (JMessage "Customer updated successfully."))
  ∧ (run (get_customer 1) (run (put_customer true 1 ann_renamed) sample_world).2).1
    = Some (res_json (JCustomer (mkCustomer 1 "Ann" "Roe" "1234567890")
                        [ann_paris; ann_rome])).
Proof.
  destruct (update_customer_all_or_nothing true 1 ann_renamed sample_world)
    as [_ Hok].
  assert (customer_exists 1 (tables sample_world)) as Hex by decided.
  assert (primary_key (tables sample_world)) as Hpk by decided.
  destruct (Hok eq_refl Hex ltac:(constructor)) as [Hresp Hread].
  split; [exact Hresp|exact (Hread Hpk)].
Defined.

(** X13.  The two endpoints that add an address append one row with the
    next id of the address sequence, when no store call fails and the
    customer exists or the store does not enforce the foreign key:
    [POST /api/addresses], once the five fields are present, answers 201
    with the new row, and [POST /api/customers/:id/addresses], once the
    four fields are present and the pin code has six digits, answers 201
    with the id of the new row; [GET /api/customers/:id/addresses] then
    returns the addresses the customer had and the new row. *)
Theorem added_address_round_trip fk id b w :
  calm w → address_present b = true →
  fk = false ∨ customer_exists id (tables w) →
  (customer_id b = Some id → id ≠ 0 →
   (run (post_address fk b) w).1
   = Some (res_status_json 201
             (JAddress (Some (address_of (addresses_id_seq w) id b))))
   ∧ tables (run (post_address fk b) w).2
     = mkTables (customers (tables w))
         (addresses (tables w) ++ [address_of (addresses_id_seq w) id b])
   ∧ (run (get_customer_addresses id) (run (post_address fk b) w).2).1
     = Some (res_json (JAddresses
               (filter (λ a, a_customer_id a = id) (addresses (tables w))
                  ++ [address_of (addresses_id_seq w) id b]))))
  ∧ (test_digits 6 (pin_code b) = true →
     (run (post_customer_address fk id b) w).1
     = Some (res_status_json 201
               (JAddressAdded "Address added" (addresses_id_seq w)))
     ∧ tables (run (post_customer_address fk id b) w).2
       = mkTables (customers (tables w))
           (addresses (tables w) ++ [address_of (addresses_id_seq w) id b])
     ∧ (run (get_customer_addresses id) (run (post_customer_address fk id b) w).2).1
       = Some (res_json (JAddresses
                 (filter (λ a, a_customer_id a = id) (addresses (tables w))
                    ++ [address_of (addresses_id_seq w) id b])))).
Proof.
  intros Hc Hp Hfk. split.
  - intros Hcid Hne.
    assert (truthy_num (customer_id b) = true) as Hnum.
    { rewrite Hcid. simpl. apply negb_true_iff, Z.eqb_neq. done. }
    assert (default 0 (customer_id b) = id) as Hid by (by rewrite Hcid).
    pose proof (post_address_success fk b w Hnum Hp) as Hwp.
    rewrite Hid in Hwp.
    destruct (wp_returns _ _ _ (Hwp Hfk Hc)) as (r & w' & Hrun & -> & Hrows & Hc').
    rewrite Hrun. simpl. split_and!; [done..|].
    destruct (wp_returns _ _ _ (get_customer_addresses_calm id w' Hc'))
      as (r1 & w1 & Hrun1 & -> & _).
    rewrite Hrun1, Hrows. simpl. by rewrite selected_after_insert.
  - intros Hpin.
    destruct (wp_returns _ _ _ (post_customer_address_success fk id b w Hp Hpin Hfk Hc))
      as (r & w' & Hrun & -> & Hrows & Hc').
    rewrite Hrun. simpl. split_and!; [done..|].
    destruct (wp_returns _ _ _ (get_customer_addresses_calm id w' Hc'))
      as (r1 & w1 & Hrun1 & -> & _).
    rewrite Hrun1, Hrows. simpl. by rewrite selected_after_insert.
Qed.

Lemma added_address_round_trip_witness :
  (run (post_address true address_for_bob) sample_world).1
  = Some (res_status_json 201
            (JAddress (Some (mkAddress 4 2 "5 Quay" "Lyon" "FR" "690001"))))
  ∧ (run (get_customer_addresses 2)
         (run (post_address true address_for_bob) sample_world).2).1
    = Some (res_json (JAddresses
              [bob_oslo; mkAddress 4 2 "5 Quay" "Lyon" "FR" "690001"]))
  ∧ (run (post_customer_address true 2 address_full) sample_world).1
    = Some (res_status_json 201 (JAddressAdded "Address added" 4)).
Proof.
  assert (calm sample_world) as Hcalm by constructor.
  assert (true = false ∨ customer_exists 2 (tables sample_world)) as Hex
    by (right; decided).
  destruct (added_address_round_trip true 2 address_for_bob sample_world
              Hcalm eq_refl Hex) as [Hpost _].
  destruct (added_address_round_trip true 2 address_full sample_world
              Hcalm eq_refl Hex) as [_ Hnested].
  destruct (Hpost eq_refl ltac:(done)) as (Hresp & _ & Hread).
  split; [exact Hresp|]. split; [exact Hread|].
  exact (proj1 (Hnested eq_refl)).
Defined.

(** X14.  Where the store enforces the foreign key, an address for a
    customer that does not exist is refused by the store and not by the
    service: with a payload that passes the checks and no other failure,
    [POST /api/addresses] and [POST /api/customers/:id/addresses] answer
    500, not 404, and leave the rows as they were. *)
Theorem address_for_missing_customer_is_500 id b w :
  calm w → address_present b = true → ¬ customer_exists id (tables w) →
  (customer_id b = Some id → id ≠ 0 →
   status <$> (run (post_address true b) w).1 = Some 500
   ∧ tables (run (post_address true b) w).2 = tables w)
  ∧ (test_digits 6 (pin_code b) = true →
     status <$> (run (post_customer_address true id b) w).1 = Some 500
     ∧ tables (run (post_customer_address true id b) w).2 = tables w).
Proof.
  intros Hc Hp Hno. split.
  - intros Hcid Hne.
    assert (truthy_num (customer_id b) = true) as Hnum.
    { rewrite Hcid. simpl. apply negb_true_iff, Z.eqb_neq. done. }
    assert (¬ customer_exists (default 0 (customer_id b)) (tables w)) as Hno'
      by (by rewrite Hcid).
    destruct (wp_returns _ _ _
                (address_insert_refused true (PostAddress b) w eq_refl Hc
                   (conj Hnum (conj Hp Hno'))))
      as (r & w' & Hrun & Hst & Hrows).
    simpl in Hrun. rewrite Hrun. simpl. by rewrite Hst.
  - intros Hpin.
    destruct (wp_returns _ _ _
                (address_insert_refused true (PostCustomerAddress id b) w eq_refl Hc
                   (conj Hp (conj Hpin Hno))))
      as (r & w' & Hrun & Hst & Hrows).
    simpl in Hrun. rewrite Hrun. simpl. by rewrite Hst.
Qed.

Lemma address_for_missing_customer_is_500_witness :
  status <$> (run (post_address true address_for_nobody) sample_world).1 = Some 500
  ∧ tables (run (post_address true address_for_nobody) sample_world).2
    = tables sample_world
  ∧ status <$> (run (post_customer_address true 9 address_full) sample_world).1
    = Some 500.
Proof.
  assert (calm sample_world) as Hcalm by constructor.
  assert (¬ customer_exists 9 (tables sample_world)) as Hno by decided.
  destruct (address_for_missing_customer_is_500 9 address_for_nobody sample_world
              Hcalm eq_refl Hno) as [Hpost _].
  destruct (address_for_missing_customer_is_500 9 address_full sample_world
              Hcalm eq_refl Hno) as [_ Hnested].
  destruct (Hpost eq_refl ltac:(done)) as [Hstatus Hrows].
  split; [exact Hstatus|]. split; [exact Hrows|].
  exact (proj1 (Hnested eq_refl)).
Defined.

(** X15.  The address ids stay a primary key: where the ids of the
    address rows are pairwise different and all below the next id of the
    address sequence, they are so after every write request, whatever the
    store calls do, a rolled-back insert included. *)
Theorem address_ids_stay_a_key fk r w :
  address_keyed w → address_keyed (run (handle_write fk r) w).2.
Proof.
  intros Hk. apply (wp_run _ (λ o, address_keyed o.2)).
  by apply handle_write_address_keyed.
Qed.

Lemma address_ids_stay_a_key_witness :
  address_keyed (run (handle_write true (PostCustomer dee_full)) sample_world).2
  ∧ address_keyed (run (handle_write true (PostCustomer dee_full))
                       lost_insert_world).2.
Proof.
  assert (address_keyed sample_world) as Hk.
  { split; [decided|]. intros a Ha. simpl in Ha.
    repeat (apply elem_of_cons in Ha as [->|Ha]; [done|]).
    by apply elem_of_nil in Ha. }
  split.
  - exact (address_ids_stay_a_key true (PostCustomer dee_full) sample_world Hk).
  - exact (address_ids_stay_a_key true (PostCustomer dee_full) lost_insert_world Hk).
Defined.

(** X16.  What the field checks guarantee of the stored rows: where every
    customer row has a first and a last name that are not empty and a
    phone number of ten digits, and every address row has address
    details, a city, a state and a pin code that are not empty, the same
    holds after every write request, whatever the store calls do.  (The
    six digits of a pin code are not among the guarantees: only two of the
    five handlers that store one check them.) *)
Theorem stored_rows_stay_valid fk r w :
  validated (tables w) → validated (tables (run (handle_write fk r) w).2).
Proof.
  intros Hv. apply (wp_run _ (λ o, validated (tables o.2))).
  by apply handle_write_validated.
Qed.

Lemma stored_rows_stay_valid_witness :
  validated (tables (run (handle_write true (PutCustomer 1 dee_full)) sample_world).2)
  ∧ validated (tables (run (handle_write true (PutAddress 3 address_short_pin))
                           sample_world).2).
Proof.
  assert (validated (tables sample_world)) as Hv.
  { split; simpl; repeat constructor; done. }
  split.
  - exact (stored_rows_stay_valid true (PutCustomer 1 dee_full) sample_world Hv).
  - exact (stored_rows_stay_valid true (PutAddress 3 address_short_pin)
             sample_world Hv).
Defined.

(** X17.  In every row of a [GET /api/customers] response the
    [address_count] is the number of addresses nested in the row, for
    every address-count filter, every search term and every store. *)
Theorem list_rows_count_their_addresses ILIKE trim addressCount q w views :
  (run (get_customers ILIKE trim addressCount q) w).1
    = Some (res_json (JData views)) →
  Forall (λ v, v_address_count v = Some (Z.of_nat (length (v_addresses v)))) views.
Proof.
  intros ->%get_customers_data. apply Forall_forall.
  intros v Hv. by eapply list_view_count.
Qed.

Lemma list_rows_count_their_addresses_witness :
  Forall (λ v, v_address_count v = Some (Z.of_nat (length (v_addresses v))))
    [mkView 3 "Cy" "Poe" "1234567892" (Some 0) [];
     mkView 2 "Bob" "Ray" "1234567891" (Some 1) [bob_oslo];
     mkView 1 "Ann" "Lee" "1234567890" (Some 2) [ann_paris; ann_rome]].
Proof.
  apply (list_rows_count_their_addresses ilike js_trim None None sample_world).
  reflexivity.
Defined.

(** X18.  Count and list agree where the two handlers read the
    address-count value alike ([single], [multiple], omitted or empty):
    the number [GET /api/customers/count] returns is the number of rows
    [GET /api/customers] returns for the same parameters; and with no
    address-count filter and no search term, in a store whose customer
    ids are a primary key, it is the number of customer rows. *)
Theorem count_matches_list ILIKE trim addressCount q w n views :
  recognised addressCount →
  (run (get_customers_count ILIKE trim addressCount q) w).1
    = Some (res_json (JCount n)) →
  (run (get_customers ILIKE trim addressCount q) w).1
    = Some (res_json (JData views)) →
  n = Z.of_nat (length views)
  ∧ (primary_key (tables w) → truthy addressCount = false →
     has_search trim q = false →
     n = Z.of_nat (length (customers (tables w)))).
Proof.
  intros Hrec ->%get_customers_count_data ->%get_customers_data. split.
  - rewrite length_fmap. by apply count_query_agrees.
  - intros Hpk Hf Hno. by apply unfiltered_count.
Qed.

Lemma count_matches_list_witness :
  2 = Z.of_nat (length [mkView 2 "Bob" "Ray" "1234567891" (Some 1) [bob_oslo];
                         mkView 1 "Ann" "Lee" "1234567890" (Some 1) [ann_rome]])
  ∧ 3 = Z.of_nat (length (customers (tables sample_world))).
Proof.
  split.
  - apply (count_matches_list ilike js_trim (Some "single") (Some "o")
             sample_world); [by left|reflexivity|reflexivity].
  - refine (proj2 (count_matches_list ilike js_trim None None sample_world 3 _
                     _ eq_refl eq_refl) _ eq_refl eq_refl);
      [by right; right|decided].
Defined.

(** X19.  The address-count filter of [GET /api/customers], in a store
    whose customer ids are a primary key.  With [multiple] every row is a
    customer with two or more address rows, whatever the search term; with
    no search term, [single] returns exactly the customers with one
    address row and [multiple] exactly the customers with two or more. *)
Theorem address_count_filter ILIKE trim q w :
  primary_key (tables w) →
  (∀ views v,
     (run (get_customers ILIKE trim (Some "multiple") q) w).1
       = Some (res_json (JData views)) →
     v ∈ views →
     (2 ≤ length (filter (λ a, a_customer_id a = v_id v) (addresses (tables w))))%nat)
  ∧ (has_search trim q = false →
     (∀ views,
        (run (get_customers ILIKE trim (Some "single") q) w).1
          = Some (res_json (JData views)) →
        ∀ id, id ∈ v_id <$> views ↔
              ∃ c, c ∈ customers (tables w) ∧ c_id c = id
                   ∧ length (filter (λ a, a_customer_id a = id)
                               (addresses (tables w))) = 1%nat)
     ∧ (∀ views,
          (run (get_customers ILIKE trim (Some "multiple") q) w).1
            = Some (res_json (JData views)) →
          ∀ id, id ∈ v_id <$> views ↔
                ∃ c, c ∈ customers (tables w) ∧ c_id c = id
                     ∧ (2 ≤ length (filter (λ a, a_customer_id a = id)
                                      (addresses (tables w))))%nat)).
Proof.
  intros Hpk. split.
  - intros views v ->%get_customers_data Hv. by eapply multiple_have_several.
  - intros Hno. split.
    + intros views ->%get_customers_data id. split.
      * intros (v & -> & Hv)%list_elem_of_fmap.
        pose proof (single_have_one _ _ _ _ _ Hpk Hno Hv) as Hone.
        apply list_views_sound in Hv as (c & Hc & _ & Hid).
        exists c. rewrite Hid in Hone |- *. done.
      * intros (c & Hc & <- & Hone).
        apply filtered_list_complete; [done..|by left].
    + intros views ->%get_customers_data id. split.
      * intros (v & -> & Hv)%list_elem_of_fmap.
        pose proof (multiple_have_several _ _ _ _ _ Hpk Hv) as Hmany.
        apply list_views_sound in Hv as (c & Hc & _ & Hid).
        exists c. rewrite Hid in Hmany |- *. done.
      * intros (c & Hc & <- & Hmany).
        apply filtered_list_complete; [done..|by right].
Qed.

Lemma address_count_filter_witness :
  (2 ≤ length (filter (λ a, a_customer_id a = 1%Z)
                 (addresses (tables sample_world))))%nat
  ∧ 2 ∈ v_id <$> [mkView 2 "Bob" "Ray" "1234567891" (Some 1) [bob_oslo]].
Proof.
  assert (primary_key (tables sample_world)) as Hpk by decided.
  destruct (address_count_filter ilike js_trim None sample_world Hpk)
    as [Hmultiple Hexact].
  destruct (Hexact eq_refl) as [Hsingle _].
  split.
  - apply (Hmultiple _ (mkView 1 "Ann" "Lee" "1234567890" (Some 2)
                          [ann_paris; ann_rome]) eq_refl).
    left.
  - apply (Hsingle _ eq_refl 2). exists bob.
    split; [right; left|]. split; reflexivity.
Defined.

(** X20.  Search without a term and list name the same customers:
    [GET /api/customers/search] answers with rows only when the term is
    blank, and then, in a store whose customer ids are a primary key, its
    rows have the ids of [GET /api/customers] with the same [q] and no
    address-count filter, in the same order; these are the ids of all
    customer rows, and every row nests all address rows of its
    customer. *)
Theorem blank_search_agrees_with_list ILIKE trim q w found listed_rows :
  primary_key (tables w) →
  (run (get_customers_search trim q) w).1 = Some (res_json (JData found)) →
  (run (get_customers ILIKE trim None q) w).1
    = Some (res_json (JData listed_rows)) →
  truthy (Some (trim (if truthy q then text q else EmptyString))) = false
  ∧ v_id <$> found = v_id <$> listed_rows
  ∧ v_id <$> found ≡ₚ c_id <$> customers (tables w)
  ∧ ∀ v, v ∈ found →
      v_addresses v
      = filter (λ a, a_customer_id a = v_id v) (addresses (tables w)).
Proof.
  intros Hpk [Hblank ->]%get_customers_search_data ->%get_customers_data.
  split_and!.
  - exact Hblank.
  - by apply blank_search_list_same_ids.
  - apply search_views_ids.
  - intros v (row & -> & Hrow)%list_elem_of_fmap.
    by apply search_row_shows.
Qed.

Lemma blank_search_agrees_with_list_witness :
  (run (get_customers_search js_trim (Some "  ")) sample_world).1
  = Some (res_json
            (JData [mkView 3 "Cy" "Poe" "1234567892" None [];
                    mkView 2 "Bob" "Ray" "1234567891" None [bob_oslo];
                    mkView 1 "Ann" "Lee" "1234567890" None [ann_paris; ann_rome]]))
  ∧ v_id <$> [mkView 3 "Cy" "Poe" "1234567892" None [];
              mkView 2 "Bob" "Ray" "1234567891" None [bob_oslo];
              mkView 1 "Ann" "Lee" "1234567890" None [ann_paris; ann_rome]]
    = v_id <$> [mkView 3 "Cy" "Poe" "1234567892" (Some 0) [];
                mkView 2 "Bob" "Ray" "1234567891" (Some 1) [bob_oslo];
                mkView 1 "Ann" "Lee" "1234567890" (Some 2) [ann_paris; ann_rome]].
Proof.
  assert (primary_key (tables sample_world)) as Hpk by decided.
  split; [reflexivity|].
  apply (blank_search_agrees_with_list ilike js_trim (Some "  ") sample_world
           [mkView 3 "Cy" "Poe" "1234567892" None [];
            mkView 2 "Bob" "Ray" "1234567891" None [bob_oslo];
            mkView 1 "Ann" "Lee" "1234567890" None [ann_paris; ann_rome]]
           [mkView 3 "Cy" "Poe" "1234567892" (Some 0) [];
            mkView 2 "Bob" "Ray" "1234567891" (Some 1) [bob_oslo];
            mkView 1 "Ann" "Lee" "1234567890" (Some 2) [ann_paris; ann_rome]]
           Hpk eq_refl eq_refl).
Defined.

(** X21.  A deleted customer is gone: when the customer exists and no
    store call fails, after [DELETE /api/customers/:id] the lookup
    [GET /api/customers/:id] answers the 404 error "Customer not found",
    [GET /api/customers/:id/addresses] answers an empty list, and a second
    delete answers the 404 error "Customer not found." and changes no
    row. *)
Theorem deleted_customer_is_gone fk id w :
  calm w → customer_exists id (tables w) →
  (run (get_customer id) (run (delete_customer fk id) w).2).1
  = Some (res_status_json 404 (JError "Customer not found" None))
  ∧ (run (get_customer_addresses id) (run (delete_customer fk id) w).2).1
    = Some (res_json (JAddresses []))
  ∧ (run (delete_customer fk id) (run (delete_customer fk id) w).2).1
    = Some customer_not_found
  ∧ tables (run (delete_customer fk id) (run (delete_customer fk id) w).2).2
    = tables (run (delete_customer fk id) w).2.
Proof.
  intros Hc Hex.
  destruct (wp_returns _ _ _ (delete_customer_calm fk id w Hex Hc))
    as (r & w' & Hrun & -> & Hrows & Hc').
  rewrite Hrun. simpl.
  assert (¬ customer_exists id (tables w')) as Hno
    by (rewrite Hrows; apply cascade_no_customer).
  split_and!.
  - destruct (wp_returns _ _ _ (get_customer_calm id w' Hc'))
      as (r1 & w1 & Hrun1 & Hr1 & _).
    rewrite Hrun1. simpl.
    rewrite (proj2 (selected_rows_empty _ _) Hno) in Hr1. by rewrite Hr1.
  - destruct (wp_returns _ _ _ (get_customer_addresses_calm id w' Hc'))
      as (r1 & w1 & Hrun1 & -> & _).
    by rewrite Hrun1, Hrows, cascade_no_addresses.
  - destruct (wp_returns _ _ _ (delete_customer_missing fk id w' Hno Hc'))
      as (r2 & w2 & Hrun2 & -> & _).
    by rewrite Hrun2.
  - destruct (wp_returns _ _ _ (delete_customer_missing fk id w' Hno Hc'))
      as (r2 & w2 & Hrun2 & _ & Hrows2).
    by rewrite Hrun2.
Qed.

Lemma deleted_customer_is_gone_witness :
  (run (get_customer 1) (run (delete_customer true 1) sample_world).2).1
  = Some (res_status_json 404 (JError "Customer not found" None))
  ∧ (run (get_customer_addresses 1) (run (delete_customer true 1) sample_world).2).1
    = Some (res_json (JAddresses []))
  ∧ (run (delete_customer true 1) (run (delete_customer true 1) sample_world).2).1
    = Some customer_not_found.
Proof.
  assert (customer_exists 1 (tables sample_world)) as Hex by decided.
  destruct (deleted_customer_is_gone true 1 sample_world ltac:(constructor) Hex)
    as (Hlookup & Haddresses & Hagain & _).
  split; [exact Hlookup|]. split; [exact Haddresses|exact Hagain].
Defined.

(** X22.  The route of the count handler is shadowed: [GET
    /api/customers/:id] is registered before [GET /api/customers/count],
    so no request, whatever its method ([GET], [POST], [PUT], [DELETE])
    and path, is given to the count handler; a [GET] of
    [/api/customers/count] goes to the handler of [GET /api/customers/:id]
    with the id [count].  Each of the other eleven handlers is reached by
    some request; [GET /api/customers/search], registered before the route
    with the id, among them. *)
Theorem count_route_is_shadowed :
  (∀ m path, fst <$> dispatch m path ≠ Some ECount)
  ∧ (∀ segment, same_text "count" segment = true →
       dispatch GET ["api"; "customers"; segment] = Some (EGetCustomer, [segment]))
  ∧ (∀ e, e ≠ ECount → ∃ m path, fst <$> dispatch m path = Some e).
Proof.
  split_and!.
  - apply count_is_shadowed.
  - apply count_request_gets_customer_handler.
  - apply other_routes_are_reachable.
Qed.

Lemma count_route_is_shadowed_witness :
  dispatch GET ["api"; "customers"; "Count"] = Some (EGetCustomer, ["Count"])
  ∧ dispatch GET ["api"; "customers"; "search"] = Some (ESearch, []).
Proof.
  destruct count_route_is_shadowed as (_ & Hcount & _).
  split; [exact (Hcount "Count" eq_refl)|reflexivity].
Defined.

(** X23.  What a row of [GET /api/customers] nests, in a store whose
    customer ids are a primary key: without a search term, all the address
    rows of the customer; with a search term, all of them
    when a column of the customer itself matches the pattern, and
    otherwise only the address rows that match it.  The address-count
    filter does not change what is nested. *)
Theorem list_rows_nest_matching_addresses ILIKE trim addressCount q w views v c :
  primary_key (tables w) →
  (run (get_customers ILIKE trim addressCount q) w).1
    = Some (res_json (JData views)) →
  v ∈ views → c ∈ customers (tables w) → v_id v = c_id c →
  v_addresses v
  = if has_search trim q
    then filter (λ a, customer_like ILIKE (pattern_of (trim (text q))) c
                      || address_like ILIKE (pattern_of (trim (text q))) a)
           (filter (λ a, a_customer_id a = c_id c) (addresses (tables w)))
    else filter (λ a, a_customer_id a = c_id c) (addresses (tables w)).
Proof.
  intros Hpk ->%get_customers_data (row & -> & Hrow)%list_elem_of_fmap Hc Hid.
  by eapply list_row_nested.
Qed.

Lemma list_rows_nest_matching_addresses_witness :
  v_addresses (mkView 1 "Ann" "Lee" "1234567890" (Some 1) [ann_paris])
  = filter (λ a, customer_like ilike (pattern_of (js_trim (text (Some "paris")))) ann
                 || address_like ilike (pattern_of (js_trim (text (Some "paris")))) a)
      (filter (λ a, a_customer_id a = c_id ann) (addresses (tables sample_world))).
Proof.
  apply (list_rows_nest_matching_addresses ilike js_trim None (Some "paris")
           sample_world
           [mkView 1 "Ann" "Lee" "1234567890" (Some 1) [ann_paris]]);
    [decided|reflexivity|left|left|reflexivity].
Defined.

(** X24.  The search term of the list is a pattern, not a text: it is
    put between two [%] unescaped, so with PostgreSQL's [ILIKE] the term
    [%] matches every value, and in a store whose customer ids are a
    primary key [GET /api/customers?q=%] returns one row for every
    customer row, which nests all address rows of that customer. *)
Theorem percent_finds_every_customer w listed_rows :
  primary_key (tables w) →
  (run (get_customers ilike js_trim None (Some "%")) w).1
    = Some (res_json (JData listed_rows)) →
  v_id <$> listed_rows ≡ₚ c_id <$> customers (tables w)
  ∧ ∀ v, v ∈ listed_rows →
      v_addresses v
      = filter (λ a, a_customer_id a = v_id v) (addresses (tables w)).
Proof.
  intros Hpk ->%get_customers_data. split.
  - by apply percent_lists_everything.
  - intros v (row & -> & Hrow)%list_elem_of_fmap.
    by apply percent_nests_everything.
Qed.

Lemma percent_finds_every_customer_witness :
  v_id <$> [mkView 3 "Cy" "Poe" "1234567892" (Some 0) [];
            mkView 2 "Bob" "Ray" "1234567891" (Some 1) [bob_oslo];
            mkView 1 "Ann" "Lee" "1234567890" (Some 2) [ann_paris; ann_rome]]
  ≡ₚ c_id <$> customers (tables sample_world).
Proof.
  assert (primary_key (tables sample_world)) as Hpk by decided.
  apply (percent_finds_every_customer sample_world
           [mkView 3 "Cy" "Poe" "1234567892" (Some 0) [];
            mkView 2 "Bob" "Ray" "1234567891" (Some 1) [bob_oslo];
            mkView 1 "Ann" "Lee" "1234567890" (Some 2) [ann_paris; ann_rome]]
           Hpk eq_refl).
Defined.

(** X25.  The checks come before the store, and nothing else answers
    400: for every write request, when a check of its handler fails the
    response is a 400 and the whole world is as it was (no client leased,
    no store call made, no id taken from a sequence), whatever the store
    would have done; and when the checks pass, no response is a 400,
    whatever the store calls do.  The checks are: names and a phone number
    of ten digits for update customer; these, the four address fields and
    a pin code of six digits for create customer; the customer id and the
    four address fields for [POST /api/addresses]; the four address
    fields for [PUT /api/addresses/:id]; the four address fields and a
    pin code of six digits for [POST /api/customers/:id/addresses]; none
    for the two deletes. *)
Theorem checks_decide_the_400 fk r w :
  (passes_checks r = false →
   ∃ resp, run (handle_write fk r) w = (Some resp, w) ∧ status resp = 400)
  ∧ (passes_checks r = true →
     ∀ resp, (run (handle_write fk r) w).1 = Some resp → status resp ≠ 400).
Proof.
  split.
  - intros Hv. by apply handle_write_rejected.
  - intros Hv.
    apply (wp_run _ (λ o, ∀ resp, o.1 = Some resp → status resp ≠ 400)).
    eapply wp_mono; [| |by apply handle_write_not_rejected]; simpl.
    + by intros resp w' Hst ? [= <-].
    + done.
Qed.

Lemma checks_decide_the_400_witness :
  (∃ resp, run (handle_write true (PostCustomer ann_short_pin)) lost_insert_world
           = (Some resp, lost_insert_world) ∧ status resp = 400)
  ∧ status (customer_created 4) ≠ 400.
Proof.
  split.
  - apply (checks_decide_the_400 true (PostCustomer ann_short_pin) lost_insert_world).
    reflexivity.
  - apply (proj2 (checks_decide_the_400 true (PostCustomer dee_full) sample_world)
             eq_refl (customer_created 4)).
    reflexivity.
Defined.

(** X26.  The rows of a list response, in a store whose customer ids are
    a primary key: [GET /api/customers] returns at most one row per
    customer, ordered by descending customer id; every row carries the
    id, the names and the phone number of a customer row that the request
    asks for, and nests address rows of that customer only, none when
    the customer has no address; and when no address-count filter is
    given, every customer the request asks for has its row.  A customer is
    asked for when there is no search term, or when one of its own columns
    or a column of one of its addresses matches the pattern. *)
Theorem list_rows_one_per_customer ILIKE trim addressCount q w views :
  primary_key (tables w) →
  (run (get_customers ILIKE trim addressCount q) w).1
    = Some (res_json (JData views)) →
  one_row_each views
  ∧ (∀ v, v ∈ views →
       ∃ c, c ∈ customers (tables w) ∧ listed ILIKE trim q (tables w) c
            ∧ v_id v = c_id c ∧ v_first_name v = c_first_name c
            ∧ v_last_name v = c_last_name c
            ∧ v_phone_number v = c_phone_number c
            ∧ (∀ a, a ∈ v_addresses v →
                 a ∈ addresses (tables w) ∧ a_customer_id a = c_id c)
            ∧ (¬ has_addresses (c_id c) (tables w) → v_addresses v = []))
  ∧ (addressCount ≠ Some "single" → addressCount ≠ Some "multiple" →
     ∀ c, c ∈ customers (tables w) → listed ILIKE trim q (tables w) c →
          c_id c ∈ v_id <$> views).
Proof.
  intros Hpk ->%get_customers_data. split_and!.
  - apply list_views_one_row_each.
  - intros v Hv.
    destruct (list_views_sound _ _ _ _ _ _ Hv) as (c & Hc & Hlisted & Hid).
    apply list_elem_of_fmap in Hv as (row & -> & Hrow).
    destruct (list_row_shows _ _ _ _ _ _ Hrow)
      as ((c' & Hc' & Hid' & Hfirst & Hlast & Hphone) & Hnested & Hnone).
    assert (c' = c) as -> by (apply (primary_key_inj (tables w)); congruence).
    exists c. rewrite <- Hid. by split_and!.
  - intros Hs Hm c Hc Hl. by apply list_views_complete.
Qed.

Lemma list_rows_one_per_customer_witness :
  one_row_each [mkView 1 "Ann" "Lee" "1234567890" (Some 1) [ann_paris]]
  ∧ c_id ann ∈ v_id <$> [mkView 1 "Ann" "Lee" "1234567890" (Some 1) [ann_paris]].
Proof.
  assert (primary_key (tables sample_world)) as Hpk by decided.
  destruct (list_rows_one_per_customer ilike js_trim None (Some "paris")
              sample_world
              [mkView 1 "Ann" "Lee" "1234567890" (Some 1) [ann_paris]]
              Hpk eq_refl) as (Hone & _ & Hall).
  split; [exact Hone|].
  apply Hall; [done|done|left|].
  right. exists ann_paris. split_and!; [left|reflexivity|reflexivity].
Defined.
